(** * bigfoont: text rendered as braille art

    A shallow embedding of [src/bigfoont/braille.py] and the properties its
    specification states about it.

    Conventions of the embedding:
    - Python [int] is [Z]; a Python [bool] is [bool].
    - A Python [str] that is produced or rendered (the text to render, the
      braille output) is a list of code points, [list Z]; [ord] and [chr]
      are the identity on valid code points.
    - The text of a font source is a [list ascii]: the characters of the
      Latin-1 range, on which the tables behind [\s], [\d], [str.strip] and
      [int] are the finite ones written out below.
    - Code that can raise returns a [result]; the exception is kept.
    - A [dict] is a [gmap]. *)

From Stdlib Require Import ZArith List Ascii String DecimalString Lia Bool.
From stdpp Require Import base option list gmap.

Local Open Scope Z_scope.

(** ** The Python runtime the program relies on *)

Module Py.

Inductive exn := ValueError | IndexError | TypeError | OSError.

Inductive result (A : Type) :=
| Ok (a : A)
| Raise (e : exn).
Arguments Ok {A} a.
Arguments Raise {A} e.

Definition bind {A B} (m : result A) (f : A -> result B) : result B :=
  match m with
  | Ok a => f a
  | Raise e => Raise e
  end.

(** [for x in xs: s = body(s, x)], stopping at the first exception. *)
Fixpoint for_each {A S} (xs : list A) (body : S -> A -> result S) (s : S)
  : result S :=
  match xs with
  | [] => Ok s
  | x :: xs' => bind (body s x) (for_each xs' body)
  end.

(** [[f(x) for x in xs]], stopping at the first exception. *)
Fixpoint comprehension {A B} (f : A -> result B) (xs : list A)
  : result (list B) :=
  match xs with
  | [] => Ok []
  | x :: xs' =>
      bind (f x) (fun y => bind (comprehension f xs') (fun ys => Ok (y :: ys)))
  end.

(** [range(start, stop, step)] for a positive [step]: [start], [start+step],
    ... while below [stop].  At most [stop - start] values exist. *)
Fixpoint range_from (fuel : nat) (start stop step : Z) : list Z :=
  match fuel with
  | O => []
  | S fuel' =>
      if start <? stop
      then start :: range_from fuel' (start + step) stop step
      else []
  end.

Definition range3 (start stop step : Z) : list Z :=
  range_from (Z.to_nat (stop - start)) start stop step.

Definition range (stop : Z) : list Z := range3 0 stop 1.

(** [len(l)] *)
Definition len {A} (l : list A) : Z := Z.of_nat (length l).

(** [l[i]]: a negative index counts from the end, an index out of range
    raises [IndexError]. *)
Definition getitem {A} (l : list A) (i : Z) : result A :=
  let j := if i <? 0 then i + len l else i in
  if (0 <=? j) && (j <? len l)
  then match l !! Z.to_nat j with
       | Some a => Ok a
       | None => Raise IndexError
       end
  else Raise IndexError.

(** [l[i] = v], same index rules. *)
Definition setitem {A} (l : list A) (i : Z) (v : A) : result (list A) :=
  let j := if i <? 0 then i + len l else i in
  if (0 <=? j) && (j <? len l)
  then Ok (<[Z.to_nat j := v]> l)
  else Raise IndexError.

(** [[v] * n]: empty for [n <= 0]. *)
Definition repeat_list {A} (v : A) (n : Z) : list A := replicate (Z.to_nat n) v.

(** [chr(code)] on code points. *)
Definition chr (code : Z) : result Z :=
  if (0 <=? code) && (code <=? 0x10FFFF) then Ok code else Raise ValueError.

(** [sep.join(parts)] *)
Fixpoint join {A} (sep : list A) (parts : list (list A)) : list A :=
  match parts with
  | [] => []
  | [p] => p
  | p :: rest => p ++ sep ++ join sep rest
  end.

(** [a << n]: a negative shift count raises [ValueError]. *)
Definition lshift (a n : Z) : result Z :=
  if n <? 0 then Raise ValueError else Ok (Z.shiftl a n).

(** [x or y] on integers: [y] when [x] is zero. *)
Definition or_int (x y : Z) : Z := if x =? 0 then y else x.

(** The values a tuple of the preset table can hold. *)
Inductive value :=
| VInt (z : Z)
| VStr (s : string)
| VNone.

(** [x or y] on tuples: a tuple is false only when it is empty. *)
Definition or_tuple (x y : list value) : list value :=
  match x with
  | [] => y
  | _ :: _ => x
  end.

(** *** Text of a font source: characters of the Latin-1 range *)

Definition code (c : ascii) : Z := Z.of_N (N_of_ascii c).

Definition text_of (s : string) : list ascii := list_ascii_of_string s.

(** The characters [str.isspace], [str.strip] and the pattern class [\s]
    accept. *)
Definition is_space (c : ascii) : bool :=
  let n := code c in
  ((9 <=? n) && (n <=? 13)) || ((28 <=? n) && (n <=? 31)) || (n =? 32)
  || (n =? 0x85) || (n =? 0xA0).

(** The characters the pattern class [\d] accepts. *)
Definition is_digit (c : ascii) : bool :=
  let n := code c in (48 <=? n) && (n <=? 57).

Fixpoint lstrip (s : list ascii) : list ascii :=
  match s with
  | c :: s' => if is_space c then lstrip s' else s
  | [] => []
  end.

Definition rstrip (s : list ascii) : list ascii := rev (lstrip (rev s)).

(** [s.strip()] *)
Definition strip (s : list ascii) : list ascii := rstrip (lstrip s).

(** [s.split(sep)] for a separator of one character. *)
Fixpoint split (sep : ascii) (s : list ascii) : list (list ascii) :=
  match s with
  | [] => [[]]
  | c :: s' =>
      if Ascii.eqb c sep then [] :: split sep s'
      else match split sep s' with
           | piece :: pieces => (c :: piece) :: pieces
           | [] => [[c]]
           end
  end.

(** *** [int(s, base)] for the bases 10 and 16

    The numeral grammar of the interpreter: surrounding blanks, one sign,
    for base 16 an optional [0x] or [0X] (which one underscore may follow),
    then digits with single underscores only between digits.  (The optional
    limit on the digit count of decimal numerals is not modelled.) *)

(** Blanks [int] itself skips: a narrower table than [is_space]. *)
Definition is_int_space (c : ascii) : bool :=
  let n := code c in
  ((9 <=? n) && (n <=? 13)) || (n =? 32) || (n =? 0x85) || (n =? 0xA0).

Definition digit_value (c : ascii) : option Z :=
  let n := code c in
  if (48 <=? n) && (n <=? 57) then Some (n - 48)
  else if (97 <=? n) && (n <=? 122) then Some (n - 97 + 10)
  else if (65 <=? n) && (n <=? 90) then Some (n - 65 + 10)
  else None.

(** The digit loop: [seen] says a digit was read, [prev_us] that the last
    character was an underscore. *)
Fixpoint int_digits (base : Z) (s : list ascii) (seen prev_us : bool) (acc : Z)
  : option Z :=
  match s with
  | [] => if seen && negb prev_us then Some acc else None
  | c :: s' =>
      if Ascii.eqb c "_"
      then if seen && negb prev_us then int_digits base s' seen true acc
           else None
      else match digit_value c with
           | Some d =>
               if d <? base then int_digits base s' true false (acc * base + d)
               else None
           | None => None
           end
  end.

Definition int_prefix (base : Z) (s : list ascii) : list ascii :=
  match s with
  | z :: x :: s' =>
      if (base =? 16) && Ascii.eqb z "0"
         && (Ascii.eqb x "x" || Ascii.eqb x "X")
      then match s' with
           | u :: s'' => if Ascii.eqb u "_" then s'' else s'
           | [] => s'
           end
      else s
  | _ => s
  end.

Fixpoint int_lstrip (s : list ascii) : list ascii :=
  match s with
  | c :: s' => if is_int_space c then int_lstrip s' else s
  | [] => []
  end.

Definition int (s : list ascii) (base : Z) : result Z :=
  let s := rev (int_lstrip (rev (int_lstrip s))) in
  let '(sign, s) :=
    match s with
    | c :: s' =>
        if Ascii.eqb c "+" then (1, s')
        else if Ascii.eqb c "-" then (-1, s')
        else (1, s)
    | [] => (1, s)
    end in
  match int_digits base (int_prefix base s) false false 0 with
  | Some v => Ok (sign * v)
  | None => Raise ValueError
  end.

End Py.

Import Py.

Notation "'let*' x ':=' m 'in' k" := (Py.bind m (fun x => k))
  (at level 10, x name, m at level 100, k at level 200).

(** ** The braille encoder *)

Definition BRAILLE_BASE : Z := 0x2800.

Definition BRAILLE_DOTS : list (Z * Z * Z) :=
  [ (0, 0, 0x01); (0, 1, 0x02); (0, 2, 0x04); (0, 3, 0x40);
    (1, 0, 0x08); (1, 1, 0x10); (1, 2, 0x20); (1, 3, 0x80) ].

(** The innermost loop of [_bitmap_to_braille]: the code of the cell whose
    top-left pixel is [(x, y)]. *)
Definition cell_code (bitmap : list (list bool)) (height width y x : Z)
  : result Z :=
  for_each BRAILLE_DOTS
    (fun code '(dx, dy, bit) =>
       if (y + dy <? height) && (x + dx <? width)
       then let* row := getitem bitmap (y + dy) in
            let* pixel := getitem row (x + dx) in
            Ok (if pixel : bool then Z.lor code bit else code)
       else Ok code)
    BRAILLE_BASE.

(** One row band: [line] of the source, already joined. *)
Definition braille_line (bitmap : list (list bool)) (height width y : Z)
  : result (list Z) :=
  comprehension
    (fun x => let* code := cell_code bitmap height width y x in chr code)
    (range3 0 width 2).

Definition newline : Z := 10.

Definition _bitmap_to_braille (bitmap : list (list bool)) : result (list Z) :=
  match bitmap with
  | [] => Ok []
  | [] :: _ => Ok []
  | (_ :: _) as row0 :: _ =>
      let height := len bitmap in
      let width := len row0 in
      let* lines := comprehension (braille_line bitmap height width)
                      (range3 0 height 4) in
      Ok (join [newline] lines)
  end.

(** ** Size presets *)

Definition PRESETS : gmap (Z * Z) (list value) :=
  list_to_map
    [ ((4, 2), [VInt 8; VInt 8; VStr "8x8 - tiny"]);
      ((4, 4), [VInt 8; VInt 16; VStr "8x16 - compact"]);
      ((8, 4), [VInt 16; VInt 16; VStr "16x16 - standard"]);
      ((8, 6), [VInt 16; VInt 24; VStr "16x24 - tall"]);
      ((12, 6), [VInt 24; VInt 24; VStr "24x24 - large"]);
      ((16, 8), [VInt 32; VInt 32; VStr "32x32 - extra large"]) ].

(** [PRESETS.get(key, (None,))[:2] or (braille_w * 2, braille_h * 4)] *)
Definition get_preset (braille_w braille_h : Z) : list value :=
  or_tuple
    (take 2 (default [VNone] (PRESETS !! (braille_w, braille_h))))
    [VInt (braille_w * 2); VInt (braille_h * 4)].


(** ** Regular expressions: the backtracking matcher of [re]

    The fragment the two patterns of the decoder use: literal text, a
    character class once, optionally or repeated (greedy or lazy), and
    capturing groups.  Alternatives are tried in the order of the
    interpreter's matcher, so the first success is its match. *)

Module Re.

Inductive cls :=
| Space                 (* \s *)
| Digit                 (* \d *)
| Any                   (* .  under DOTALL *)
| Char (c : ascii).

Definition accepts (k : cls) (c : ascii) : bool :=
  match k with
  | Space => is_space c
  | Digit => is_digit c
  | Any => true
  | Char c' => Ascii.eqb c c'
  end.

Inductive node :=
| Lit (s : list ascii)            (* literal text *)
| One (k : cls)                   (* k   *)
| Opt (k : cls)                   (* k?  *)
| Star (k : cls) (greedy : bool)  (* k*  and  k*? *)
| Open                            (* (   *)
| Close.                          (* )   *)

Definition regex := list node.

Definition lit (s : string) : regex := [Lit (text_of s)].
Definition plus (k : cls) : regex := [One k; Star k true].    (* k+  *)
Definition star (k : cls) : regex := [Star k true].           (* k*  *)
Definition lazy_star (k : cls) : regex := [Star k false].     (* k*? *)
Definition opt (k : cls) : regex := [Opt k].                  (* k?  *)
Definition group (r : regex) : regex := Open :: r ++ [Close]. (* (r) *)

Fixpoint strip_prefix (p s : list ascii) : option (list ascii) :=
  match p, s with
  | [], _ => Some s
  | a :: p', b :: s' => if Ascii.eqb a b then strip_prefix p' s' else None
  | _ :: _, [] => None
  end.

(** [exec r s opened caps]: match [r] at the start of [s].  [opened] holds,
    for every group still open, the text that was left when it opened;
    [caps] the texts of the groups closed so far.  The result is the
    captured groups and the text left after the match. *)
Fixpoint exec (r : regex) (s : list ascii) (opened : list (list ascii))
  (caps : list (list ascii)) {struct r}
  : option (list (list ascii) * list ascii) :=
  match r with
  | [] => Some (caps, s)
  | Lit l :: r' =>
      match strip_prefix l s with
      | Some s' => exec r' s' opened caps
      | None => None
      end
  | One k :: r' =>
      match s with
      | c :: s' => if accepts k c then exec r' s' opened caps else None
      | [] => None
      end
  | Opt k :: r' =>
      match s with
      | c :: s' =>
          if accepts k c
          then match exec r' s' opened caps with
               | Some m => Some m
               | None => exec r' s opened caps
               end
          else exec r' s opened caps
      | [] => exec r' s opened caps
      end
  | Star k greedy :: r' =>
      (fix rep (s : list ascii) :=
         match s with
         | c :: s' =>
             if accepts k c
             then if greedy
                  then match rep s' with
                       | Some m => Some m
                       | None => exec r' s opened caps
                       end
                  else match exec r' s opened caps with
                       | Some m => Some m
                       | None => rep s'
                       end
             else exec r' s opened caps
         | [] => exec r' s opened caps
         end) s
  | Open :: r' => exec r' s (s :: opened) caps
  | Close :: r' =>
      match opened with
      | s0 :: opened' =>
          exec r' s opened' (caps ++ [take (length s0 - length s) s0])
      | [] => None
      end
  end.

(** A match object, as far as the program reads it: the captured groups. *)
Definition match_object := list (list ascii).

(** [m.group(i)], for [i >= 1]. *)
Definition group_of (m : match_object) (i : nat) : list ascii :=
  nth (i - 1) m [].

(** [re.search]: the match at the leftmost position that has one. *)
Fixpoint search (r : regex) (s : list ascii) : option match_object :=
  match exec r s [] [] with
  | Some (caps, _) => Some caps
  | None =>
      match s with
      | [] => None
      | _ :: s' => search r s'
      end
  end.

(** [re.finditer]: the matches from left to right, each search starting
    where the match before ended.  [skip] counts the characters of the last
    match still to pass.  (Both patterns of the decoder start with literal
    text, so a match is never empty.) *)
Fixpoint scan (r : regex) (skip : nat) (s : list ascii) : list match_object :=
  match skip with
  | S skip' =>
      match s with
      | [] => []
      | _ :: s' => scan r skip' s'
      end
  | O =>
      match exec r s [] [] with
      | Some (caps, rest) =>
          caps :: match s with
                  | [] => []
                  | _ :: s' => scan r (length s - length rest - 1)%nat s'
                  end
      | None =>
          match s with
          | [] => []
          | _ :: s' => scan r 0 s'
          end
      end
  end.

Definition finditer (r : regex) (s : list ascii) : list match_object :=
  scan r 0 s.

End Re.

(** ** The bitmap font decoder *)

(** The value [(w, h, x_off, y_off, bitmap)] stored for a character code. *)
Record Glyph := mkGlyph {
  g_w : Z;
  g_h : Z;
  g_x_off : Z;
  g_y_off : Z;
  g_bitmap : list (list bool)
}.

Record BDFFont := mkFont {
  glyphs : gmap Z Glyph;
  width : Z;
  height : Z
}.

(** [FONTBOUNDINGBOX\s+(\d+)\s+(\d+)] *)
Definition BOUNDINGBOX_RE : Re.regex :=
  Re.lit "FONTBOUNDINGBOX" ++ Re.plus Re.Space ++ Re.group (Re.plus Re.Digit)
  ++ Re.plus Re.Space ++ Re.group (Re.plus Re.Digit).

Definition LF : ascii := "010".

(** [ENCODING\s+(\d+)\s*\n.*?BBX\s+(\d+)\s+(\d+)\s+(-?\d+)\s+(-?\d+)\s*\n.*?BITMAP\s*\n(.*?)\nENDCHAR]
    under [re.DOTALL]. *)
Definition GLYPH_RE : Re.regex :=
  Re.lit "ENCODING" ++ Re.plus Re.Space ++ Re.group (Re.plus Re.Digit)
  ++ Re.star Re.Space ++ [Re.Lit [LF]] ++ Re.lazy_star Re.Any
  ++ Re.lit "BBX" ++ Re.plus Re.Space ++ Re.group (Re.plus Re.Digit)
  ++ Re.plus Re.Space ++ Re.group (Re.plus Re.Digit)
  ++ Re.plus Re.Space ++ Re.group (Re.opt (Re.Char "-") ++ Re.plus Re.Digit)
  ++ Re.plus Re.Space ++ Re.group (Re.opt (Re.Char "-") ++ Re.plus Re.Digit)
  ++ Re.star Re.Space ++ [Re.Lit [LF]] ++ Re.lazy_star Re.Any
  ++ Re.lit "BITMAP" ++ Re.star Re.Space ++ [Re.Lit [LF]]
  ++ Re.group (Re.lazy_star Re.Any)
  ++ [Re.Lit (LF :: text_of "ENDCHAR")].

(** [[bool(val & (1 << (7 - bit))) for bit in range(w)]] *)
Definition bitmap_row (w val : Z) : result (list bool) :=
  comprehension
    (fun bit => let* mask := lshift 1 (7 - bit) in
                Ok (negb (Z.land val mask =? 0)))
    (range w).

(** The loop over the lines of the bitmap block. *)
Definition bitmap_rows (w : Z) (block : list ascii) : result (list (list bool)) :=
  for_each (split LF (strip block))
    (fun bitmap line =>
       match strip line with
       | [] => Ok bitmap
       | _ :: _ =>
           let* val := int (strip line) 16 in
           let* row := bitmap_row w val in
           Ok (bitmap ++ [row])
       end)
    [].

(** The body of the loop over the matched character records. *)
Definition parse_record (self : BDFFont) (m : Re.match_object) : result BDFFont :=
  let* enc := int (Re.group_of m 1) 10 in
  let* w := int (Re.group_of m 2) 10 in
  let* h := int (Re.group_of m 3) 10 in
  let* x_off := int (Re.group_of m 4) 10 in
  let* y_off := int (Re.group_of m 5) 10 in
  let* bitmap := bitmap_rows w (Re.group_of m 6) in
  Ok (mkFont (<[enc := mkGlyph w h x_off y_off bitmap]> (glyphs self))
        (width self) (height self)).

(** [BDFFont._parse], from the text [path.read_text()] returned. *)
Definition _parse (self : BDFFont) (content : list ascii) : result BDFFont :=
  let* self :=
    match Re.search BOUNDINGBOX_RE content with
    | Some m =>
        let* width' := int (Re.group_of m 1) 10 in
        let* height' := int (Re.group_of m 2) 10 in
        Ok (mkFont (glyphs self) width' height')
    | None => Ok self
    end in
  for_each (Re.finditer GLYPH_RE content) parse_record self.

(** [BDFFont(path)]: [read_text] is what reading the path gives, the text or
    the exception of the failed read. *)
Definition BDFFont_init (read_text : result (list ascii)) : result BDFFont :=
  let* content := read_text in
  _parse (mkFont ∅ 4 8) content.

(** ** The glyph compositor *)

(** [enumerate(l)] *)
Definition enumerate {A} (l : list A) : list (Z * A) :=
  imap (fun i a => (Z.of_nat i, a)) l.

(** The first loop of [render]: [(max_ascent, max_descent)]. *)
Definition metrics (self : BDFFont) (text : list Z) : Z * Z :=
  fold_left
    (fun '(max_ascent, max_descent) ch =>
       match glyphs self !! ch with
       | Some g =>
           (Z.max max_ascent (g_h g + g_y_off g),
            Z.max max_descent (if g_y_off g <? 0 then - g_y_off g else 0))
       | None => (max_ascent, max_descent)
       end)
    text (0, 0).

(** [bitmap[y][px] = True] *)
Definition set_pixel (bitmap : list (list bool)) (y px : Z)
  : result (list (list bool)) :=
  let* row := getitem bitmap y in
  let* row' := setitem row px true in
  setitem bitmap y row'.

(** The loop over the pixels of one glyph row. *)
Definition draw_row (total_w y x0 : Z) (row : list bool)
  (bitmap : list (list bool)) : result (list (list bool)) :=
  for_each (enumerate row)
    (fun bitmap '(col_i, pixel) =>
       let px := x0 + col_i in
       if (pixel : bool) && ((0 <=? px) && (px <? total_w))
       then set_pixel bitmap y px
       else Ok bitmap)
    bitmap.

(** The loop over the rows of one glyph, drawn with its cell at [x]. *)
Definition draw_glyph (total_h total_w max_ascent x : Z) (g : Glyph)
  (bitmap : list (list bool)) : result (list (list bool)) :=
  let y_start := max_ascent - g_h g - g_y_off g in
  for_each (enumerate (g_bitmap g))
    (fun bitmap '(row_i, row) =>
       let y := y_start + row_i in
       if (0 <=? y) && (y <? total_h)
       then draw_row total_w y (x + g_x_off g) row bitmap
       else Ok bitmap)
    bitmap.

(** The second loop of [render], over the characters: it carries the canvas
    and the cursor [x]. *)
Definition draw_text (self : BDFFont) (total_h total_w max_ascent spacing : Z)
  (text : list Z) (start : list (list bool) * Z)
  : result (list (list bool) * Z) :=
  for_each text
    (fun '(bitmap, x) ch =>
       let* bitmap :=
         match glyphs self !! ch with
         | Some g => draw_glyph total_h total_w max_ascent x g bitmap
         | None => Ok bitmap
         end in
       Ok (bitmap, x + (width self + spacing)))
    start.

(** [BDFFont.render].  The rows of the fresh canvas are separate lists (one
    [[False] * total_w] per row), so a write changes one row only. *)
Definition render (self : BDFFont) (text : list Z) (spacing : Z)
  : result (list (list bool)) :=
  let '(max_ascent, max_descent) := metrics self text in
  let total_h := or_int (max_ascent + max_descent) (height self) in
  let total_w := len text * width self + Z.max 0 (len text - 1) * spacing in
  let bitmap := map (fun _ => repeat_list false total_w) (range total_h) in
  let* drawn :=
    draw_text self total_h total_w max_ascent spacing text (bitmap, 0) in
  Ok (fst drawn).

(** [bdf_text_to_braille] *)
Definition bdf_text_to_braille (text : list Z) (read_text : result (list ascii))
  (spacing : Z) : result (list Z) :=
  let* font := BDFFont_init read_text in
  let* bitmap := render font text spacing in
  _bitmap_to_braille bitmap.

(** ** The outline path: rendering through the imaging library

    The imaging library is outside the program.  Its calls are the nodes of
    the program tree: [Call c k] asks the library for [c] and goes on with
    its answer, a value or the exception the call raised. *)

Inductive pil_call : Type -> Type :=
| Truetype (font_path : list Z) (size : Z) : pil_call nat
| LoadDefault : pil_call nat
| ImageNew (mode : string) (w h color : Z) : pil_call nat
| DrawText (img : nat) (x y : Z) (char : Z) (font : nat) (fill : Z)
    : pil_call unit
| ImageWidth (img : nat) : pil_call Z
| ImageHeight (img : nat) : pil_call Z
| GetPixel (img : nat) (x y : Z) : pil_call Z.

Inductive prog (R : Type) : Type :=
| Ret (r : result R)
| Call {X : Type} (c : pil_call X) (k : result X -> prog R).
Arguments Ret {R} r.
Arguments Call {R X} c k.

Fixpoint pbind {A B} (m : prog A) (f : A -> prog B) : prog B :=
  match m with
  | Ret (Ok a) => f a
  | Ret (Raise e) => Ret (Raise e)
  | Call c k => Call c (fun x => pbind (k x) f)
  end.

(** A library call whose exception, if any, goes up to the caller. *)
Definition call {X} (c : pil_call X) : prog X := Call c Ret.

Notation "'do*' x ':=' m 'in' k" := (pbind m (fun x => k))
  (at level 10, x name, m at level 100, k at level 200).

Fixpoint pfor_each {A S} (xs : list A) (body : S -> A -> prog S) (s : S)
  : prog S :=
  match xs with
  | [] => Ret (Ok s)
  | x :: xs' => pbind (body s x) (pfor_each xs' body)
  end.

Fixpoint pcomprehension {A B} (f : A -> prog B) (xs : list A) : prog (list B) :=
  match xs with
  | [] => Ret (Ok [])
  | x :: xs' =>
      pbind (f x) (fun y =>
      pbind (pcomprehension f xs') (fun ys => Ret (Ok (y :: ys))))
  end.

(** An element of [char_size] used as a number. *)
Definition as_int (v : value) : result Z :=
  match v with
  | VInt z => Ok z
  | _ => Raise TypeError
  end.

(** [text_to_braille]; [font_size] is [None] or a number. *)
Definition text_to_braille (text : list Z) (font_path : list Z)
  (char_size : list value) (font_size : option Z) (threshold : Z)
  : prog (list Z) :=
  match text with
  | [] => Ret (Ok [])
  | _ :: _ =>
      match char_size with
      | [char_w; char_h] =>
          let largest :=
            let* w := as_int char_w in
            let* h := as_int char_h in
            Ok (Z.max w h) in
          do* font_size :=
            Ret (match font_size with
                 | Some size => if size =? 0 then largest else Ok size
                 | None => largest
                 end) in
          do* font :=
            Call (Truetype font_path font_size)
              (fun answer =>
                 match answer with
                 | Raise OSError => call LoadDefault
                 | _ => Ret answer
                 end) in
          do* char_w := Ret (as_int char_w) in
          do* char_h := Ret (as_int char_h) in
          do* img := call (ImageNew "L" (char_w * len text) char_h 255) in
          do* _ :=
            pfor_each (enumerate text)
              (fun _ '(i, char) =>
                 call (DrawText img (i * char_w) 0 char font 0))
              tt in
          do* img_height := call (ImageHeight img) in
          do* bitmap :=
            pcomprehension
              (fun y =>
                 do* img_width := call (ImageWidth img) in
                 pcomprehension
                   (fun x =>
                      do* p := call (GetPixel img x y) in
                      Ret (Ok (p <? threshold)))
                   (range img_width))
              (range img_height) in
          Ret (_bitmap_to_braille bitmap)
      | _ => Ret (Raise ValueError)
      end
  end.

(** ** Vocabulary of the specification *)

(** *** The encoder *)

(** The ceiling of [a / b], for a positive [b]. *)
Definition ceil_div (a b : Z) : Z := (a + b - 1) / b.

(** A canvas of height [H] and width [W]: [H] rows of [W] pixels each. *)
Definition canvas (bitmap : list (list bool)) (H W : Z) : Prop :=
  len bitmap = H /\ Forall (fun row => len row = W) bitmap.

(** The pixel at column [x] of row [y]; a position outside the canvas counts
    as not set. *)
Definition pixel_at (bitmap : list (list bool)) (y x : Z) : bool :=
  if (0 <=? y) && (0 <=? x)
  then match bitmap !! Z.to_nat y with
       | Some row => default false (row !! Z.to_nat x)
       | None => false
       end
  else false.

(** The dot map as the specification gives it: [(dx, dy) -> bit]. *)
Definition dot_bit (dx dy : Z) : Z :=
  match dx, dy with
  | 0, 0 => 0x01 | 0, 1 => 0x02 | 0, 2 => 0x04 | 0, 3 => 0x40
  | 1, 0 => 0x08 | 1, 1 => 0x10 | 1, 2 => 0x20 | 1, 3 => 0x80
  | _, _ => 0
  end.

(** The positions of a cell, 2 wide and 4 tall. *)
Definition cell_positions : list (Z * Z) :=
  [ (0, 0); (0, 1); (0, 2); (0, 3); (1, 0); (1, 1); (1, 2); (1, 3) ].

(** U+2800 plus the OR of the bits of the set pixels of the cell whose
    top-left pixel is [(x, y)]. *)
Definition cell_char (bitmap : list (list bool)) (y x : Z) : Z :=
  0x2800 +
  fold_right Z.lor 0
    (map (fun '(dx, dy) =>
            if pixel_at bitmap (y + dy) (x + dx) then dot_bit dx dy else 0)
       cell_positions).

(** The lines of the encoding of a canvas [H] high and [W] wide: one line
    per band of 4 rows, one character per cell. *)
Definition braille_lines (bitmap : list (list bool)) (H W : Z) : list (list Z) :=
  map (fun i =>
         map (fun j => cell_char bitmap (4 * Z.of_nat i) (2 * Z.of_nat j))
           (seq 0 (Z.to_nat (ceil_div W 2))))
    (seq 0 (Z.to_nat (ceil_div H 4))).

(** Two sample canvases of one cell: the top-left dot alone, and a partial
    cell 3 high and 1 wide with every pixel set. *)
Definition top_left_dot : list (list bool) :=
  [ [true; false]; [false; false]; [false; false]; [false; false] ].

Definition narrow_column : list (list bool) := [ [true]; [true]; [true] ].

(** *** Running a program against an imaging library

    A library answers every call from its state; [run] feeds the answers to
    the program and records the calls made, oldest first. *)

Record library (St : Type) := {
  respond : forall X, St -> pil_call X -> result X * St
}.
Arguments respond {St} _ {X} _ _.

Definition call_record : Type := { X : Type & pil_call X }.

Fixpoint run {St R} (lib : library St) (st : St) (p : prog R)
  : result R * St * list call_record :=
  match p with
  | Ret r => (r, st, [])
  | Call c k =>
      let '(answer, st') := respond lib st c in
      let '(r, st'', calls) := run lib st' (k answer) in
      (r, st'', existT _ c :: calls)
  end.

(** A library with no font at all: opening any font fails. *)
Definition no_fonts : library unit := {|
  respond := fun X st c =>
    match c in pil_call X return result X * unit with
    | Truetype _ _ => (Raise OSError, st)
    | LoadDefault => (Ok 0%nat, st)
    | ImageNew _ _ _ _ => (Ok 1%nat, st)
    | DrawText _ _ _ _ _ _ => (Ok tt, st)
    | ImageWidth _ => (Ok 0, st)
    | ImageHeight _ => (Ok 0, st)
    | GetPixel _ _ _ => (Ok 255, st)
    end
|}.

(** *** The compositor *)

(** Pixel [(r, c)] of the glyph of character [i] of the text is set, and
    with the glyph's origin at [origin i g] (row, column) it falls on
    [(y, x)]. *)
Definition inked (self : BDFFont) (text : list Z)
  (origin : nat -> Glyph -> Z * Z) (y x : Z) : Prop :=
  exists (i : nat) (ch : Z) (g : Glyph) (r c : nat) (row : list bool),
    text !! i = Some ch /\ glyphs self !! ch = Some g
    /\ g_bitmap g !! r = Some row /\ row !! c = Some true
    /\ y = fst (origin i g) + Z.of_nat r
    /\ x = snd (origin i g) + Z.of_nat c.

(** The glyphs the font has for the characters of the text, in order. *)
Definition present (self : BDFFont) (text : list Z) : list Glyph :=
  omap (fun ch => glyphs self !! ch) text.

(** The maximum of a list of numbers; 0 for the empty list. *)
Definition maximum (l : list Z) : Z :=
  match l with
  | [] => 0
  | x :: l' => fold_left Z.max l' x
  end.

(** The metrics in the words of the specification: the maximum of
    [h + yOff] over the present glyphs, and the maximum over them of
    [-yOff] where [yOff < 0], else 0. *)
Definition spec_max_ascent (self : BDFFont) (text : list Z) : Z :=
  maximum (map (fun g => g_h g + g_y_off g) (present self text)).

Definition spec_max_descent (self : BDFFont) (text : list Z) : Z :=
  maximum (map (fun g => if g_y_off g <? 0 then - g_y_off g else 0)
             (present self text)).

(** The canvas height for given metrics: their sum, or the default height
    of the font when both are zero. *)
Definition height_for (self : BDFFont) (max_ascent max_descent : Z) : Z :=
  if (max_ascent =? 0) && (max_descent =? 0) then height self
  else max_ascent + max_descent.

(** The canvas width of the code: one default width per character and one
    spacing between neighbours. *)
Definition canvas_width (self : BDFFont) (text : list Z) (spacing : Z) : Z :=
  len text * width self + Z.max 0 (len text - 1) * spacing.

(** The start of the cell of character [i]. *)
Definition cell_start (self : BDFFont) (spacing : Z) (i : nat) : Z :=
  Z.of_nat i * (width self + spacing).

(** A font source with one glyph, an underscore that lies wholly below the
    baseline, and the font it decodes to. *)
Definition underscore_bdf : list ascii := text_of
"STARTFONT 2.1
FONTBOUNDINGBOX 5 7 0 -2
CHARS 1
STARTCHAR underscore
ENCODING 95
SWIDTH 500 0
DWIDTH 5 0
BBX 5 1 0 -2
BITMAP
F8
ENDCHAR
ENDFONT
".

Definition underscore_font : BDFFont :=
  mkFont {[ 95 := mkGlyph 5 1 0 (-2) [[true; true; true; true; true]] ]} 5 7.

(** *** The decoder *)

(** A numeral as [\d+] captures it, and the number it denotes. *)
Definition numeral (s : list ascii) : Prop :=
  s <> [] /\ Forall (fun c => is_digit c = true) s.

Definition numeral_value (s : list ascii) : Z :=
  fold_left (fun acc c => acc * 10 + (code c - 48)) s 0.

(** A numeral with an optional minus sign, as [-?\d+] captures it. *)
Definition signed_numeral (s : list ascii) : Prop :=
  numeral s \/ exists s', s = "-"%char :: s' /\ numeral s'.

Definition signed_value (s : list ascii) : Z :=
  match s with
  | c :: s' => if Ascii.eqb c "-" then - numeral_value s' else numeral_value s
  | [] => 0
  end.


(** The lines of a bitmap block that hold a row (the lines that are not
    blank), trimmed. *)
Definition bitmap_lines (block : list ascii) : list (list ascii) :=
  filter (fun line => line <> []) (map strip (split LF (strip block))).


(** The glyph a matched record stands for, given its decoded bitmap. *)
Definition glyph_of (m : Re.match_object) (bitmap : list (list bool)) : Glyph :=
  mkGlyph (numeral_value (Re.group_of m 2)) (numeral_value (Re.group_of m 3))
    (signed_value (Re.group_of m 4)) (signed_value (Re.group_of m 5)) bitmap.

(** *** Sample font sources *)

(** A glyph 8 wide whose one row, [80], carries a trailing padding byte. *)
Definition padded_bdf : list ascii := text_of
"STARTFONT 2.1
FONTBOUNDINGBOX 8 1 0 0
STARTCHAR A
ENCODING 65
BBX 8 1 0 0
BITMAP
8000
ENDCHAR
ENDFONT
".

(** The same glyph with the row in one byte. *)
Definition unpadded_bdf : list ascii := text_of
"STARTFONT 2.1
FONTBOUNDINGBOX 8 1 0 0
STARTCHAR A
ENCODING 65
BBX 8 1 0 0
BITMAP
80
ENDCHAR
ENDFONT
".

(** A well-formed glyph 9 wide: two bytes per row. *)
Definition wide_bdf : list ascii := text_of
"STARTFONT 2.1
FONTBOUNDINGBOX 9 1 0 0
STARTCHAR A
ENCODING 65
BBX 9 1 0 0
BITMAP
FF80
ENDCHAR
ENDFONT
".

(** A glyph that declares 2 rows and gives 1. *)
Definition short_bitmap_bdf : list ascii := text_of
"STARTFONT 2.1
FONTBOUNDINGBOX 5 2 0 0
STARTCHAR A
ENCODING 65
BBX 5 2 0 0
BITMAP
F8
ENDCHAR
ENDFONT
".



(** *** Well-formed character records *)

(** [p] occurs somewhere in [s]. *)
Fixpoint occurs (p s : list ascii) : bool :=
  match Re.strip_prefix p s with
  | Some _ => true
  | None =>
      match s with
      | [] => false
      | _ :: s' => occurs p s'
      end
  end.

(** The character [c] occurs in [s]. *)
Definition has_char (c : ascii) (s : list ascii) : bool :=
  existsb (Ascii.eqb c) s.

(** [s] starts with a character of the class [p]. *)
Definition starts_with (p : ascii -> bool) (s : list ascii) : bool :=
  match s with
  | c :: _ => p c
  | [] => false
  end.

(** A character record of a font source, from its [ENCODING] line to its
    terminator: the numerals of the encoding and of the bounding box, the
    lines between the two, and the lines of the bitmap. *)
Record char_record := mkRecord {
  r_enc : list ascii;
  r_attrs : list ascii;
  r_w : list ascii;
  r_h : list ascii;
  r_x : list ascii;
  r_y : list ascii;
  r_block : list ascii
}.

Definition SP : ascii := " ".

Definition record_text (r : char_record) : list ascii :=
  text_of "ENCODING" ++ SP :: r_enc r ++ LF :: r_attrs r
  ++ text_of "BBX" ++ SP :: r_w r ++ SP :: r_h r ++ SP :: r_x r
  ++ SP :: r_y r ++ LF :: text_of "BITMAP" ++ LF :: r_block r
  ++ LF :: text_of "ENDCHAR".




(** Two well-formed records, and text to stand around them: a header with
    a record whose keyword is misspelt, a separator, and a last record cut
    off before its terminator. *)
Definition record_A : char_record :=
  mkRecord (text_of "65") (text_of "SWIDTH 500 0
DWIDTH 5 0
") (text_of "5") (text_of "1") (text_of "0") (text_of "0") (text_of "F8").

Definition record_B : char_record :=
  mkRecord (text_of "66") [] (text_of "5") (text_of "2") (text_of "1")
    (text_of "-1") (text_of "88
70").

Definition misspelt_header : list ascii := text_of
"STARTFONT 2.1
FONTBOUNDINGBOX 5 2 0 0
STARTCHAR bad
ENCODNG 64
BBX 5 1 0 0
BITMAP
F8
ENDCHAR
STARTCHAR A
".

Definition separator : list ascii := text_of "
STARTCHAR B
".

Definition cut_off_record : list ascii := text_of "
STARTCHAR C
ENCODING 67
BBX 5 1 0 0
BITMAP
70
".

(** *** Sources of any number of records *)

(** The default size a source declares: the numbers of its first
    bounding-box declaration, or [(4, 8)] without one. *)
Definition declared_box (content : list ascii) : Z * Z :=
  match Re.search BOUNDINGBOX_RE content with
  | Some m =>
      (numeral_value (Re.group_of m 1), numeral_value (Re.group_of m 2))
  | None => (4, 8)
  end.







(** A source without a bounding-box declaration. *)
Definition boxless_bdf : list ascii := text_of
"STARTCHAR A
ENCODING 65
BBX 5 1 0 0
BITMAP
F8
ENDCHAR
".


(** *** An imaging library that holds a raster

    Its state is the size of the image made last; every pixel read gives
    the value of the raster [px] at that place, whatever was drawn. *)
Definition raster_lib (px : Z -> Z -> Z) : library (Z * Z) := {|
  respond := fun X st c =>
    match c in pil_call X return result X * (Z * Z) with
    | Truetype _ _ => (Ok 0%nat, st)
    | LoadDefault => (Ok 0%nat, st)
    | ImageNew _ w h _ => (Ok 0%nat, (w, h))
    | DrawText _ _ _ _ _ _ => (Ok tt, st)
    | ImageWidth _ => (Ok (fst st), st)
    | ImageHeight _ => (Ok (snd st), st)
    | GetPixel _ x y => (Ok (px x y), st)
    end
|}.

(** The point size [text_to_braille] asks the font in. *)
Definition requested_size (char_w char_h : Z) (font_size : option Z) : Z :=
  match font_size with
  | Some size => if size =? 0 then Z.max char_w char_h else size
  | None => Z.max char_w char_h
  end.

(** ** The preset listing *)

(** The entries of [PRESETS] in the order the source writes them, the
    order [PRESETS.items()] gives them in. *)
Definition PRESETS_items : list ((Z * Z) * list value) :=
  [ ((4, 2), [VInt 8; VInt 8; VStr "8x8 - tiny"]);
    ((4, 4), [VInt 8; VInt 16; VStr "8x16 - compact"]);
    ((8, 4), [VInt 16; VInt 16; VStr "16x16 - standard"]);
    ((8, 6), [VInt 16; VInt 24; VStr "16x24 - tall"]);
    ((12, 6), [VInt 24; VInt 24; VStr "24x24 - large"]);
    ((16, 8), [VInt 32; VInt 32; VStr "32x32 - extra large"]) ].

(** [list_presets]: [{k: v[2] for k, v in PRESETS.items()}], the keys with
    their descriptions, in the order of the table. *)
Definition list_presets : result (list ((Z * Z) * value)) :=
  comprehension
    (fun '(k, v) => let* description := getitem v 2 in Ok (k, description))
    PRESETS_items.

(** ** The command line

    [main] from the parsed arguments on.  The font path and the size are
    text of the Latin-1 range, as a font source is; the words of the text
    to render are code points.  What [main] writes is the list of its
    effects; an exception that nothing catches ends it and is its result.
    Writing to the terminal is taken to succeed. *)

Module cli.

Inductive effect :=
| Print (s : list Z)
| PrintErr (s : list Z)
| PrintHelp.

(** How [main] ends: it returns, or [sys.exit(status)] ends the program. *)
Inductive ending :=
| Return
| Exit (status : Z).

(** The code points of a text. *)
Definition codes (s : list ascii) : list Z := map code s.

(** [str.lower] on one character: the capital letters of the range are
    [A]..[Z] and U+00C0..U+00DE without the multiplication sign. *)
Definition lower_char (c : ascii) : ascii :=
  let n := code c in
  if ((65 <=? n) && (n <=? 90))
     || ((0xC0 <=? n) && (n <=? 0xDE) && negb (n =? 0xD7))
  then ascii_of_N (Z.to_N (n + 32))
  else c.

(** [s.lower()] *)
Definition lower (s : list ascii) : list ascii := map lower_char s.

(** [s.startswith(prefix)] *)
Fixpoint startswith (s prefix : list ascii) : bool :=
  match prefix, s with
  | [], _ => true
  | p :: prefix', c :: s' => Ascii.eqb c p && startswith s' prefix'
  | _ :: _, [] => false
  end.

(** [s.endswith(suffix)] *)
Definition endswith (s suffix : list ascii) : bool :=
  startswith (rev s) (rev suffix).

(** [str(n)] for an integer. *)
Definition str_int (n : Z) : list ascii :=
  text_of (NilZero.string_of_int (Z.to_int n)).

(** A value of the preset table inside an f-string. *)
Definition str_value (v : value) : list ascii :=
  match v with
  | VInt n => str_int n
  | VStr s => text_of s
  | VNone => text_of "None"
  end.

(** The line of one preset: [f"  {bw}x{bh} -> {pw}x{ph} pixels: {desc}"]
    with [pw, ph = bw * 2, bh * 4]. *)
Definition preset_line (entry : (Z * Z) * value) : list Z :=
  let '((bw, bh), desc) := entry in
  let pw := bw * 2 in
  let ph := bh * 4 in
  codes (text_of "  " ++ str_int bw ++ text_of "x" ++ str_int bh
         ++ text_of " -> " ++ str_int pw ++ text_of "x" ++ str_int ph
         ++ text_of " pixels: " ++ str_value desc).

(** The mode [--list-presets]: the heading, then one line per preset. *)
Definition presets_report : result (list effect) :=
  let heading :=
    Print (codes (text_of "Available presets (braille WxH -> pixel WxH):")) in
  let* presets := list_presets in
  Ok (heading :: map (fun entry => Print (preset_line entry)) presets).

(** [w, h = size.lower().split('x')] and [int(w), int(h)]: unpacking
    anything but two pieces raises [ValueError]. *)
Definition parse_size (size : list ascii) : result (Z * Z) :=
  match split "x" (lower size) with
  | [w; h] =>
      let* braille_w := int w 10 in
      let* braille_h := int h 10 in
      Ok (braille_w, braille_h)
  | _ => Raise ValueError
  end.

(** [f"Invalid size format: {size}. Use WxH (e.g., 8x4)"] *)
Definition invalid_size (size : list ascii) : list Z :=
  codes (text_of "Invalid size format: " ++ size
         ++ text_of ". Use WxH (e.g., 8x4)").

(** The parsed arguments: [font] and [size] are [None] when not given,
    [text] holds the words after the font. *)
Record Namespace := mkArgs {
  font : option (list ascii);
  text : list (list Z);
  size : option (list ascii);
  font_size : option Z;
  threshold : Z;
  spacing : Z;
  list_presets : bool
}.

(** [' '.join(args.text) if args.text else "Hello"] *)
Definition message (args : Namespace) : list Z :=
  match text args with
  | [] => codes (text_of "Hello")
  | _ :: _ => join [32] (text args)
  end.

(** [main]; [read_text path] is what reading the file at [path] gives. *)
Definition main (args : Namespace)
  (read_text : list ascii -> result (list ascii))
  : prog (list effect * ending) :=
  if list_presets args
  then Ret (let* report := presets_report in Ok (report, Return))
  else
    match font args with
    | None | Some [] => Ret (Ok ([PrintHelp], Exit 1))
    | Some ((_ :: _) as path) =>
        let text := message args in
        if endswith (lower path) (text_of ".bdf")
        then
          Ret (let* output :=
                 bdf_text_to_braille text (read_text path) (spacing args) in
               Ok ([Print output], Return))
        else
          let render char_size :=
            do* output :=
              text_to_braille text (codes path) char_size (font_size args)
                (threshold args) in
            Ret (Ok ([Print output], Return)) in
          match size args with
          | Some ((_ :: _) as size) =>
              match parse_size size with
              | Ok (braille_w, braille_h) =>
                  render (get_preset braille_w braille_h)
              | Raise ValueError =>
                  Ret (Ok ([PrintErr (invalid_size size)], Exit 1))
              | Raise e => Ret (Raise e)
              end
          | _ => render [VInt 16; VInt 16]
          end
    end.

End cli.

(** A request for the outline path: no listing, and a font path that is
    not empty and does not end in [.bdf] in any mix of cases. *)
Definition outline_request (args : cli.Namespace) (path : list ascii) : Prop :=
  cli.list_presets args = false
  /\ cli.font args = Some path
  /\ path <> []
  /\ cli.endswith (cli.lower path) (text_of ".bdf") = false.


(** The digits a decimal numeral may have before [int] refuses it, as the
    interpreter sets the limit by default. *)
Definition int_max_str_digits : Z := 4300.

(** A size as the command line takes it: two numerals, each within the
    digit limit, around one [x] or [X]. *)
Definition size_text (w_text : list ascii) (x : ascii) (h_text : list ascii)
  (size : list ascii) : Prop :=
  size = w_text ++ x :: h_text
  /\ (x = "x"%char \/ x = "X"%char)
  /\ numeral w_text /\ len w_text <= int_max_str_digits
  /\ numeral h_text /\ len h_text <= int_max_str_digits.

(** The canvas of a raster [px], [W] wide and [H] high: a pixel is set
    where the raster is strictly below the threshold. *)
Definition thresholded (px : Z -> Z -> Z) (threshold W H : Z)
  : list (list bool) :=
  map (fun y => map (fun x => px x y <? threshold) (range W)) (range H).

(** A code of the braille block U+2800..U+28FF: what is above its low
    byte is [0x28]. *)
Definition in_block (code : Z) : Prop := Z.shiftr code 8 = 0x28.

(** * Properties *)

(** ** The runtime *)

Section Runtime.

Context {A B : Type}.

Lemma comprehension_ok (f : A -> result B) (g : A -> B) (xs : list A) :
  (forall x, In x xs -> f x = Ok (g x)) ->
  comprehension f xs = Ok (map g xs).
Proof.
  induction xs as [|x xs IH]; intros Hf; simpl; [reflexivity|].
  rewrite (Hf x) by (left; reflexivity). simpl.
  rewrite IH by (intros; apply Hf; right; assumption).
  reflexivity.
Qed.

Lemma getitem_lookup (l : list A) (i : Z) (a : A) :
  0 <= i -> l !! Z.to_nat i = Some a -> getitem l i = Ok a.
Proof.
  intros Hi Hl. unfold getitem, len.
  apply lookup_lt_Some in Hl as Hlt.
  replace (i <? 0) with false by lia.
  replace ((0 <=? i) && (i <? Z.of_nat (length l)))%bool with true by lia.
  rewrite Hl. reflexivity.
Qed.

Lemma setitem_insert (l : list A) (i : Z) (v : A) :
  0 <= i < len l -> setitem l i v = Ok (<[Z.to_nat i := v]> l).
Proof.
  intros Hi. unfold setitem, len in *.
  replace (i <? 0) with false by lia.
  replace ((0 <=? i) && (i <? Z.of_nat (length l)))%bool with true by lia.
  reflexivity.
Qed.

End Runtime.

Lemma ceil_div_spec a b :
  0 < b -> b * (ceil_div a b - 1) < a <= b * ceil_div a b.
Proof.
  intros Hb. unfold ceil_div.
  pose proof (Z.div_mod (a + b - 1) b ltac:(lia)).
  pose proof (Z.mod_pos_bound (a + b - 1) b Hb).
  lia.
Qed.

Lemma ceil_div_step a b :
  0 < b -> 0 < a -> ceil_div a b = 1 + ceil_div (a - b) b.
Proof.
  intros Hb Ha. unfold ceil_div.
  replace (a + b - 1) with (a - b + b - 1 + 1 * b) by lia.
  rewrite Z.div_add by lia. lia.
Qed.

Lemma ceil_div_nonpos a b : 0 < b -> a <= 0 -> ceil_div a b <= 0.
Proof.
  intros Hb Ha. unfold ceil_div.
  assert ((a + b - 1) / b < 1); [|lia].
  apply Z.div_lt_upper_bound; lia.
Qed.

(** [range] has enough fuel: it lists every multiple of the step below the
    bound. *)
Lemma range_from_spec fuel start stop step :
  0 < step -> stop - start <= Z.of_nat fuel ->
  range_from fuel start stop step =
  map (fun k => start + step * Z.of_nat k)
      (seq 0 (Z.to_nat (ceil_div (stop - start) step))).
Proof.
  intros Hstep. revert start.
  induction fuel as [|fuel IH]; intros start Hfuel; simpl.
  - pose proof (ceil_div_nonpos (stop - start) step Hstep ltac:(lia)).
    replace (Z.to_nat _) with O by lia. reflexivity.
  - destruct (Z.ltb_spec start stop) as [Hlt|Hge].
    + rewrite IH by lia.
      rewrite (ceil_div_step (stop - start) step) by lia.
      replace (stop - (start + step)) with (stop - start - step) by lia.
      pose proof (ceil_div_spec (stop - start - step) step Hstep).
      assert (0 <= ceil_div (stop - start - step) step) by nia.
      rewrite Z2Nat.inj_add by lia.
      change (Z.to_nat 1) with 1%nat. simpl.
      f_equal; [lia|].
      rewrite <- seq_shift, map_map.
      apply map_ext. intros k. lia.
    + pose proof (ceil_div_nonpos (stop - start) step Hstep ltac:(lia)).
      replace (Z.to_nat _) with O by lia. reflexivity.
Qed.

Lemma range3_spec stop step :
  0 < step ->
  range3 0 stop step =
  map (fun k => step * Z.of_nat k) (seq 0 (Z.to_nat (ceil_div stop step))).
Proof.
  intros Hstep. unfold range3.
  rewrite range_from_spec by lia.
  rewrite Z.sub_0_r. apply map_ext. intros; lia.
Qed.

Lemma range_spec n : range n = map Z.of_nat (seq 0 (Z.to_nat n)).
Proof.
  unfold range. rewrite range3_spec by lia.
  unfold ceil_div. replace (n + 1 - 1) with n by lia. rewrite Z.div_1_r.
  apply map_ext. intros; lia.
Qed.

(** ** The braille encoder *)

Section Encoder.

Variables (bitmap : list (list bool)) (H W : Z).
Hypothesis Hcanvas : canvas bitmap H W.

Lemma canvas_row y row :
  bitmap !! y = Some row -> len row = W.
Proof.
  intros Hrow. destruct Hcanvas as [_ Hall].
  rewrite Forall_forall in Hall. apply Hall.
  apply list_elem_of_lookup. eauto.
Qed.

(** One pass of the loop over the dots: inside the canvas the pixel is
    read, outside nothing is read and the dot stays clear. *)
Lemma dot_step code bit y x :
  0 <= y -> 0 <= x ->
  (if (y <? H) && (x <? W)
   then let* row := getitem bitmap y in
        let* pixel := getitem row x in
        Ok (if pixel : bool then Z.lor code bit else code)
   else Ok code)
  = Ok (if pixel_at bitmap y x then Z.lor code bit else code).
Proof.
  intros Hy Hx. unfold pixel_at.
  replace ((0 <=? y) && (0 <=? x))%bool with true by lia.
  destruct Hcanvas as [Hlen _]. unfold len in Hlen.
  destruct (bitmap !! Z.to_nat y) as [row|] eqn:Hrow.
  - apply lookup_lt_Some in Hrow as Hlt.
    pose proof (canvas_row _ _ Hrow) as Hw. unfold len in Hw.
    replace (y <? H) with true by lia. simpl.
    destruct (row !! Z.to_nat x) as [p|] eqn:Hp.
    + apply lookup_lt_Some in Hp as Hltx.
      replace (x <? W) with true by lia.
      rewrite (getitem_lookup _ _ _ Hy Hrow). simpl.
      rewrite (getitem_lookup _ _ _ Hx Hp). reflexivity.
    + apply lookup_ge_None in Hp.
      replace (x <? W) with false by lia. reflexivity.
  - apply lookup_ge_None in Hrow.
    replace (y <? H) with false by lia. reflexivity.
Qed.

(** The loop over the dots computes the character of the cell. *)
Lemma cell_code_spec y x :
  0 <= y -> 0 <= x -> cell_code bitmap H W y x = Ok (cell_char bitmap y x).
Proof.
  intros Hy Hx. unfold cell_code, BRAILLE_DOTS, for_each.
  repeat (rewrite dot_step by lia; unfold bind at 1).
  unfold cell_char, cell_positions, BRAILLE_BASE. simpl map.
  f_equal.
  destruct (pixel_at bitmap (y + 0) (x + 0)),
    (pixel_at bitmap (y + 1) (x + 0)), (pixel_at bitmap (y + 2) (x + 0)),
    (pixel_at bitmap (y + 3) (x + 0)), (pixel_at bitmap (y + 0) (x + 1)),
    (pixel_at bitmap (y + 1) (x + 1)), (pixel_at bitmap (y + 2) (x + 1)),
    (pixel_at bitmap (y + 3) (x + 1)); reflexivity.
Qed.

Lemma cell_char_range y x : 0x2800 <= cell_char bitmap y x <= 0x28FF.
Proof.
  unfold cell_char, cell_positions. simpl map.
  destruct (pixel_at bitmap (y + 0) (x + 0)),
    (pixel_at bitmap (y + 1) (x + 0)), (pixel_at bitmap (y + 2) (x + 0)),
    (pixel_at bitmap (y + 3) (x + 0)), (pixel_at bitmap (y + 0) (x + 1)),
    (pixel_at bitmap (y + 1) (x + 1)), (pixel_at bitmap (y + 2) (x + 1)),
    (pixel_at bitmap (y + 3) (x + 1)); vm_compute; split; discriminate.
Qed.

(** One row band of the output. *)
Lemma braille_line_spec y :
  0 <= y ->
  braille_line bitmap H W y =
  Ok (map (fun j => cell_char bitmap y (2 * Z.of_nat j))
        (seq 0 (Z.to_nat (ceil_div W 2)))).
Proof.
  intros Hy. unfold braille_line.
  rewrite range3_spec by lia.
  rewrite (comprehension_ok _ (cell_char bitmap y)).
  - rewrite map_map. reflexivity.
  - intros x Hin. apply in_map_iff in Hin as (k & <- & _).
    rewrite cell_code_spec by lia. simpl.
    pose proof (cell_char_range y (2 * Z.of_nat k)).
    unfold chr.
    replace (_ && _)%bool with true by lia. reflexivity.
Qed.

End Encoder.

Lemma join_cons {A} (sep p : list A) (rest : list (list A)) :
  rest <> [] -> join sep (p :: rest) = p ++ sep ++ join sep rest.
Proof. destruct rest; [congruence | reflexivity]. Qed.

(** In lines of equal length [c] joined by one separator, character [j] of
    line [i] sits at offset [i * (c + 1) + j]. *)
Lemma join_lookup {A} (sep : A) (c : nat) (lines : list (list A)) :
  Forall (fun l => length l = c) lines ->
  forall (i j : nat) (l : list A) (x : A),
    lines !! i = Some l -> l !! j = Some x ->
    join [sep] lines !! (i * (c + 1) + j)%nat = Some x.
Proof.
  induction 1 as [|p rest Hp Hrest IH]; intros i j l x Hl Hx; [done|].
  destruct i as [|i]; simpl in Hl.
  - injection Hl as ->. simpl Nat.mul. simpl Nat.add.
    destruct rest as [|q rest]; [exact Hx|].
    rewrite join_cons by discriminate.
    rewrite lookup_app_l; [exact Hx | eapply lookup_lt_Some; eassumption].
  - destruct rest as [|q rest]; [done|].
    rewrite join_cons by discriminate.
    rewrite lookup_app_r by lia.
    replace (S i * (c + 1) + j - length p)%nat with (S (i * (c + 1) + j)) by lia.
    simpl. eapply IH; eassumption.
Qed.

Lemma join_length {A} (sep : A) (c : nat) (lines : list (list A)) :
  Forall (fun l => length l = c) lines ->
  length (join [sep] lines) = (length lines * (c + 1) - 1)%nat.
Proof.
  induction 1 as [|p rest Hp Hrest IH]; [reflexivity|].
  destruct rest as [|q rest].
  - simpl. lia.
  - rewrite join_cons by discriminate.
    rewrite !length_app, IH. simpl. lia.
Qed.

Section EncoderOutput.

Variables (bitmap : list (list bool)) (H W : Z).
Hypothesis Hcanvas : canvas bitmap H W.
Hypothesis HH : 0 < H.
Hypothesis HW : 0 < W.

(** On a canvas that is not degenerate the encoder never fails, and its
    output is the lines of cell characters joined by line breaks. *)
Lemma bitmap_to_braille_lines :
  _bitmap_to_braille bitmap = Ok (join [newline] (braille_lines bitmap H W)).
Proof.
  destruct Hcanvas as [Hlen Hall].
  destruct bitmap as [|row0 rest] eqn:Hb; [unfold len in Hlen; simpl in Hlen; lia|].
  apply Forall_cons in Hall as Hrow0. destruct Hrow0 as [Hrow0 _].
  destruct row0 as [|p row0]; [unfold len in Hrow0; simpl in Hrow0; lia|].
  unfold _bitmap_to_braille. rewrite <- Hb in *. rewrite Hlen, Hrow0.
  rewrite range3_spec by lia.
  rewrite (comprehension_ok _
             (fun y => map (fun j => cell_char bitmap y (2 * Z.of_nat j))
                         (seq 0 (Z.to_nat (ceil_div W 2))))).
  - simpl. rewrite map_map. reflexivity.
  - intros y Hin. apply in_map_iff in Hin as (k & <- & _).
    apply braille_line_spec; [split; assumption | lia].
Qed.

Lemma braille_lines_length :
  length (braille_lines bitmap H W) = Z.to_nat (ceil_div H 4).
Proof. unfold braille_lines. rewrite length_map, length_seq. reflexivity. Qed.

Lemma braille_lines_width :
  Forall (fun l => length l = Z.to_nat (ceil_div W 2)) (braille_lines bitmap H W).
Proof.
  unfold braille_lines. apply Forall_forall. intros l Hin.
  apply list_elem_of_In, in_map_iff in Hin as (i & <- & _).
  rewrite length_map, length_seq. reflexivity.
Qed.

Lemma braille_lines_lookup (i j : nat) :
  (i < Z.to_nat (ceil_div H 4))%nat -> (j < Z.to_nat (ceil_div W 2))%nat ->
  exists l, braille_lines bitmap H W !! i = Some l
    /\ l !! j = Some (cell_char bitmap (4 * Z.of_nat i) (2 * Z.of_nat j)).
Proof.
  intros Hi Hj. unfold braille_lines. eexists. split.
  - rewrite list_lookup_fmap, lookup_seq_lt by assumption. reflexivity.
  - rewrite list_lookup_fmap, lookup_seq_lt by assumption. reflexivity.
Qed.

(** Where the character of cell [(i, j)] sits in the output. *)
Lemma braille_char_at (i j : Z) :
  0 <= i < ceil_div H 4 -> 0 <= j < ceil_div W 2 ->
  join [newline] (braille_lines bitmap H W)
    !! Z.to_nat (i * (ceil_div W 2 + 1) + j)
  = Some (cell_char bitmap (4 * i) (2 * j)).
Proof.
  intros Hi Hj.
  destruct (braille_lines_lookup (Z.to_nat i) (Z.to_nat j)) as (l & Hl & Hx);
    [lia | lia |].
  rewrite !Z2Nat.id in Hx by lia.
  rewrite <- (join_lookup newline _ _ braille_lines_width _ _ _ _ Hl Hx).
  f_equal. nia.
Qed.

End EncoderOutput.

Ltac pixel_true Hp :=
  match goal with
  | |- context [pixel_at ?b ?y ?x] =>
      let E := fresh in
      assert (E : pixel_at b y x = true) by (apply Hp; simpl; tauto || lia);
      rewrite E; clear E
  end.

Ltac pixel_false Hp :=
  match goal with
  | |- context [pixel_at ?b ?y ?x] =>
      let E := fresh in
      let E' := fresh in
      assert (E : pixel_at b y x = false)
        by (apply not_true_is_false; intros E'; apply Hp in E'; lia);
      rewrite E; clear E
  end.

Lemma cell_char_top_left bitmap :
  (forall y x, pixel_at bitmap y x = true <-> y = 0 /\ x = 0) ->
  cell_char bitmap 0 0 = 0x2801.
Proof.
  intros Hp. unfold cell_char, cell_positions. simpl map.
  pixel_true Hp. repeat pixel_false Hp. reflexivity.
Qed.

Lemma cell_char_full bitmap y x :
  (forall dx dy, In (dx, dy) cell_positions ->
                 pixel_at bitmap (y + dy) (x + dx) = true) ->
  cell_char bitmap y x = 0x28FF.
Proof.
  intros Hp. unfold cell_char. unfold cell_positions at 1. simpl map.
  rewrite !Hp by (simpl; tauto). reflexivity.
Qed.

Lemma single_cell_lines bitmap H W :
  0 < H <= 4 -> 0 < W <= 2 ->
  braille_lines bitmap H W = [[cell_char bitmap 0 0]].
Proof.
  intros HH HW. unfold braille_lines.
  assert (ceil_div H 4 = 1) as ->.
  { pose proof (ceil_div_spec H 4 ltac:(lia)). lia. }
  assert (ceil_div W 2 = 1) as ->.
  { pose proof (ceil_div_spec W 2 ltac:(lia)). lia. }
  reflexivity.
Qed.

(** C1: on a canvas the encoder gives, for every cell, the character whose
    code point is U+2800 plus the OR of the dot-map bits of the set pixels
    of that cell; the character of cell [(i, j)] is character [j] of line
    [i] of the output.  In particular a canvas whose only set pixel is
    [(0, 0)] starts with U+2801 (and is U+2801 alone when it is one cell),
    and a cell with its 8 positions set is U+28FF. *)
Theorem encoder_cell_codepoint (bitmap : list (list bool)) (H W : Z) :
  canvas bitmap H W -> 0 < H -> 0 < W ->
  exists out,
    _bitmap_to_braille bitmap = Ok out
    /\ (forall i j, 0 <= i < ceil_div H 4 -> 0 <= j < ceil_div W 2 ->
          out !! Z.to_nat (i * (ceil_div W 2 + 1) + j)
          = Some (cell_char bitmap (4 * i) (2 * j)))
    /\ ((forall y x, pixel_at bitmap y x = true <-> y = 0 /\ x = 0) ->
          out !! 0%nat = Some 0x2801
          /\ (H <= 4 -> W <= 2 -> out = [0x2801]))
    /\ (forall i j, 0 <= i < ceil_div H 4 -> 0 <= j < ceil_div W 2 ->
          (forall dx dy, In (dx, dy) cell_positions ->
                         pixel_at bitmap (4 * i + dy) (2 * j + dx) = true) ->
          out !! Z.to_nat (i * (ceil_div W 2 + 1) + j) = Some 0x28FF
          /\ (H <= 4 -> W <= 2 -> out = [0x28FF])).
Proof.
  intros Hc HH HW. eexists. split; [apply bitmap_to_braille_lines; eassumption|].
  pose proof (ceil_div_spec H 4 ltac:(lia)) as HcH.
  pose proof (ceil_div_spec W 2 ltac:(lia)) as HcW.
  split; [|split].
  - intros i j Hi Hj. apply braille_char_at; assumption.
  - intros Hp. split.
    + rewrite <- (cell_char_top_left bitmap Hp).
      replace 0%nat with (Z.to_nat (0 * (ceil_div W 2 + 1) + 0)) by lia.
      change (cell_char bitmap 0 0) with (cell_char bitmap (4 * 0) (2 * 0)).
      apply braille_char_at; lia.
    + intros H4 W2. rewrite single_cell_lines by lia.
      simpl. rewrite cell_char_top_left by assumption. reflexivity.
  - intros i j Hi Hj Hp. split.
    + rewrite <- (cell_char_full bitmap (4 * i) (2 * j) Hp).
      apply braille_char_at; assumption.
    + intros H4 W2. rewrite single_cell_lines by lia.
      assert (i = 0) as -> by lia. assert (j = 0) as -> by lia.
      simpl. f_equal.
      apply (cell_char_full bitmap (4 * 0) (2 * 0) Hp).
Qed.

Lemma pixel_at_outside bitmap H W y x :
  canvas bitmap H W -> H <= y \/ W <= x -> pixel_at bitmap y x = false.
Proof.
  intros Hc Hout. unfold pixel_at.
  destruct ((0 <=? y) && (0 <=? x))%bool eqn:Hpos; [|reflexivity].
  destruct (bitmap !! Z.to_nat y) as [row|] eqn:Hrow; [|reflexivity].
  pose proof (canvas_row _ _ _ Hc _ _ Hrow) as Hw.
  apply lookup_lt_Some in Hrow. destruct Hc as [Hlen _].
  unfold len in *.
  destruct Hout as [Hy|Hx]; [lia|].
  rewrite (proj2 (lookup_ge_None row (Z.to_nat x))) by lia. reflexivity.
Qed.

(** C9: the output for a canvas [H] high and [W] wide is [ceil (H / 4)]
    lines of [ceil (W / 2)] characters each, joined by single line breaks
    and holding no other line break; character [j] of line [i] is the
    character of cell [(i, j)], in which positions beyond the canvas edge
    count as not set.  A degenerate canvas (no rows, or an empty first row)
    gives the empty string. *)
Theorem encoder_output_shape (bitmap : list (list bool)) :
  (forall H W, canvas bitmap H W -> 0 < H -> 0 < W ->
     exists lines,
       _bitmap_to_braille bitmap = Ok (join [newline] lines)
       /\ len lines = ceil_div H 4
       /\ Forall (fun l => len l = ceil_div W 2) lines
       /\ Forall (Forall (fun c => c <> newline)) lines
       /\ (forall i j, 0 <= i < ceil_div H 4 -> 0 <= j < ceil_div W 2 ->
             exists l, lines !! Z.to_nat i = Some l
                /\ l !! Z.to_nat j = Some (cell_char bitmap (4 * i) (2 * j)))
       /\ (forall y x, H <= y \/ W <= x -> pixel_at bitmap y x = false))
  /\ (bitmap = [] \/ (exists rest, bitmap = [] :: rest) ->
      _bitmap_to_braille bitmap = Ok []).
Proof.
  split.
  - intros H W Hc HH HW.
    pose proof (ceil_div_spec H 4 ltac:(lia)) as HcH.
    pose proof (ceil_div_spec W 2 ltac:(lia)) as HcW.
    exists (braille_lines bitmap H W).
    split; [apply bitmap_to_braille_lines; assumption|].
    split; [unfold len; rewrite braille_lines_length; lia|].
    split.
    { eapply Forall_impl; [apply braille_lines_width|].
      intros l Hl. unfold len. simpl in Hl. rewrite Hl. lia. }
    split.
    { unfold braille_lines. apply Forall_forall. intros l Hin.
      apply list_elem_of_In, in_map_iff in Hin as (i & <- & _).
      apply Forall_forall. intros c Hin.
      apply list_elem_of_In, in_map_iff in Hin as (j & <- & _).
      pose proof (cell_char_range bitmap (4 * Z.of_nat i) (2 * Z.of_nat j)).
      unfold newline. lia. }
    split.
    { intros i j Hi Hj.
      destruct (braille_lines_lookup bitmap H W (Z.to_nat i) (Z.to_nat j))
        as (l & Hl & Hx); [lia | lia |].
      rewrite !Z2Nat.id in Hx by lia. eauto. }
    intros y x. apply pixel_at_outside. assumption.
  - intros [-> | [rest ->]]; reflexivity.
Qed.

Lemma encoder_cell_codepoint_witness :
  canvas top_left_dot 4 2
  /\ exists out, _bitmap_to_braille top_left_dot = Ok out
                 /\ out !! 0%nat = Some (cell_char top_left_dot 0 0).
Proof.
  assert (Hc : canvas top_left_dot 4 2)
    by (split; [reflexivity | repeat constructor]).
  split; [exact Hc|].
  destruct (encoder_cell_codepoint top_left_dot 4 2 Hc ltac:(lia) ltac:(lia))
    as (out & Hout & Hcell & _).
  exists out. split; [exact Hout|].
  apply (Hcell 0 0); vm_compute; split; congruence.
Defined.

Lemma encoder_output_shape_witness :
  canvas narrow_column 3 1
  /\ exists lines, _bitmap_to_braille narrow_column = Ok (join [newline] lines)
                   /\ len lines = ceil_div 3 4.
Proof.
  assert (Hc : canvas narrow_column 3 1)
    by (split; [reflexivity | repeat constructor]).
  split; [exact Hc|].
  destruct (proj1 (encoder_output_shape narrow_column) 3 1 Hc
              ltac:(lia) ltac:(lia))
    as (lines & Hout & Hlen & _).
  exists lines. split; assumption.
Defined.

Example encode_top_left_dot : _bitmap_to_braille top_left_dot = Ok [0x2801].
Proof. reflexivity. Qed.

Example encode_narrow_column : _bitmap_to_braille narrow_column = Ok [0x2807].
Proof. reflexivity. Qed.

(** ** Size presets *)

(** A pair of the table gives its pixel size. *)
Lemma get_preset_listed (w h : Z) (entry : list value) :
  PRESETS !! (w, h) = Some entry -> get_preset w h = take 2 entry.
Proof.
  intros Hin. unfold get_preset. rewrite Hin. simpl.
  assert (Hl : entry ∈ (map snd (map_to_list PRESETS))).
  { apply list_elem_of_In, in_map_iff. exists ((w, h), entry).
    split; [reflexivity|]. apply list_elem_of_In, elem_of_map_to_list, Hin. }
  vm_compute in Hl.
  repeat (apply elem_of_cons in Hl as [-> | Hl]; [reflexivity|]).
  inversion Hl.
Qed.

(** A pair that is not in the table gives the one-element tuple [(None,)]:
    the default of the lookup is not empty, so the [or] keeps it. *)
Lemma get_preset_unlisted (w h : Z) :
  PRESETS !! (w, h) = None -> get_preset w h = [VNone].
Proof. intros Hout. unfold get_preset. rewrite Hout. reflexivity. Qed.

(** C3 (what the code does at the inputs of the claim): the listed pair
    [(8, 4)] gives [(16, 16)]; the pair [(5, 3)], which is not listed, gives
    [(None,)] and not [(10, 12)]. *)
Theorem get_preset_at_5_3 :
  get_preset 8 4 = [VInt 16; VInt 16]
  /\ PRESETS !! (5, 3) = None
  /\ get_preset 5 3 = [VNone]
  /\ get_preset 5 3 <> [VInt 10; VInt 12].
Proof.
  assert (Hout : PRESETS !! (5, 3) = None) by (vm_compute; reflexivity).
  split; [vm_compute; reflexivity|].
  split; [exact Hout|].
  rewrite (get_preset_unlisted 5 3 Hout). split; [reflexivity | discriminate].
Qed.

(** ** The outline path *)

(** C10: with empty text [text_to_braille] returns the empty string at
    once: the program is a leaf, so whatever the font path, the other
    arguments and the imaging library, no call is made (no font is opened
    or read) and no exception raised. *)
Theorem text_to_braille_empty_text (font_path : list Z)
  (char_size : list value) (font_size : option Z) (threshold : Z)
  (St : Type) (lib : library St) (st : St) :
  text_to_braille [] font_path char_size font_size threshold = Ret (Ok [])
  /\ run lib st (text_to_braille [] font_path char_size font_size threshold)
     = (Ok [], st, []).
Proof. split; reflexivity. Qed.

(** With text to render the font is the first thing asked for, and a
    failure to open it is answered by the built-in font. *)
Example text_to_braille_opens_font :
  exists calls,
    run no_fonts tt (text_to_braille [65] [102] [VInt 16; VInt 16] None 128)
    = (Ok [], tt,
       existT _ (Truetype [102] 16) :: existT _ LoadDefault :: calls).
Proof. eexists. vm_compute. reflexivity. Qed.

(** The tuple [get_preset] gives for an unlisted size cannot be unpacked. *)
Example text_to_braille_bad_char_size :
  text_to_braille [65] [102] (get_preset 5 3) None 128 = Ret (Raise ValueError).
Proof. reflexivity. Qed.

(** ** The glyph compositor *)

Lemma pixel_at_true bitmap y x :
  pixel_at bitmap y x = true <->
  0 <= y /\ 0 <= x /\
  exists row, bitmap !! Z.to_nat y = Some row /\ row !! Z.to_nat x = Some true.
Proof.
  unfold pixel_at. split.
  - destruct (Z.leb_spec 0 y), (Z.leb_spec 0 x); simpl; try discriminate.
    destruct (bitmap !! Z.to_nat y) as [row|]; [|discriminate].
    destruct (row !! Z.to_nat x) as [[]|] eqn:Hp; try discriminate.
    intros _. eauto 6.
  - intros (Hy & Hx & row & -> & ->).
    replace ((0 <=? y) && (0 <=? x))%bool with true by lia. reflexivity.
Qed.

Section Drawing.

Variables (total_h total_w : Z).

(** The canvas keeps its size while glyphs are drawn. *)
Local Notation "'sized' bitmap" :=
  (canvas bitmap (Z.max 0 total_h) (Z.max 0 total_w))
  (at level 10, bitmap at level 9).

Lemma set_pixel_spec bitmap y px :
  sized bitmap -> 0 <= y < total_h -> 0 <= px < total_w ->
  exists bitmap',
    set_pixel bitmap y px = Ok bitmap' /\ sized bitmap'
    /\ forall y' x', pixel_at bitmap' y' x' = true <->
                     pixel_at bitmap y' x' = true \/ (y' = y /\ x' = px).
Proof.
  intros Hs Hy Hx. pose proof Hs as [Hlen Hall]. unfold len in Hlen.
  destruct (lookup_lt_is_Some_2 bitmap (Z.to_nat y) ltac:(lia)) as [row Hrow].
  pose proof (canvas_row _ _ _ Hs _ _ Hrow) as Hw.
  exists (<[Z.to_nat y := <[Z.to_nat px := true]> row]> bitmap).
  split; [|split].
  - unfold set_pixel. rewrite (getitem_lookup _ _ _ (proj1 Hy) Hrow). simpl.
    rewrite setitem_insert by lia. simpl.
    apply setitem_insert. unfold len. lia.
  - split.
    + unfold len. rewrite length_insert. exact Hlen.
    + apply Forall_insert; [exact Hall|].
      unfold len in *. rewrite length_insert. exact Hw.
  - intros y' x'. rewrite !pixel_at_true. unfold len in Hw. split.
    + intros (Hy' & Hx' & row' & Hrow' & Hp).
      destruct (decide (Z.to_nat y' = Z.to_nat y)) as [Ey|Ny].
      * rewrite Ey, list_lookup_insert_eq in Hrow' by lia.
        injection Hrow' as <-.
        destruct (decide (Z.to_nat x' = Z.to_nat px)) as [Ex|Nx].
        -- right. lia.
        -- rewrite list_lookup_insert_ne in Hp by congruence.
           left. rewrite Ey. eauto 6.
      * rewrite list_lookup_insert_ne in Hrow' by congruence.
        left. eauto 6.
    + intros [(Hy' & Hx' & row' & Hrow' & Hp) | [-> ->]].
      * split; [assumption|]. split; [assumption|].
        destruct (decide (Z.to_nat y' = Z.to_nat y)) as [Ey|Ny].
        -- rewrite Ey in *. rewrite list_lookup_insert_eq by lia.
           eexists. split; [reflexivity|].
           assert (row' = row) as -> by congruence.
           destruct (decide (Z.to_nat x' = Z.to_nat px)) as [Ex|Nx].
           ++ rewrite Ex. apply list_lookup_insert_eq. lia.
           ++ rewrite list_lookup_insert_ne by congruence. exact Hp.
        -- rewrite list_lookup_insert_ne by congruence. eauto.
      * split; [lia|]. split; [lia|].
        rewrite list_lookup_insert_eq by lia.
        eexists. split; [reflexivity|].
        apply list_lookup_insert_eq. lia.
Qed.

Lemma for_each_app {A S} (xs ys : list A) (body : S -> A -> result S) (s : S) :
  for_each (xs ++ ys) body s = bind (for_each xs body s) (for_each ys body).
Proof.
  revert s. induction xs as [|x xs IH]; intros s; simpl; [reflexivity|].
  destruct (body s x); simpl; [apply IH | reflexivity].
Qed.

(** The loop over a glyph row, started at column [k] of the row. *)
Lemma draw_row_from y x0 (row : list bool) :
  0 <= y < total_h ->
  forall (k : nat) bitmap, sized bitmap ->
  exists bitmap',
    for_each (imap (fun i a => (Z.of_nat (k + i), a)) row)
      (fun bitmap '(col_i, pixel) =>
         let px := x0 + col_i in
         if (pixel : bool) && ((0 <=? px) && (px <? total_w))
         then set_pixel bitmap y px
         else Ok bitmap)
      bitmap = Ok bitmap'
    /\ sized bitmap'
    /\ forall y' x', pixel_at bitmap' y' x' = true <->
         pixel_at bitmap y' x' = true
         \/ (y' = y /\ 0 <= x' < total_w
             /\ exists c : nat, row !! c = Some true
                                /\ x' = x0 + Z.of_nat (k + c)).
Proof.
  intros Hy. induction row as [|p row IH]; intros k bitmap Hs.
  - exists bitmap. split; [reflexivity|]. split; [assumption|].
    intros y' x'. split; [tauto|]. intros [?|(_ & _ & c & Hc & _)]; [assumption|].
    discriminate.
  - simpl imap. cbn [for_each].
    assert (Hstep : exists b1,
      (if p && ((0 <=? x0 + Z.of_nat (k + 0)) && (x0 + Z.of_nat (k + 0) <? total_w))
       then set_pixel bitmap y (x0 + Z.of_nat (k + 0)) else Ok bitmap) = Ok b1
      /\ sized b1
      /\ forall y' x', pixel_at b1 y' x' = true <->
           pixel_at bitmap y' x' = true
           \/ (y' = y /\ 0 <= x' < total_w /\ p = true
               /\ x' = x0 + Z.of_nat (k + 0))).
    { destruct p; simpl.
      - destruct (Z.leb_spec 0 (x0 + Z.of_nat (k + 0)));
          destruct (Z.ltb_spec (x0 + Z.of_nat (k + 0)) total_w); simpl.
        + destruct (set_pixel_spec bitmap y (x0 + Z.of_nat (k + 0)) Hs Hy)
            as (b1 & E & Hs1 & Hp1); [lia|].
          exists b1. split; [exact E|]. split; [exact Hs1|].
          intros y' x'. rewrite Hp1. intuition lia.
        + exists bitmap. split; [reflexivity|]. split; [assumption|].
          intros; intuition lia.
        + exists bitmap. split; [reflexivity|]. split; [assumption|].
          intros; intuition lia.
        + exists bitmap. split; [reflexivity|]. split; [assumption|].
          intros; intuition lia.
      - exists bitmap. split; [reflexivity|]. split; [assumption|].
        intros; intuition congruence. }
    destruct Hstep as (b1 & E1 & Hs1 & Hp1). rewrite E1. cbn [bind].
    destruct (IH (S k) b1 Hs1) as (b2 & E2 & Hs2 & Hp2).
    exists b2. split.
    + rewrite <- E2. f_equal. apply imap_ext. intros i a _. simpl.
      do 2 f_equal. lia.
    + split; [assumption|]. intros y' x'. rewrite Hp2, Hp1. split.
      * intros [[?|(-> & Hx & -> & ->)]|(-> & Hx & c & Hc & ->)].
        -- left; assumption.
        -- right. split; [reflexivity|]. split; [assumption|].
           exists 0%nat. split; reflexivity.
        -- right. split; [reflexivity|]. split; [assumption|].
           exists (S c). split; [exact Hc | lia].
      * intros [?|(-> & Hx & [|c] & Hc & ->)].
        -- left; left; assumption.
        -- left; right. injection Hc as ->. auto.
        -- right. split; [reflexivity|]. split; [assumption|].
           exists c. split; [exact Hc | lia].
Qed.

(** The loop over the rows of a glyph, started at row [k]. *)
Lemma draw_rows_from y_start x0 (rows : list (list bool)) :
  forall (k : nat) bitmap, sized bitmap ->
  exists bitmap',
    for_each (imap (fun i a => (Z.of_nat (k + i), a)) rows)
      (fun bitmap '(row_i, row) =>
         let y := y_start + row_i in
         if (0 <=? y) && (y <? total_h)
         then draw_row total_w y x0 row bitmap
         else Ok bitmap)
      bitmap = Ok bitmap'
    /\ sized bitmap'
    /\ forall y' x', pixel_at bitmap' y' x' = true <->
         pixel_at bitmap y' x' = true
         \/ (0 <= y' < total_h /\ 0 <= x' < total_w
             /\ exists (r c : nat) row,
                  rows !! r = Some row /\ row !! c = Some true
                  /\ y' = y_start + Z.of_nat (k + r)
                  /\ x' = x0 + Z.of_nat c).
Proof.
  induction rows as [|row rows IH]; intros k bitmap Hs.
  - exists bitmap. split; [reflexivity|]. split; [assumption|].
    intros y' x'. split; [tauto|].
    intros [?|(_ & _ & r & c & row & Hr & _)]; [assumption | discriminate].
  - simpl imap. cbn [for_each].
    assert (Hstep : exists b1,
      (if (0 <=? y_start + Z.of_nat (k + 0))
          && (y_start + Z.of_nat (k + 0) <? total_h)
       then draw_row total_w (y_start + Z.of_nat (k + 0)) x0 row bitmap
       else Ok bitmap) = Ok b1
      /\ sized b1
      /\ forall y' x', pixel_at b1 y' x' = true <->
           pixel_at bitmap y' x' = true
           \/ (0 <= y' < total_h /\ 0 <= x' < total_w
               /\ exists c : nat, row !! c = Some true
                    /\ y' = y_start + Z.of_nat (k + 0)
                    /\ x' = x0 + Z.of_nat c)).
    { destruct (Z.leb_spec 0 (y_start + Z.of_nat (k + 0)));
        destruct (Z.ltb_spec (y_start + Z.of_nat (k + 0)) total_h); simpl;
        try (exists bitmap; split; [reflexivity|]; split; [assumption|];
             intros y' x'; split; [tauto|];
             intros [?|(? & ? & c & ? & ? & ?)]; [assumption | lia]).
      destruct (draw_row_from (y_start + Z.of_nat (k + 0)) x0 row
                  ltac:(lia) 0%nat bitmap Hs) as (b1 & E & Hs1 & Hp1).
      exists b1. split; [exact E|]. split; [exact Hs1|].
      intros y' x'. rewrite Hp1. split.
      - intros [?|(-> & Hx & c & Hc & ->)]; [left; assumption|].
        right. split; [lia|]. split; [assumption|]. exists c. auto.
      - intros [?|(Hy & Hx & c & Hc & -> & ->)]; [left; assumption|].
        right. split; [reflexivity|]. split; [assumption|]. exists c. auto. }
    destruct Hstep as (b1 & E1 & Hs1 & Hp1). rewrite E1. cbn [bind].
    destruct (IH (S k) b1 Hs1) as (b2 & E2 & Hs2 & Hp2).
    exists b2. split.
    + rewrite <- E2. f_equal. apply imap_ext. intros i a _. simpl.
      do 2 f_equal. lia.
    + split; [assumption|]. intros y' x'. rewrite Hp2, Hp1. split.
      * intros [[?|(Hy & Hx & c & Hc & -> & ->)]
               |(Hy & Hx & r & c & row' & Hr & Hc & -> & ->)].
        -- left; assumption.
        -- right. split; [assumption|]. split; [assumption|].
           exists 0%nat, c, row. auto.
        -- right. split; [assumption|]. split; [assumption|].
           exists (S r), c, row'. repeat split; [exact Hr | exact Hc | lia].
      * intros [?|(Hy & Hx & [|r] & c & row' & Hr & Hc & -> & ->)].
        -- left; left; assumption.
        -- left; right. injection Hr as ->.
           split; [assumption|]. split; [assumption|]. exists c. auto.
        -- right. split; [lia|]. split; [assumption|].
           exists r, c, row'. repeat split; [exact Hr | exact Hc | lia].
Qed.

Lemma draw_glyph_spec max_ascent x (g : Glyph) bitmap :
  sized bitmap ->
  exists bitmap',
    draw_glyph total_h total_w max_ascent x g bitmap = Ok bitmap'
    /\ sized bitmap'
    /\ forall y' x', pixel_at bitmap' y' x' = true <->
         pixel_at bitmap y' x' = true
         \/ (0 <= y' < total_h /\ 0 <= x' < total_w
             /\ exists (r c : nat) row,
                  g_bitmap g !! r = Some row /\ row !! c = Some true
                  /\ y' = max_ascent - g_h g - g_y_off g + Z.of_nat r
                  /\ x' = x + g_x_off g + Z.of_nat c).
Proof.
  intros Hs.
  exact (draw_rows_from (max_ascent - g_h g - g_y_off g) (x + g_x_off g)
           (g_bitmap g) 0%nat bitmap Hs).
Qed.

(** The loop over the characters: every character moves the cursor by
    [step], and only characters with a glyph leave ink. *)
Lemma draw_text_spec (self : BDFFont) max_ascent spacing (text : list Z) :
  forall bitmap x, sized bitmap ->
  exists bitmap',
    draw_text self total_h total_w max_ascent spacing text (bitmap, x)
    = Ok (bitmap', x + len text * (width self + spacing))
    /\ sized bitmap'
    /\ forall y' x', pixel_at bitmap' y' x' = true <->
         pixel_at bitmap y' x' = true
         \/ (0 <= y' < total_h /\ 0 <= x' < total_w
             /\ inked self text
                  (fun i g => (max_ascent - g_h g - g_y_off g,
                               x + Z.of_nat i * (width self + spacing)
                               + g_x_off g))
                  y' x').
Proof.
  unfold draw_text.
  induction text as [|ch text IH]; intros bitmap x Hs.
  - exists bitmap. split; [unfold len; simpl; do 2 f_equal; lia|].
    split; [assumption|]. intros y' x'. split; [tauto|].
    intros [?|(_ & _ & i & ch & g & r & c & row & Hi & _)];
      [assumption | discriminate].
  - cbn [for_each].
    assert (Hstep : exists b1,
      match glyphs self !! ch with
      | Some g => draw_glyph total_h total_w max_ascent x g bitmap
      | None => Ok bitmap
      end = Ok b1
      /\ sized b1
      /\ forall y' x', pixel_at b1 y' x' = true <->
           pixel_at bitmap y' x' = true
           \/ (0 <= y' < total_h /\ 0 <= x' < total_w
               /\ exists g (r c : nat) row,
                    glyphs self !! ch = Some g
                    /\ g_bitmap g !! r = Some row /\ row !! c = Some true
                    /\ y' = max_ascent - g_h g - g_y_off g + Z.of_nat r
                    /\ x' = x + g_x_off g + Z.of_nat c)).
    { destruct (glyphs self !! ch) as [g|].
      - destruct (draw_glyph_spec max_ascent x g bitmap Hs)
          as (b1 & E & Hs1 & Hp1).
        exists b1. split; [exact E|]. split; [exact Hs1|].
        intros y' x'. rewrite Hp1. split.
        + intros [?|(Hy & Hx & r & c & row & ?)]; [left; assumption|].
          right. split; [assumption|]. split; [assumption|].
          exists g, r, c, row. tauto.
        + intros [?|(Hy & Hx & g' & r & c & row & Hg & ?)]; [left; assumption|].
          injection Hg as <-.
          right. split; [assumption|]. split; [assumption|].
          exists r, c, row. tauto.
      - exists bitmap. split; [reflexivity|]. split; [assumption|].
        intros y' x'. split; [tauto|].
        intros [?|(_ & _ & g & r & c & row & Hg & _)];
          [assumption | discriminate]. }
    destruct Hstep as (b1 & E1 & Hs1 & Hp1). rewrite E1. cbn [bind].
    destruct (IH b1 (x + (width self + spacing)) Hs1) as (b2 & E2 & Hs2 & Hp2).
    exists b2. split.
    + rewrite E2. do 2 f_equal. unfold len. simpl length. lia.
    + split; [assumption|]. intros y' x'. rewrite Hp2, Hp1. unfold inked.
      simpl fst. simpl snd. split.
      * intros [[?|(Hy & Hx & g & r & c & row & Hg & Hr & Hc & -> & ->)]
               |(Hy & Hx & i & ch' & g & r & c & row & Hi & Hg & Hr & Hc & -> & ->)].
        -- left; assumption.
        -- right. split; [assumption|]. split; [assumption|].
           exists 0%nat, ch, g, r, c, row.
           repeat split; try assumption; lia.
        -- right. split; [assumption|]. split; [assumption|].
           exists (S i), ch', g, r, c, row.
           repeat split; try assumption; lia.
      * intros [?|(Hy & Hx & [|i] & ch' & g & r & c & row
                    & Hi & Hg & Hr & Hc & -> & ->)].
        -- left; left; assumption.
        -- left; right. injection Hi as <-.
           split; [assumption|]. split; [assumption|].
           exists g, r, c, row. repeat split; try assumption; lia.
        -- right. split; [lia|]. split; [lia|].
           exists i, ch', g, r, c, row.
           repeat split; try assumption; lia.
Qed.

End Drawing.

Lemma foldr_max_base (l : list Z) (a b : Z) :
  Z.max b (foldr Z.max a l) = foldr Z.max (Z.max b a) l.
Proof. induction l as [|x l IH]; simpl; [reflexivity | rewrite <- IH; lia]. Qed.

Lemma fold_left_max (l : list Z) (a : Z) : fold_left Z.max l a = foldr Z.max a l.
Proof.
  revert a. induction l as [|x l IH]; intros a; simpl; [reflexivity|].
  rewrite IH, (Z.max_comm a x), <- foldr_max_base. reflexivity.
Qed.

Lemma maximum_floor (l : list Z) : Z.max 0 (maximum l) = foldr Z.max 0 l.
Proof.
  destruct l as [|x l]; [reflexivity|].
  unfold maximum. rewrite fold_left_max. simpl.
  rewrite !foldr_max_base. f_equal. lia.
Qed.

Lemma maximum_nonneg (l : list Z) : Forall (fun x => 0 <= x) l -> 0 <= maximum l.
Proof.
  destruct 1 as [|x l Hx _]; [reflexivity|].
  unfold maximum. rewrite fold_left_max.
  rewrite <- (Z.max_id x), <- foldr_max_base. lia.
Qed.

Lemma spec_max_descent_nonneg self text : 0 <= spec_max_descent self text.
Proof.
  apply maximum_nonneg, Forall_forall. intros x Hin.
  apply list_elem_of_In, in_map_iff in Hin as (g & <- & _).
  destruct (g_y_off g <? 0) eqn:E; lia.
Qed.

Lemma metrics_from self text (a d : Z) :
  fold_left
    (fun '(max_ascent, max_descent) ch =>
       match glyphs self !! ch with
       | Some g =>
           (Z.max max_ascent (g_h g + g_y_off g),
            Z.max max_descent (if g_y_off g <? 0 then - g_y_off g else 0))
       | None => (max_ascent, max_descent)
       end)
    text (a, d)
  = (foldr Z.max a (map (fun g => g_h g + g_y_off g) (present self text)),
     foldr Z.max d
       (map (fun g => if g_y_off g <? 0 then - g_y_off g else 0)
          (present self text))).
Proof.
  unfold present. revert a d.
  induction text as [|ch text IH]; intros a d; simpl; [reflexivity|].
  destruct (glyphs self !! ch) as [g|]; simpl; [|apply IH].
  rewrite IH. f_equal; rewrite Z.max_comm; symmetry; apply foldr_max_base.
Qed.

(** The first loop of [render] computes the metrics, each from 0 up. *)
Lemma metrics_spec self text :
  metrics self text
  = (Z.max 0 (spec_max_ascent self text), spec_max_descent self text).
Proof.
  pose proof (spec_max_descent_nonneg self text) as Hd.
  rewrite <- (Z.max_r 0 (spec_max_descent self text)) by exact Hd.
  unfold spec_max_ascent, spec_max_descent. rewrite !maximum_floor.
  apply metrics_from.
Qed.

Lemma blank_canvas total_h total_w :
  let bitmap := map (fun _ : Z => repeat_list false total_w) (range total_h) in
  canvas bitmap (Z.max 0 total_h) (Z.max 0 total_w)
  /\ forall y x, pixel_at bitmap y x = false.
Proof.
  simpl. rewrite range_spec, map_map. split; [split|].
  - unfold len. rewrite length_map, length_seq. lia.
  - apply Forall_forall. intros row Hin.
    apply list_elem_of_In, in_map_iff in Hin as (i & <- & _).
    unfold len, repeat_list. rewrite length_replicate. lia.
  - intros y x. apply not_true_is_false. rewrite pixel_at_true.
    intros (_ & _ & row & Hrow & Hp).
    apply list_elem_of_lookup_2, list_elem_of_In, in_map_iff in Hrow
      as (i & <- & _).
    unfold repeat_list in Hp. apply lookup_replicate in Hp as [Hp _].
    discriminate.
Qed.

(** What [render] returns: it never fails; the canvas has the height and
    width computed from the metrics; a pixel is set exactly when it lies on
    the canvas and a set pixel of the glyph of some character falls on it,
    the glyph of character [i] having its origin at row
    [max_ascent - h - y_off] and column [cell_start i + x_off]. *)
Lemma render_spec (self : BDFFont) (text : list Z) (spacing : Z) :
  let max_ascent := Z.max 0 (spec_max_ascent self text) in
  let total_h := height_for self max_ascent (spec_max_descent self text) in
  let total_w := canvas_width self text spacing in
  exists bitmap,
    render self text spacing = Ok bitmap
    /\ canvas bitmap (Z.max 0 total_h) (Z.max 0 total_w)
    /\ forall y x, pixel_at bitmap y x = true <->
         0 <= y < total_h /\ 0 <= x < total_w
         /\ inked self text
              (fun i g => (max_ascent - g_h g - g_y_off g,
                           cell_start self spacing i + g_x_off g))
              y x.
Proof.
  intros max_ascent total_h total_w.
  pose proof (spec_max_descent_nonneg self text) as Hd.
  unfold render. rewrite metrics_spec. fold max_ascent.
  assert (Hh : or_int (max_ascent + spec_max_descent self text) (height self)
               = total_h).
  { unfold or_int, total_h, height_for.
    destruct (Z.eqb_spec (max_ascent + spec_max_descent self text) 0),
      (Z.eqb_spec max_ascent 0), (Z.eqb_spec (spec_max_descent self text) 0);
      simpl; lia. }
  rewrite Hh. fold (canvas_width self text spacing). fold total_w.
  destruct (blank_canvas total_h total_w) as [Hs Hblank].
  destruct (draw_text_spec total_h total_w self max_ascent spacing text _ 0 Hs)
    as (bitmap & E & Hs' & Hp).
  exists bitmap. rewrite E. split; [reflexivity|]. split; [exact Hs'|].
  intros y x. rewrite Hp, Hblank. unfold cell_start. simpl. split.
  - intros [?|?]; [discriminate | assumption].
  - auto.
Qed.

Example underscore_font_decoded :
  BDFFont_init (Ok underscore_bdf) = Ok underscore_font.
Proof. vm_compute. reflexivity. Qed.

(** C6 as stated fails on a glyph that lies wholly below the baseline: for
    the underscore, [h + yOff = -1] and [-yOff = 2], so the stated height is
    1 and the stated origin row [-1 - 1 + 2 = 0]; the code starts its
    maximum at 0, makes a canvas 2 high and draws the glyph in row 1. *)
Lemma render_baseline_counterexample :
  BDFFont_init (Ok underscore_bdf) = Ok underscore_font
  /\ spec_max_ascent underscore_font [95] = -1
  /\ spec_max_descent underscore_font [95] = 2
  /\ exists bitmap,
       render underscore_font [95] 0 = Ok bitmap
       /\ len bitmap = 2
       /\ len bitmap <> height_for underscore_font
                          (spec_max_ascent underscore_font [95])
                          (spec_max_descent underscore_font [95])
       /\ pixel_at bitmap (spec_max_ascent underscore_font [95] - 1 - (-2)) 0
          = false
       /\ pixel_at bitmap 1 0 = true.
Proof.
  split; [vm_compute; reflexivity|].
  split; [vm_compute; reflexivity|].
  split; [vm_compute; reflexivity|].
  eexists. split; [vm_compute; reflexivity|].
  vm_compute. repeat split; congruence.
Qed.

(** C6 (amended): [render] never fails; the canvas height is
    [maxAscent + maxDescent], or the default height of the font when both
    are zero, where [maxAscent] is the maximum of 0 and of [h + yOff] over
    the glyphs present for the characters of the text, and [maxDescent] the
    maximum over them of [-yOff] where [yOff < 0], else 0; a pixel of the
    canvas is set exactly when a set pixel of a placed glyph falls on it,
    the glyph of character [i] having its origin at row
    [maxAscent - h - yOff] and at column [cell start + xOff]. *)
Theorem render_baseline (self : BDFFont) (text : list Z) (spacing : Z) :
  0 <= height self ->
  let max_ascent := Z.max 0 (spec_max_ascent self text) in
  let max_descent := spec_max_descent self text in
  exists bitmap,
    render self text spacing = Ok bitmap
    /\ len bitmap = height_for self max_ascent max_descent
    /\ forall y x, pixel_at bitmap y x = true <->
         0 <= y < len bitmap /\ 0 <= x < canvas_width self text spacing
         /\ inked self text
              (fun i g => (max_ascent - g_h g - g_y_off g,
                           cell_start self spacing i + g_x_off g))
              y x.
Proof.
  intros Hh max_ascent max_descent.
  destruct (render_spec self text spacing) as (bitmap & E & [Hlen _] & Hp).
  fold max_ascent max_descent in Hlen, Hp.
  pose proof (spec_max_descent_nonneg self text) as Hd. fold max_descent in Hd.
  assert (Hnn : 0 <= height_for self max_ascent max_descent).
  { unfold height_for. destruct (_ && _)%bool; lia. }
  exists bitmap. split; [exact E|].
  rewrite Hlen, Z.max_r by exact Hnn. split; [reflexivity | exact Hp].
Qed.

Lemma render_baseline_witness :
  0 <= height underscore_font
  /\ exists bitmap,
       render underscore_font [95] 0 = Ok bitmap
       /\ len bitmap
          = height_for underscore_font
              (Z.max 0 (spec_max_ascent underscore_font [95]))
              (spec_max_descent underscore_font [95]).
Proof.
  assert (Hh : 0 <= height underscore_font) by (vm_compute; congruence).
  split; [exact Hh|].
  destruct (render_baseline underscore_font [95] 0 Hh)
    as (bitmap & E & Hlen & _).
  exists bitmap. split; assumption.
Defined.




Example render_space_underscore :
  render underscore_font [32; 95] 1
  = Ok [ replicate 11 false; replicate 6 false ++ replicate 5 true ].
Proof. vm_compute. reflexivity. Qed.

(** ** The pattern matcher *)

Module ReFacts.
Import Re.

Lemma strip_prefix_app (p s : list ascii) : strip_prefix p (p ++ s) = Some s.
Proof.
  induction p as [|a p IH]; simpl; [reflexivity|].
  rewrite Ascii.eqb_refl. exact IH.
Qed.

Lemma strip_prefix_inv (p s s' : list ascii) :
  strip_prefix p s = Some s' -> s = p ++ s'.
Proof.
  revert s. induction p as [|a p IH]; intros s H; simpl in *.
  - congruence.
  - destruct s as [|b s]; [discriminate|].
    destruct (Ascii.eqb_spec a b) as [->|]; [|discriminate].
    f_equal. apply IH, H.
Qed.

Section Inversion.

Variables (r : regex) (opened : list (list ascii)) (caps : list (list ascii)).
Variable m : list (list ascii) * list ascii.

Lemma exec_lit_inv l s :
  exec (Lit l :: r) s opened caps = Some m ->
  exists s', s = l ++ s' /\ exec r s' opened caps = Some m.
Proof.
  simpl. destruct (strip_prefix l s) as [s'|] eqn:E; [|discriminate].
  intros H. exists s'. split; [apply strip_prefix_inv, E | exact H].
Qed.

Lemma exec_one_inv k s :
  exec (One k :: r) s opened caps = Some m ->
  exists c s', s = c :: s' /\ accepts k c = true
               /\ exec r s' opened caps = Some m.
Proof.
  simpl. destruct s as [|c s']; [discriminate|].
  destruct (accepts k c) eqn:E; [|discriminate]. eauto.
Qed.

Lemma exec_opt_inv k s :
  exec (Opt k :: r) s opened caps = Some m ->
  (exists c s', s = c :: s' /\ accepts k c = true
                /\ exec r s' opened caps = Some m)
  \/ exec r s opened caps = Some m.
Proof.
  simpl. destruct s as [|c s']; [auto|].
  destruct (accepts k c) eqn:E; [|auto].
  destruct (exec r s' opened caps) as [m'|] eqn:E'; [|auto].
  intros [= <-]. left. eauto.
Qed.

Lemma exec_star_inv k greedy s :
  exec (Star k greedy :: r) s opened caps = Some m ->
  exists u s', s = u ++ s' /\ Forall (fun c => accepts k c = true) u
               /\ exec r s' opened caps = Some m.
Proof.
  induction s as [|c s IH]; simpl.
  - intros H. exists [], []. auto.
  - destruct (accepts k c) eqn:E.
    + assert (Hmore : exec (Star k greedy :: r) s opened caps = Some m ->
                      exists u s', c :: s = u ++ s'
                        /\ Forall (fun c => accepts k c = true) u
                        /\ exec r s' opened caps = Some m).
      { intros H. destruct (IH H) as (u & s' & -> & Hu & Hr).
        exists (c :: u), s'. auto. }
      assert (Hstop : exec r (c :: s) opened caps = Some m ->
                      exists u s', c :: s = u ++ s'
                        /\ Forall (fun c => accepts k c = true) u
                        /\ exec r s' opened caps = Some m).
      { intros H. exists [], (c :: s). auto. }
      simpl in Hmore. destruct greedy.
      * destruct ((fix rep (s0 : list ascii) := _) s) as [m'|];
          [intros [= <-]; auto | auto].
      * destruct (exec r (c :: s) opened caps) as [m'|];
          [intros [= <-]; auto | auto].
    + intros H. exists [], (c :: s). auto.
Qed.

End Inversion.

Lemma take_consumed {A} (u s : list A) :
  take (length (u ++ s) - length s) (u ++ s) = u.
Proof.
  rewrite length_app, Nat.add_sub. apply take_app_length.
Qed.

Section Groups.

Variables (r : regex) (opened : list (list ascii)) (caps : list (list ascii)).
Variable m : list (list ascii) * list ascii.

(** [(\d+)] captures a numeral. *)
Lemma exec_numeral_inv s :
  exec (Open :: One Digit :: Star Digit true :: Close :: r) s opened caps
  = Some m ->
  exists g s', s = g ++ s' /\ numeral g
               /\ exec r s' opened (caps ++ [g]) = Some m.
Proof.
  intros H. change (exec (One Digit :: Star Digit true :: Close :: r) s
                      (s :: opened) caps = Some m) in H.
  apply exec_one_inv in H as (d & s1 & E1 & Hd & H).
  apply exec_star_inv in H as (u & s2 & E2 & Hu & H).
  exists (d :: u), s2. subst s1. split; [exact E1|].
  split; [split; [discriminate | constructor; assumption]|].
  simpl in H. rewrite E1 in H at 1 2.
  change (d :: u ++ s2) with ((d :: u) ++ s2) in H.
  rewrite take_consumed in H. exact H.
Qed.

(** [(-?\d+)] captures a numeral with an optional sign. *)
Lemma exec_signed_inv s :
  exec (Open :: Opt (Char "-") :: One Digit :: Star Digit true :: Close :: r)
    s opened caps = Some m ->
  exists g s', s = g ++ s' /\ signed_numeral g
               /\ exec r s' opened (caps ++ [g]) = Some m.
Proof.
  intros H.
  change (exec (Opt (Char "-") :: One Digit :: Star Digit true :: Close :: r)
            s (s :: opened) caps = Some m) in H.
  apply exec_opt_inv in H as [(c & s0 & E0 & Hc & H) | H].
  - apply Ascii.eqb_eq in Hc. subst c.
    apply exec_one_inv in H as (d & s1 & E1 & Hd & H).
    apply exec_star_inv in H as (u & s2 & E2 & Hu & H).
    exists ("-"%char :: d :: u), s2. subst s0 s1. split; [exact E0|].
    split.
    { right. exists (d :: u). split; [reflexivity|].
      split; [discriminate | constructor; assumption]. }
    simpl in H. rewrite E0 in H at 1 2.
    change ("-"%char :: d :: u ++ s2) with (("-"%char :: d :: u) ++ s2) in H.
    rewrite take_consumed in H. exact H.
  - apply exec_one_inv in H as (d & s1 & E1 & Hd & H).
    apply exec_star_inv in H as (u & s2 & E2 & Hu & H).
    exists (d :: u), s2. subst s1. split; [exact E1|].
    split.
    { left. split; [discriminate | constructor; assumption]. }
    simpl in H. rewrite E1 in H at 1 2.
    change (d :: u ++ s2) with ((d :: u) ++ s2) in H.
    rewrite take_consumed in H. exact H.
Qed.

(** [(.*?)] captures some text. *)
Lemma exec_any_inv s :
  exec (Open :: Star Any false :: Close :: r) s opened caps = Some m ->
  exists g s', s = g ++ s' /\ exec r s' opened (caps ++ [g]) = Some m.
Proof.
  intros H.
  change (exec (Star Any false :: Close :: r) s (s :: opened) caps = Some m)
    in H.
  apply exec_star_inv in H as (u & s2 & E2 & Hu & H).
  exists u, s2. split; [exact E2|].
  simpl in H. rewrite E2 in H at 1 2.
  rewrite take_consumed in H. exact H.
Qed.

End Groups.

Ltac exec_inv H :=
  let c := fresh "c" in
  let u := fresh "u" in
  let g := fresh "g" in
  let s' := fresh "s" in
  let Hc := fresh "Hc" in
  let Hg := fresh "Hg" in
  lazymatch type of H with
  | exec (Lit _ :: _) _ _ _ = Some _ =>
      apply exec_lit_inv in H as (s' & -> & H)
  | exec (One _ :: _) _ _ _ = Some _ =>
      apply exec_one_inv in H as (c & s' & -> & Hc & H)
  | exec (Star _ _ :: _) _ _ _ = Some _ =>
      apply exec_star_inv in H as (u & s' & -> & Hc & H)
  | exec (Open :: One Digit :: _) _ _ _ = Some _ =>
      apply exec_numeral_inv in H as (g & s' & -> & Hg & H)
  | exec (Open :: Opt _ :: _) _ _ _ = Some _ =>
      apply exec_signed_inv in H as (g & s' & -> & Hg & H)
  | exec (Open :: Star Any false :: _) _ _ _ = Some _ =>
      apply exec_any_inv in H as (g & s' & -> & H)
  end.

Lemma ends_here (t : list ascii) : exists pre, t = pre ++ t.
Proof. exists []. reflexivity. Qed.

Lemma ends_app (u s t : list ascii) :
  (exists pre, s = pre ++ t) -> exists pre, u ++ s = pre ++ t.
Proof. intros [pre ->]. exists (u ++ pre). apply app_assoc. Qed.

Lemma ends_cons (c : ascii) (s t : list ascii) :
  (exists pre, s = pre ++ t) -> exists pre, c :: s = pre ++ t.
Proof. intros [pre ->]. exists (c :: pre). reflexivity. Qed.

(** A match of the character-record pattern: it starts with [ENCODING] and
    ends with a line break and [ENDCHAR]; groups 1 to 3 are numerals,
    groups 4 and 5 numerals with an optional sign. *)
Lemma glyph_match_inv (s : list ascii) (m : match_object) (rest : list ascii) :
  exec GLYPH_RE s [] [] = Some (m, rest) ->
  (exists g1 g2 g3 g4 g5 g6,
     m = [g1; g2; g3; g4; g5; g6]
     /\ numeral g1 /\ numeral g2 /\ numeral g3
     /\ signed_numeral g4 /\ signed_numeral g5)
  /\ (exists tail, s = text_of "ENCODING" ++ tail)
  /\ (exists pre, s = pre ++ (LF :: text_of "ENDCHAR") ++ rest).
Proof.
  intros H.
  unfold GLYPH_RE, lit, plus, star, lazy_star, opt, group in H.
  cbn [app] in H.
  repeat exec_inv H.
  injection H as <- <-.
  split; [|split].
  - do 6 eexists. split; [reflexivity|]. tauto.
  - eexists. reflexivity.
  - repeat first [ apply ends_here | apply ends_app | apply ends_cons ].
Qed.

(** A match of the bounding-box pattern captures two numerals. *)
Lemma boundingbox_match_inv (s : list ascii) (m : match_object)
  (rest : list ascii) :
  exec BOUNDINGBOX_RE s [] [] = Some (m, rest) ->
  exists g1 g2, m = [g1; g2] /\ numeral g1 /\ numeral g2.
Proof.
  intros H.
  unfold BOUNDINGBOX_RE, lit, plus, group in H.
  cbn [app] in H.
  repeat exec_inv H.
  injection H as <- <-.
  do 2 eexists. split; [reflexivity|]. tauto.
Qed.

(** What [search] and [finditer] return are matches at some position. *)
Lemma search_inv (r : regex) (s : list ascii) (m : match_object) :
  search r s = Some m ->
  exists s' rest, exec r s' [] [] = Some (m, rest).
Proof.
  induction s as [|c s IH]; simpl.
  - destruct (exec r [] [] []) as [[caps rest]|] eqn:E; [|discriminate].
    intros [= <-]. eauto.
  - destruct (exec r (c :: s) [] []) as [[caps rest]|] eqn:E; [|exact IH].
    intros [= <-]. eauto.
Qed.

Lemma scan_inv (r : regex) (s : list ascii) (skip : nat) (m : match_object) :
  In m (scan r skip s) ->
  exists s' rest, exec r s' [] [] = Some (m, rest).
Proof.
  revert skip. induction s as [|c s IH]; intros skip; simpl.
  - destruct skip; [|intros []].
    destruct (exec r [] [] []) as [[caps rest]|] eqn:E; [|intros []].
    intros [<-|[]]. eauto.
  - destruct skip; [|apply IH].
    destruct (exec r (c :: s) [] []) as [[caps rest]|] eqn:E; [|apply IH].
    intros [<-|Hin]; [eauto | eapply IH, Hin].
Qed.

End ReFacts.

(** ** Numerals and [int] *)

Section Numerals.

Lemma ascii_eqb_code (c d : ascii) : Ascii.eqb c d = true -> code c = code d.
Proof. intros H. apply Ascii.eqb_eq in H. congruence. Qed.

Lemma digit_facts (c : ascii) :
  is_digit c = true ->
  is_int_space c = false /\ is_space c = false
  /\ Ascii.eqb c "+" = false /\ Ascii.eqb c "-" = false
  /\ Ascii.eqb c "_" = false
  /\ digit_value c = Some (code c - 48) /\ 0 <= code c - 48 < 10.
Proof.
  unfold is_digit, is_int_space, is_space, digit_value. intros H.
  assert (Hc : 48 <= code c <= 57) by lia.
  assert (Hne : forall d, code d < 48 \/ 57 < code d -> Ascii.eqb c d = false).
  { intros d Hd. apply not_true_is_false. intros E.
    apply ascii_eqb_code in E. lia. }
  split; [lia|]. split; [lia|].
  split; [apply Hne; vm_compute; left; reflexivity|].
  split; [apply Hne; vm_compute; left; reflexivity|].
  split; [apply Hne; vm_compute; right; reflexivity|].
  split; [|lia].
  replace ((48 <=? code c) && (code c <=? 57))%bool with true by lia.
  reflexivity.
Qed.

Lemma int_digits_numeral (s : list ascii) (seen : bool) (acc : Z) :
  Forall (fun c => is_digit c = true) s -> s <> [] \/ seen = true ->
  int_digits 10 s seen false acc
  = Some (fold_left (fun acc c => acc * 10 + (code c - 48)) s acc).
Proof.
  intros Hs. revert seen acc.
  induction Hs as [|c s Hc Hs IH]; intros seen acc Hne; simpl.
  - destruct Hne as [?| ->]; [congruence | reflexivity].
  - destruct (digit_facts c Hc) as (_ & _ & _ & _ & -> & -> & Hv).
    replace (code c - 48 <? 10) with true by lia.
    apply IH. right. reflexivity.
Qed.

Lemma int_lstrip_digit (c : ascii) (s : list ascii) :
  is_int_space c = false -> int_lstrip (c :: s) = c :: s.
Proof. intros H. simpl. rewrite H. reflexivity. Qed.

(** A text whose first and last characters are not blanks for [int] is
    left as it is by the trimming of [int]. *)
Lemma int_trim_id (s : list ascii) :
  (forall c s', s = c :: s' -> is_int_space c = false) ->
  (forall c s', rev s = c :: s' -> is_int_space c = false) ->
  rev (int_lstrip (rev (int_lstrip s))) = s.
Proof.
  intros Hfirst Hlast.
  assert (E1 : int_lstrip s = s).
  { destruct s as [|c s']; [reflexivity|].
    apply int_lstrip_digit. eapply Hfirst. reflexivity. }
  rewrite E1.
  assert (E2 : int_lstrip (rev s) = rev s).
  { destruct (rev s) as [|c s'] eqn:E; [reflexivity|].
    apply int_lstrip_digit. eapply Hlast. reflexivity. }
  rewrite E2. apply rev_involutive.
Qed.

Lemma numeral_ends (s : list ascii) :
  Forall (fun c => is_digit c = true) s ->
  forall c s', rev s = c :: s' -> is_int_space c = false.
Proof.
  intros Hs c s' E.
  assert (Hin : In c (rev s)) by (rewrite E; left; reflexivity).
  apply in_rev in Hin. rewrite Forall_forall in Hs.
  apply list_elem_of_In in Hin. apply (digit_facts c (Hs c Hin)).
Qed.

Lemma int_prefix_10 (s : list ascii) : int_prefix 10 s = s.
Proof. destruct s as [|z [|x s]]; reflexivity. Qed.

(** [int] reads a numeral as the number it denotes. *)
Lemma int_numeral (s : list ascii) :
  numeral s -> int s 10 = Ok (numeral_value s).
Proof.
  intros [Hne Hs]. unfold int.
  rewrite int_trim_id.
  - destruct s as [|c s']; [congruence|].
    apply Forall_cons in Hs as Hc. destruct Hc as [Hc _].
    destruct (digit_facts c Hc) as (_ & _ & -> & -> & _).
    rewrite int_prefix_10, int_digits_numeral by auto.
    unfold numeral_value. f_equal.
    destruct (fold_left _ _ _); reflexivity.
  - intros c s' ->. apply Forall_cons in Hs as [Hc _].
    apply (digit_facts c Hc).
  - apply numeral_ends, Hs.
Qed.

Lemma int_signed (s : list ascii) :
  signed_numeral s -> int s 10 = Ok (signed_value s).
Proof.
  intros [Hn | (s' & -> & [Hne Hs])].
  - rewrite int_numeral by exact Hn. f_equal.
    destruct Hn as [Hne Hs]. destruct s as [|c s']; [congruence|].
    apply Forall_cons in Hs as [Hc _].
    destruct (digit_facts c Hc) as (_ & _ & _ & E & _).
    unfold signed_value. rewrite E. reflexivity.
  - unfold int. rewrite int_trim_id.
    + change (Ascii.eqb "-" "+") with false.
      change (Ascii.eqb "-" "-") with true. cbv iota.
      rewrite int_prefix_10, int_digits_numeral by auto.
      unfold signed_value, numeral_value.
      change (Ascii.eqb "-" "-") with true. cbv iota. f_equal; lia.
    + intros c s0 [= <- <-]. reflexivity.
    + intros c s0 E. simpl in E.
      destruct (rev s') as [|d t] eqn:Er.
      * apply (f_equal (@rev ascii)) in Er. rewrite rev_involutive in Er.
        simpl in Er. congruence.
      * simpl in E. injection E as <- <-.
        eapply numeral_ends; eassumption.
Qed.

Lemma numeral_value_nonneg (s : list ascii) :
  Forall (fun c => is_digit c = true) s -> 0 <= numeral_value s.
Proof.
  unfold numeral_value. intros Hs.
  assert (H : forall acc, 0 <= acc ->
            0 <= fold_left (fun acc c => acc * 10 + (code c - 48)) s acc).
  { induction Hs as [|c s Hc Hs IH]; intros acc Hacc; simpl; [exact Hacc|].
    apply IH. destruct (digit_facts c Hc) as (_ & _ & _ & _ & _ & _ & Hv).
    lia. }
  apply H. lia.
Qed.

End Numerals.

(** ** The bitmap font decoder *)

Section Loops.

Context {A S : Type}.

Lemma for_each_invariant (P : S -> Prop) (xs : list A)
  (body : S -> A -> result S) (s s' : S) :
  P s ->
  (forall s x s', In x xs -> P s -> body s x = Ok s' -> P s') ->
  for_each xs body s = Ok s' -> P s'.
Proof.
  revert s. induction xs as [|x xs IH]; intros s Hs Hstep; simpl.
  - intros [= <-]. exact Hs.
  - destruct (body s x) as [s1|e] eqn:E; simpl; [|discriminate].
    apply IH.
    + eapply Hstep; [left; reflexivity | exact Hs | exact E].
    + intros s0 x0 s0' Hin. apply Hstep. right. exact Hin.
Qed.


End Loops.

Lemma comprehension_length {A B} (f : A -> result B) (xs : list A) (ys : list B) :
  comprehension f xs = Ok ys -> length ys = length xs.
Proof.
  revert ys. induction xs as [|x xs IH]; intros ys; simpl.
  - intros [= <-]. reflexivity.
  - destruct (f x) as [y|]; simpl; [|discriminate].
    destruct (comprehension f xs) as [ys'|]; simpl; [|discriminate].
    intros [= <-]. simpl. f_equal. apply IH. reflexivity.
Qed.

Lemma comprehension_raise {A B} (f : A -> result B) (g : A -> B)
  (xs : list A) (x : A) (zs : list A) (e : exn) :
  (forall a, In a xs -> f a = Ok (g a)) -> f x = Raise e ->
  comprehension f (xs ++ x :: zs) = Raise e.
Proof.
  intros Hxs Hx. induction xs as [|a xs IH]; simpl.
  - rewrite Hx. reflexivity.
  - rewrite (Hxs a) by (left; reflexivity). simpl.
    rewrite IH by (intros; apply Hxs; right; assumption). reflexivity.
Qed.

Lemma range_length (n : Z) : len (range n) = Z.max 0 n.
Proof. unfold len. rewrite range_spec, length_map, length_seq. lia. Qed.

Lemma in_range (n i : Z) : In i (range n) <-> 0 <= i < n.
Proof.
  rewrite range_spec, in_map_iff. split.
  - intros (k & <- & Hk). apply in_seq in Hk. lia.
  - intros Hi. exists (Z.to_nat i). split; [lia|]. apply in_seq. lia.
Qed.

(** The mask test of the source reads one bit of the row value. *)
Lemma mask_test (val n : Z) :
  0 <= n -> negb (Z.land val (Z.shiftl 1 n) =? 0) = Z.testbit val n.
Proof.
  intros Hn. rewrite Z.shiftl_1_l.
  destruct (Z.testbit val n) eqn:E.
  - apply negb_true_iff, Z.eqb_neq. intros H0.
    apply (f_equal (fun z => Z.testbit z n)) in H0.
    rewrite Z.land_spec, E, Z.pow2_bits_true, Z.bits_0 in H0 by exact Hn.
    discriminate.
  - apply negb_false_iff, Z.eqb_eq, Z.bits_inj'. intros i Hi.
    rewrite Z.land_spec, Z.bits_0, Z.pow2_bits_eqb by exact Hn.
    destruct (Z.eqb_spec n i) as [<-|]; [rewrite E; reflexivity|].
    apply andb_false_r.
Qed.

(** A row of a glyph at most 8 wide: pixel [i] is bit [7 - i] of the value
    of the whole line. *)
Lemma bitmap_row_narrow (w val : Z) :
  w <= 8 ->
  bitmap_row w val = Ok (map (fun bit => Z.testbit val (7 - bit)) (range w)).
Proof.
  intros Hw. unfold bitmap_row. apply comprehension_ok.
  intros bit Hbit. apply in_range in Hbit. unfold lshift.
  replace (7 - bit <? 0) with false by lia. simpl.
  rewrite mask_test by lia. reflexivity.
Qed.

Lemma seq_from (a n : nat) : seq a n = map (Nat.add a) (seq 0 n).
Proof.
  revert a. induction n as [|n IH]; intros a; simpl; [reflexivity|].
  f_equal; [lia|]. rewrite (IH (S a)), (IH 1%nat), map_map.
  apply map_ext. intros k. lia.
Qed.

(** A row of a glyph more than 8 wide: the shift count goes negative at
    bit 8 and the decoder raises. *)
Lemma bitmap_row_wide (w val : Z) :
  8 < w -> bitmap_row w val = Raise ValueError.
Proof.
  intros Hw. unfold bitmap_row.
  assert (E : range w = range 8 ++ 8 :: map (fun k => 9 + Z.of_nat k)
                                         (seq 0 (Z.to_nat (w - 9)))).
  { rewrite !range_spec.
    replace (Z.to_nat w) with (Z.to_nat 8 + S (Z.to_nat (w - 9)))%nat by lia.
    rewrite seq_app, map_app. f_equal.
    change (0 + Z.to_nat 8)%nat with 8%nat. cbn [seq map]. f_equal.
    rewrite (seq_from 9), map_map. apply map_ext. intros k. lia. }
  rewrite E.
  apply (comprehension_raise _ (fun bit => Z.testbit val (7 - bit))).
  - intros bit Hbit. apply in_range in Hbit. unfold lshift.
    replace (7 - bit <? 0) with false by lia. simpl.
    rewrite mask_test by lia. reflexivity.
  - reflexivity.
Qed.

Lemma bitmap_row_length (w val : Z) (row : list bool) :
  bitmap_row w val = Ok row -> len row = Z.max 0 w.
Proof.
  intros H. apply comprehension_length in H. unfold len. rewrite H.
  apply range_length.
Qed.

Section BitmapBlock.

Variable w : Z.

Local Notation "'body'" :=
  (fun (bitmap : list (list bool)) (line : list ascii) =>
     match strip line with
     | [] => Ok bitmap
     | _ :: _ =>
         let* val := int (strip line) 16 in
         let* row := bitmap_row w val in
         Ok (bitmap ++ [row])
     end).

Lemma bitmap_loop_shape (lines : list (list ascii)) :
  forall acc bm,
    for_each lines body acc = Ok bm ->
    Forall (fun row => len row = Z.max 0 w) acc ->
    Forall (fun row => len row = Z.max 0 w) bm
    /\ length bm
       = (length acc
          + length (filter (fun line => line <> []) (map strip lines)))%nat.
Proof.
  induction lines as [|line lines IH]; intros acc bm; simpl.
  - intros [= <-] Hacc. split; [exact Hacc | lia].
  - destruct (strip line) as [|c t] eqn:E.
    + simpl. rewrite filter_cons_False by auto. apply IH.
    + rewrite filter_cons_True by discriminate.
      destruct (int (c :: t) 16) as [val|]; simpl; [|discriminate].
      destruct (bitmap_row w val) as [row|] eqn:Er; simpl; [|discriminate].
      intros H Hacc. apply IH in H as [Hall Hlen].
      * split; [exact Hall|]. rewrite Hlen, length_app. simpl. lia.
      * apply Forall_app. split; [exact Hacc|].
        constructor; [|constructor]. eapply bitmap_row_length, Er.
Qed.


(** The decoded bitmap has one row per bitmap line of the block, each as
    long as the declared width. *)
Lemma bitmap_rows_shape (block : list ascii) (bm : list (list bool)) :
  bitmap_rows w block = Ok bm ->
  Forall (fun row => len row = Z.max 0 w) bm
  /\ len bm = len (bitmap_lines block).
Proof.
  intros H. apply bitmap_loop_shape in H as [Hall Hlen]; [|constructor].
  split; [exact Hall|]. unfold len, bitmap_lines. rewrite Hlen. reflexivity.
Qed.


End BitmapBlock.

(** On a matched record the header fields never raise: only the bitmap
    block can. *)
Lemma parse_record_match (self : BDFFont) (s : list ascii)
  (m : Re.match_object) (rest : list ascii) :
  Re.exec GLYPH_RE s [] [] = Some (m, rest) ->
  0 <= numeral_value (Re.group_of m 2)
  /\ 0 <= numeral_value (Re.group_of m 3)
  /\ parse_record self m
     = let* bitmap :=
         bitmap_rows (numeral_value (Re.group_of m 2)) (Re.group_of m 6) in
       Ok (mkFont (<[numeral_value (Re.group_of m 1) := glyph_of m bitmap]>
                     (glyphs self))
             (width self) (height self)).
Proof.
  intros H. apply ReFacts.glyph_match_inv in H
    as ((g1 & g2 & g3 & g4 & g5 & g6 & -> & H1 & H2 & H3 & H4 & H5) & _).
  unfold parse_record, glyph_of, Re.group_of. simpl nth.
  rewrite (int_numeral g1 H1), (int_numeral g2 H2), (int_numeral g3 H3),
    (int_signed g4 H4), (int_signed g5 H5). simpl.
  split; [apply numeral_value_nonneg, H2|].
  split; [apply numeral_value_nonneg, H3|]. reflexivity.
Qed.

(** The bounding-box step of [_parse] never raises and keeps the glyphs. *)
Lemma parse_boundingbox (self : BDFFont) (content : list ascii) :
  0 <= width self -> 0 <= height self ->
  exists width' height',
    0 <= width' /\ 0 <= height'
    /\ match Re.search BOUNDINGBOX_RE content with
       | Some m =>
           let* width' := int (Re.group_of m 1) 10 in
           let* height' := int (Re.group_of m 2) 10 in
           Ok (mkFont (glyphs self) width' height')
       | None => Ok self
       end = Ok (mkFont (glyphs self) width' height').
Proof.
  intros Hw Hh.
  destruct (Re.search BOUNDINGBOX_RE content) as [m|] eqn:E.
  - apply ReFacts.search_inv in E as (s' & rest & E).
    apply ReFacts.boundingbox_match_inv in E as (g1 & g2 & -> & H1 & H2).
    unfold Re.group_of. simpl nth.
    rewrite (int_numeral g1 H1), (int_numeral g2 H2). simpl.
    exists (numeral_value g1), (numeral_value g2).
    split; [apply numeral_value_nonneg, H1|].
    split; [apply numeral_value_nonneg, H2|]. reflexivity.
  - exists (width self), (height self). destruct self. auto.
Qed.


Lemma for_each_all_ok {A S} (xs : list A) (body : S -> A -> result S) (s s' : S) :
  for_each xs body s = Ok s' ->
  forall x, In x xs -> exists s1 s2, body s1 x = Ok s2.
Proof.
  revert s. induction xs as [|a xs IH]; intros s; simpl; [intros _ x []|].
  destruct (body s a) as [s1|] eqn:E; simpl; [|discriminate].
  intros H x [<-|Hin]; [eauto | eapply IH; eassumption].
Qed.

(** The decoder, once the text is read: the bounding-box step gives a
    default size, then the matched records are decoded in turn. *)
Lemma parse_steps (content : list ascii) :
  exists width' height',
    0 <= width' /\ 0 <= height'
    /\ BDFFont_init (Ok content)
       = for_each (Re.finditer GLYPH_RE content) parse_record
           (mkFont ∅ width' height').
Proof.
  destruct (parse_boundingbox (mkFont ∅ 4 8) content)
    as (w0 & h0 & Hw0 & Hh0 & E); [simpl; lia | simpl; lia |].
  exists w0, h0. split; [exact Hw0|]. split; [exact Hh0|].
  unfold BDFFont_init, _parse. cbn [bind]. rewrite E. reflexivity.
Qed.

(** Every font the decoder returns has a default size that is not
    negative, and each of its glyphs comes from a matched record: its rows
    are as many as the bitmap lines of the record and as long as the
    declared width. *)
Lemma decoded_font (content : list ascii) (font : BDFFont) :
  BDFFont_init (Ok content) = Ok font ->
  0 <= width font /\ 0 <= height font
  /\ forall enc g, glyphs font !! enc = Some g ->
       exists m bitmap,
         In m (Re.finditer GLYPH_RE content)
         /\ enc = numeral_value (Re.group_of m 1)
         /\ g = glyph_of m bitmap
         /\ 0 <= g_w g /\ 0 <= g_h g
         /\ Forall (fun row => len row = g_w g) bitmap
         /\ len bitmap = len (bitmap_lines (Re.group_of m 6)).
Proof.
  destruct (parse_steps content) as (w0 & h0 & Hw0 & Hh0 & ->).
  intros Hloop. pattern font.
  eapply for_each_invariant; [| |exact Hloop].
  - simpl. split; [exact Hw0|]. split; [exact Hh0|].
    intros enc g H. rewrite lookup_empty in H. discriminate.
  - intros self m self' Hin (Hw & Hh & Hg) Hstep.
    apply ReFacts.scan_inv in Hin as Hm. destruct Hm as (s' & rest & Hm).
    destruct (parse_record_match self _ _ _ Hm) as (Hgw & Hgh & E).
    rewrite E in Hstep.
    destruct (bitmap_rows _ _) as [bitmap|] eqn:Eb; simpl in Hstep;
      [|discriminate].
    injection Hstep as <-. simpl.
    split; [exact Hw|]. split; [exact Hh|].
    intros enc g Hl. apply lookup_insert_Some in Hl as [[<- <-]|[_ Hl]].
    + apply bitmap_rows_shape in Eb as [Hall Hlen].
      exists m, bitmap. rewrite Z.max_r in Hall by exact Hgw.
      simpl. auto 10.
    + apply Hg, Hl.
Qed.

(** C8 as stated fails: a record that declares 2 rows and gives 1 is
    stored with height 2 and a matrix of 1 row. *)
Lemma glyph_matrix_counterexample :
  exists font g,
    BDFFont_init (Ok short_bitmap_bdf) = Ok font
    /\ glyphs font !! 65 = Some g
    /\ g_h g = 2 /\ len (g_bitmap g) = 1.
Proof.
  eexists. eexists. split; [vm_compute; reflexivity|].
  split; [vm_compute; reflexivity|]. split; reflexivity.
Qed.

(** C8 (amended): every glyph stored in a decoded font has a width and a
    height that are not negative and a pixel matrix whose rows are each
    exactly [w] booleans; the matrix has one row per bitmap line of the
    record the glyph was decoded from, so it has [h] rows exactly when the
    record gives [h] bitmap lines. *)
Theorem decoded_glyph_matrix (content : list ascii) (font : BDFFont)
  (enc : Z) (g : Glyph) :
  BDFFont_init (Ok content) = Ok font -> glyphs font !! enc = Some g ->
  0 <= g_w g /\ 0 <= g_h g
  /\ Forall (fun row => len row = g_w g) (g_bitmap g)
  /\ exists m,
       In m (Re.finditer GLYPH_RE content)
       /\ enc = numeral_value (Re.group_of m 1)
       /\ g_w g = numeral_value (Re.group_of m 2)
       /\ g_h g = numeral_value (Re.group_of m 3)
       /\ len (g_bitmap g) = len (bitmap_lines (Re.group_of m 6))
       /\ (len (g_bitmap g) = g_h g <->
           len (bitmap_lines (Re.group_of m 6))
           = numeral_value (Re.group_of m 3)).
Proof.
  intros Hfont Hg.
  destruct (decoded_font content font Hfont) as (_ & _ & Hall).
  destruct (Hall enc g Hg)
    as (m & bitmap & Hin & -> & -> & Hw & Hh & Hrows & Hlen).
  simpl in *. split; [exact Hw|]. split; [exact Hh|].
  split; [exact Hrows|].
  exists m. rewrite Hlen. tauto.
Qed.

Lemma decoded_glyph_matrix_witness :
  exists font g,
    BDFFont_init (Ok short_bitmap_bdf) = Ok font
    /\ glyphs font !! 65 = Some g
    /\ Forall (fun row => len row = g_w g) (g_bitmap g).
Proof.
  assert (Hfont : BDFFont_init (Ok short_bitmap_bdf)
                  = Ok (mkFont {[ 65 := mkGlyph 5 2 0 0
                                          [[true; true; true; true; true]] ]}
                          5 2))
    by (vm_compute; reflexivity).
  eexists. eexists. split; [exact Hfont|].
  split; [vm_compute; reflexivity|].
  eapply (decoded_glyph_matrix short_bitmap_bdf _ 65 _ Hfont).
  vm_compute. reflexivity.
Defined.

(** C2 (what the code does at the inputs of the claim): pixel [i] of a row
    is bit [7 - i] of the number the whole line denotes, so only the last
    byte of the line is read.  The row [80] of a glyph 8 wide decodes to its
    leading dot; the same row with a trailing padding byte, [8000], decodes
    to 8 clear pixels; and the two-byte row of a glyph 9 wide makes the
    shift count negative, so the decoder raises instead of giving 9
    booleans. *)
Theorem bitmap_row_reads_last_byte :
  bitmap_rows 8 (text_of "80")
  = Ok [[true; false; false; false; false; false; false; false]]
  /\ bitmap_rows 8 (text_of "8000")
     = Ok [[false; false; false; false; false; false; false; false]]
  /\ (exists font,
        BDFFont_init (Ok unpadded_bdf) = Ok font
        /\ g_bitmap <$> glyphs font !! 65
           = Some [[true; false; false; false; false; false; false; false]])
  /\ (exists font,
        BDFFont_init (Ok padded_bdf) = Ok font
        /\ g_bitmap <$> glyphs font !! 65
           = Some [[false; false; false; false; false; false; false; false]])
  /\ bitmap_rows 9 (text_of "FF80") = Raise ValueError
  /\ BDFFont_init (Ok wide_bdf) = Raise ValueError.
Proof.
  split; [vm_compute; reflexivity|].
  split; [vm_compute; reflexivity|].
  split; [eexists; split; vm_compute; reflexivity|].
  split; [eexists; split; vm_compute; reflexivity|].
  split; vm_compute; reflexivity.
Qed.




(** ** Running the pattern on a well-formed record *)

Module ReRun.
Import Re.

Section Forward.

Variables (r : regex) (opened : list (list ascii)) (caps : list (list ascii)).
Variable m : list (list ascii) * list ascii.

Lemma exec_lit_fwd l s :
  exec r s opened caps = Some m ->
  exec (Lit l :: r) (l ++ s) opened caps = Some m.
Proof. intros H. simpl. rewrite ReFacts.strip_prefix_app. exact H. Qed.

(** A greedy star that can take all of [u] and no more, after which the
    rest of the pattern matches, takes exactly [u]. *)
Lemma exec_greedy_fwd k u s :
  Forall (fun c => accepts k c = true) u ->
  starts_with (accepts k) s = false ->
  exec r s opened caps = Some m ->
  exec (Star k true :: r) (u ++ s) opened caps = Some m.
Proof.
  intros Hu Hs H. induction Hu as [|c u Hc Hu IH].
  - simpl. destruct s as [|c s']; [exact H|].
    simpl in Hs. rewrite Hs. exact H.
  - simpl in *. rewrite Hc, IH. reflexivity.
Qed.

Lemma exec_one_fwd k c s :
  accepts k c = true ->
  exec r s opened caps = Some m ->
  exec (One k :: r) (c :: s) opened caps = Some m.
Proof. intros Hc H. cbn [exec]. rewrite Hc. exact H. Qed.



(** [k+] on one character of the class followed by none. *)
Lemma exec_plus_one_fwd k c s :
  accepts k c = true -> starts_with (accepts k) s = false ->
  exec r s opened caps = Some m ->
  exec (One k :: Star k true :: r) (c :: s) opened caps = Some m.
Proof.
  intros Hc Hs H. cbn [exec]. rewrite Hc.
  apply (exec_greedy_fwd k [] s); [constructor | exact Hs | exact H].
Qed.



End Forward.

Section ForwardGroups.

Variables (r : regex) (opened : list (list ascii)) (caps : list (list ascii)).
Variable m : list (list ascii) * list ascii.



(** [(\d+)] captures a numeral that no digit follows. *)
Lemma exec_numeral_fwd g s :
  numeral g -> starts_with is_digit s = false ->
  exec r s opened (caps ++ [g]) = Some m ->
  exec (Open :: One Digit :: Star Digit true :: Close :: r) (g ++ s)
    opened caps = Some m.
Proof.
  intros [Hne Hg] Hs H. destruct g as [|d u]; [congruence|].
  apply Forall_cons in Hg as [Hd Hu].
  change (exec (One Digit :: Star Digit true :: Close :: r) (d :: u ++ s)
            (((d :: u) ++ s) :: opened) caps = Some m).
  apply exec_one_fwd; [exact Hd|].
  apply exec_greedy_fwd; [exact Hu | exact Hs |].
  cbn [exec]. rewrite ReFacts.take_consumed. exact H.
Qed.


End ForwardGroups.

Lemma numeral_start (p : ascii -> bool) (g s : list ascii) :
  numeral g -> (forall c, is_digit c = true -> p c = false) ->
  starts_with p (g ++ s) = false.
Proof.
  intros [Hne Hg] Hp. destruct g as [|d u]; [congruence|].
  apply Forall_cons in Hg as [Hd _]. simpl. apply Hp, Hd.
Qed.


Lemma has_char_app (c : ascii) (pre : list ascii) (d : ascii) (v : list ascii) :
  has_char c (pre ++ d :: v) = false -> Ascii.eqb c d = false.
Proof.
  unfold has_char. rewrite existsb_app. simpl.
  intros H. apply orb_false_elim in H as [_ H].
  apply orb_false_elim in H as [H _]. exact H.
Qed.



Section Scanning.

Variable r : regex.





End Scanning.

Lemma occurs_suffix (p pre v : list ascii) :
  occurs p (pre ++ v) = false -> occurs p v = false.
Proof.
  induction pre as [|c pre IH]; [auto|]. cbn [app occurs].
  destruct (strip_prefix p (c :: pre ++ v)); [discriminate | exact IH].
Qed.

Lemma occurs_start (p v : list ascii) :
  occurs p v = false -> strip_prefix p v = None.
Proof.
  destruct v; cbn [occurs]; destruct (strip_prefix p _); congruence.
Qed.

Lemma occurs_here (p pre post : list ascii) :
  occurs p (pre ++ p ++ post) = true.
Proof.
  destruct (occurs p (pre ++ p ++ post)) eqn:E; [reflexivity|].
  apply occurs_suffix, occurs_start in E.
  rewrite ReFacts.strip_prefix_app in E. discriminate.
Qed.






End ReRun.



Example sample_source :
  misspelt_header ++ record_text record_A ++ separator
  ++ record_text record_B ++ cut_off_record
  = text_of
"STARTFONT 2.1
FONTBOUNDINGBOX 5 2 0 0
STARTCHAR bad
ENCODNG 64
BBX 5 1 0 0
BITMAP
F8
ENDCHAR
STARTCHAR A
ENCODING 65
SWIDTH 500 0
DWIDTH 5 0
BBX 5 1 0 0
BITMAP
F8
ENDCHAR
STARTCHAR B
ENCODING 66
BBX 5 2 1 -1
BITMAP
88
70
ENDCHAR
STARTCHAR C
ENCODING 67
BBX 5 1 0 0
BITMAP
70
".
Proof. vm_compute. reflexivity. Qed.


(** * Further properties of the code *)

(** ** The encoder loses nothing *)

(** Two canvases of one size with the same pixels are the same canvas. *)
Lemma canvas_ext (b1 b2 : list (list bool)) (H W : Z) :
  canvas b1 H W -> canvas b2 H W ->
  (forall y x, 0 <= y < H -> 0 <= x < W ->
               pixel_at b1 y x = pixel_at b2 y x) ->
  b1 = b2.
Proof.
  intros Hc1 Hc2 Hpix.
  pose proof Hc1 as [Hl1 _]. pose proof Hc2 as [Hl2 _]. unfold len in *.
  apply list_eq. intros i.
  destruct (b1 !! i) as [r1|] eqn:E1.
  - apply lookup_lt_Some in E1 as Hi.
    destruct (lookup_lt_is_Some_2 b2 i ltac:(lia)) as [r2 E2]. rewrite E2.
    f_equal.
    pose proof (canvas_row _ _ _ Hc1 _ _ E1) as Hw1.
    pose proof (canvas_row _ _ _ Hc2 _ _ E2) as Hw2. unfold len in *.
    apply list_eq. intros j.
    destruct (r1 !! j) as [p1|] eqn:P1.
    + apply lookup_lt_Some in P1 as Hj.
      destruct (lookup_lt_is_Some_2 r2 j ltac:(lia)) as [p2 P2]. rewrite P2.
      specialize (Hpix (Z.of_nat i) (Z.of_nat j) ltac:(lia) ltac:(lia)).
      unfold pixel_at in Hpix.
      replace ((0 <=? Z.of_nat i) && (0 <=? Z.of_nat j))%bool with true
        in Hpix by lia.
      rewrite !Nat2Z.id, E1, E2, P1, P2 in Hpix. simpl in Hpix. congruence.
    + apply lookup_ge_None in P1. symmetry. apply lookup_ge_None. lia.
  - apply lookup_ge_None in E1. symmetry. apply lookup_ge_None. lia.
Qed.

(** A dot of a cell character is set exactly when its pixel is. *)
Lemma cell_char_bit (bitmap : list (list bool)) (y x dx dy : Z) :
  In (dx, dy) cell_positions ->
  negb (Z.land (cell_char bitmap y x) (dot_bit dx dy) =? 0)
  = pixel_at bitmap (y + dy) (x + dx).
Proof.
  intros Hin. unfold cell_char. unfold cell_positions at 1. simpl map.
  simpl in Hin.
  destruct (pixel_at bitmap (y + 0) (x + 0)) eqn:P00,
    (pixel_at bitmap (y + 1) (x + 0)) eqn:P01,
    (pixel_at bitmap (y + 2) (x + 0)) eqn:P02,
    (pixel_at bitmap (y + 3) (x + 0)) eqn:P03,
    (pixel_at bitmap (y + 0) (x + 1)) eqn:P10,
    (pixel_at bitmap (y + 1) (x + 1)) eqn:P11,
    (pixel_at bitmap (y + 2) (x + 1)) eqn:P12,
    (pixel_at bitmap (y + 3) (x + 1)) eqn:P13;
    repeat (destruct Hin as [[= <- <-]|Hin];
            [first [rewrite P00 | rewrite P01 | rewrite P02 | rewrite P03
                   | rewrite P10 | rewrite P11 | rewrite P12 | rewrite P13];
             reflexivity|]);
    destruct Hin.
Qed.

Lemma cell_of_pixel (H y : Z) (k : Z) :
  0 < k -> 0 <= y < H -> 0 <= y / k < ceil_div H k.
Proof.
  intros Hk Hy. split; [apply Z.div_pos; lia|].
  unfold ceil_div.
  apply Z.lt_le_trans with ((y + 1 * k) / k).
  - rewrite Z.div_add by lia. lia.
  - apply Z.div_le_mono; lia.
Qed.

Lemma position_in_cell (y x : Z) :
  In (x mod 2, y mod 4) cell_positions.
Proof.
  pose proof (Z.mod_pos_bound x 2 ltac:(lia)).
  pose proof (Z.mod_pos_bound y 4 ltac:(lia)).
  assert (Hx : x mod 2 = 0 \/ x mod 2 = 1) by lia.
  assert (Hy : y mod 4 = 0 \/ y mod 4 = 1 \/ y mod 4 = 2 \/ y mod 4 = 3) by lia.
  destruct Hx as [-> | ->], Hy as [-> | [-> | [-> | ->]]]; simpl; tauto.
Qed.

(** Every pixel of a canvas can be read back from the output: the
    character of its cell holds its dot. *)
Lemma decode_pixel (bitmap : list (list bool)) (H W y x : Z) :
  canvas bitmap H W -> 0 <= y < H -> 0 <= x < W ->
  exists c,
    join [newline] (braille_lines bitmap H W)
      !! Z.to_nat (y / 4 * (ceil_div W 2 + 1) + x / 2) = Some c
    /\ pixel_at bitmap y x
       = negb (Z.land c (dot_bit (x mod 2) (y mod 4)) =? 0).
Proof.
  intros Hc Hy Hx. eexists. split.
  - apply braille_char_at; apply cell_of_pixel; lia.
  - rewrite cell_char_bit by apply position_in_cell.
    f_equal.
    + pose proof (Z.div_mod y 4 ltac:(lia)). lia.
    + pose proof (Z.div_mod x 2 ltac:(lia)). lia.
Qed.

(** X1: round trip of the encoder.  On a canvas the encoder succeeds, and
    pixel [(y, x)] is set exactly when the character of cell
    [(y / 4, x / 2)] of the output has the dot of position
    [(x mod 2, y mod 4)] set. *)
Theorem encoder_round_trip (bitmap : list (list bool)) (H W y x : Z) :
  canvas bitmap H W -> 0 <= y < H -> 0 <= x < W ->
  exists out c,
    _bitmap_to_braille bitmap = Ok out
    /\ out !! Z.to_nat (y / 4 * (ceil_div W 2 + 1) + x / 2) = Some c
    /\ pixel_at bitmap y x
       = negb (Z.land c (dot_bit (x mod 2) (y mod 4)) =? 0).
Proof.
  intros Hc Hy Hx.
  destruct (decode_pixel bitmap H W y x Hc Hy Hx) as (c & Hout & Hpix).
  exists (join [newline] (braille_lines bitmap H W)), c.
  split; [apply bitmap_to_braille_lines; (assumption || lia)|].
  split; assumption.
Qed.

Lemma encoder_round_trip_witness :
  exists out c,
    _bitmap_to_braille narrow_column = Ok out
    /\ out !! 0%nat = Some c
    /\ pixel_at narrow_column 2 0 = negb (Z.land c (dot_bit 0 2) =? 0).
Proof.
  refine (encoder_round_trip narrow_column 3 1 2 0 _ _ _).
  - split; [reflexivity | repeat constructor].
  - lia.
  - lia.
Defined.

(** X2: the encoder is injective on canvases of one size: two canvases
    that are both [H] high and [W] wide and encode to the same string are
    equal. *)
Theorem encoder_injective (b1 b2 : list (list bool)) (H W : Z) :
  canvas b1 H W -> canvas b2 H W ->
  _bitmap_to_braille b1 = _bitmap_to_braille b2 ->
  b1 = b2.
Proof.
  intros Hc1 Hc2 Heq. apply (canvas_ext b1 b2 H W Hc1 Hc2).
  intros y x Hy Hx.
  rewrite (bitmap_to_braille_lines b1 H W Hc1) in Heq by lia.
  rewrite (bitmap_to_braille_lines b2 H W Hc2) in Heq by lia.
  injection Heq as Heq.
  destruct (decode_pixel b1 H W y x Hc1 Hy Hx) as (c1 & Ho1 & ->).
  destruct (decode_pixel b2 H W y x Hc2 Hy Hx) as (c2 & Ho2 & ->).
  rewrite Heq in Ho1. congruence.
Qed.

Lemma encoder_injective_witness : narrow_column = narrow_column.
Proof.
  refine (encoder_injective narrow_column narrow_column 3 1 _ _ _).
  - split; [reflexivity | repeat constructor].
  - split; [reflexivity | repeat constructor].
  - reflexivity.
Defined.

(** ** What the output is made of *)

Lemma join_Forall {A} (P : A -> Prop) (sep : A) (lines : list (list A)) :
  P sep -> Forall (Forall P) lines -> Forall P (join [sep] lines).
Proof.
  intros Hsep. induction 1 as [|l lines Hl Hlines IH]; [constructor|].
  destruct lines as [|l' lines]; [exact Hl|].
  rewrite join_cons by discriminate.
  apply Forall_app. split; [exact Hl|].
  apply Forall_cons. split; [exact Hsep | exact IH].
Qed.

(** The encoder accepts every canvas, also one without rows or columns. *)
Lemma encoder_accepts_canvas (bitmap : list (list bool)) (H W : Z) :
  canvas bitmap H W ->
  _bitmap_to_braille bitmap
  = Ok (if (0 <? H) && (0 <? W)
        then join [newline] (braille_lines bitmap H W) else []).
Proof.
  intros Hc. destruct (Z.ltb_spec 0 H) as [HH|HH]; simpl.
  - destruct (Z.ltb_spec 0 W) as [HW|HW].
    + apply bitmap_to_braille_lines; assumption.
    + destruct Hc as [Hlen Hall]. destruct bitmap as [|row0 rest]; [reflexivity|].
      apply Forall_cons in Hall as [Hrow0 _]. unfold len in Hrow0.
      destruct row0; [reflexivity | simpl in Hrow0; lia].
  - destruct Hc as [Hlen _]. unfold len in Hlen.
    destruct bitmap; [reflexivity | simpl in Hlen; lia].
Qed.

(** X3: the output of the encoder on a canvas holds only line breaks and
    characters of the braille block U+2800..U+28FF, and for a canvas with
    no pixel set only line breaks and the blank pattern U+2800. *)
Theorem encoder_alphabet (bitmap : list (list bool)) (H W : Z) :
  canvas bitmap H W ->
  exists out,
    _bitmap_to_braille bitmap = Ok out
    /\ Forall (fun c => c = newline \/ 0x2800 <= c <= 0x28FF) out
    /\ ((forall y x, pixel_at bitmap y x = false) ->
        Forall (fun c => c = newline \/ c = 0x2800) out).
Proof.
  intros Hc. eexists. split; [apply encoder_accepts_canvas, Hc|].
  destruct ((0 <? H) && (0 <? W))%bool; [|repeat constructor].
  split.
  - apply join_Forall; [left; reflexivity|].
    unfold braille_lines. apply Forall_forall. intros l Hl.
    apply list_elem_of_In, in_map_iff in Hl as (i & <- & _).
    apply Forall_forall. intros c Hin.
    apply list_elem_of_In, in_map_iff in Hin as (j & <- & _).
    right. apply cell_char_range.
  - intros Hblank. apply join_Forall; [left; reflexivity|].
    unfold braille_lines. apply Forall_forall. intros l Hl.
    apply list_elem_of_In, in_map_iff in Hl as (i & <- & _).
    apply Forall_forall. intros c Hin.
    apply list_elem_of_In, in_map_iff in Hin as (j & <- & _).
    right. unfold cell_char. unfold cell_positions. simpl map.
    rewrite !Hblank. reflexivity.
Qed.

Lemma encoder_alphabet_witness :
  exists out,
    _bitmap_to_braille top_left_dot = Ok out
    /\ Forall (fun c => c = newline \/ 0x2800 <= c <= 0x28FF) out.
Proof.
  destruct (encoder_alphabet top_left_dot 4 2) as (out & E & Hall & _).
  - split; [reflexivity | repeat constructor].
  - exists out. split; assumption.
Defined.

(** ** The bitmap-font path as a whole *)

(** What the canvas of [render] measures. *)
Lemma render_canvas (self : BDFFont) (text : list Z) (spacing : Z) :
  exists bitmap,
    render self text spacing = Ok bitmap
    /\ canvas bitmap
         (Z.max 0 (height_for self (Z.max 0 (spec_max_ascent self text))
                     (spec_max_descent self text)))
         (Z.max 0 (canvas_width self text spacing)).
Proof.
  destruct (render_spec self text spacing) as (bitmap & E & Hc & _).
  exists bitmap. split; assumption.
Qed.



(** X6: with the empty text the bitmap-font path gives the empty string
    whenever the font decodes (the canvas has rows of no pixels). *)
Theorem bdf_path_empty_text (read_text : result (list ascii))
  (font : BDFFont) (spacing : Z) :
  BDFFont_init read_text = Ok font ->
  bdf_text_to_braille [] read_text spacing = Ok [].
Proof.
  intros E. unfold bdf_text_to_braille. rewrite E. cbn [bind].
  destruct (render_canvas font [] spacing) as (bitmap & -> & Hc).
  cbn [bind]. rewrite (encoder_accepts_canvas _ _ _ Hc).
  replace (canvas_width font [] spacing) with 0
    by (unfold canvas_width, len; simpl; lia).
  rewrite andb_false_r. reflexivity.
Qed.

Lemma bdf_path_empty_text_witness :
  bdf_text_to_braille [] (Ok underscore_bdf) 3 = Ok [].
Proof.
  apply (bdf_path_empty_text (Ok underscore_bdf) underscore_font 3).
  vm_compute. reflexivity.
Defined.

(** X7: the size of the art.  For a decoded font, a text that is not
    empty, a positive default width and a spacing that is not negative,
    the output has one line per 4 rows of the canvas height (rounded up)
    and each line one character per 2 columns of
    [len(text) * width + (len(text) - 1) * spacing] (rounded up). *)
Theorem bdf_path_art_size (text : list Z) (read_text : result (list ascii))
  (font : BDFFont) (spacing : Z) :
  BDFFont_init read_text = Ok font ->
  text <> [] -> 0 < width font -> 0 <= spacing ->
  0 < height_for font (Z.max 0 (spec_max_ascent font text))
        (spec_max_descent font text) ->
  exists lines,
    bdf_text_to_braille text read_text spacing = Ok (join [newline] lines)
    /\ len lines
       = ceil_div (height_for font (Z.max 0 (spec_max_ascent font text))
                     (spec_max_descent font text)) 4
    /\ Forall (fun l => len l
                        = ceil_div (len text * width font
                                    + (len text - 1) * spacing) 2)
         lines.
Proof.
  intros E Hne Hw Hsp Hh. unfold bdf_text_to_braille. rewrite E. cbn [bind].
  destruct (render_canvas font text spacing) as (bitmap & -> & Hc).
  cbn [bind].
  assert (Hl : 0 < len text)
    by (unfold len; destruct text; [congruence | simpl; lia]).
  assert (Ew : canvas_width font text spacing
               = len text * width font + (len text - 1) * spacing).
  { unfold canvas_width. rewrite Z.max_r by lia. reflexivity. }
  assert (Hcw : 0 < canvas_width font text spacing) by (rewrite Ew; nia).
  rewrite (Z.max_r 0 (height_for _ _ _)),
    (Z.max_r 0 (canvas_width _ _ _)) in Hc by lia.
  rewrite (bitmap_to_braille_lines _ _ _ Hc) by assumption.
  eexists. split; [reflexivity|].
  pose proof (ceil_div_spec (height_for font (Z.max 0 (spec_max_ascent font text))
                               (spec_max_descent font text)) 4 ltac:(lia)).
  pose proof (ceil_div_spec (canvas_width font text spacing) 2 ltac:(lia)).
  split.
  - unfold len. rewrite braille_lines_length. lia.
  - rewrite <- Ew. eapply Forall_impl; [apply braille_lines_width|].
    intros l Hlen. unfold len. simpl in Hlen. rewrite Hlen. lia.
Qed.

Lemma bdf_path_art_size_witness :
  exists lines,
    bdf_text_to_braille [32; 95] (Ok underscore_bdf) 1
    = Ok (join [newline] lines)
    /\ len lines = 1.
Proof.
  destruct (bdf_path_art_size [32; 95] (Ok underscore_bdf) underscore_font 1)
    as (lines & E & Hl & _).
  - vm_compute. reflexivity.
  - discriminate.
  - vm_compute. reflexivity.
  - lia.
  - vm_compute. reflexivity.
  - exists lines. split; [exact E | exact Hl].
Defined.


(** ** How the decoder fails *)

Lemma for_each_raise_inv {A S} (xs : list A) (body : S -> A -> result S)
  (s : S) (e : exn) :
  for_each xs body s = Raise e ->
  exists x s1, In x xs /\ body s1 x = Raise e.
Proof.
  revert s. induction xs as [|a xs IH]; intros s; simpl; [discriminate|].
  destruct (body s a) as [s1|e'] eqn:E; simpl.
  - intros H. destruct (IH _ H) as (x & s2 & Hin & Hx). eauto.
  - intros [= <-]. eauto.
Qed.

Lemma comprehension_raise_inv {A B} (f : A -> result B) (xs : list A) (e : exn) :
  comprehension f xs = Raise e -> exists x, In x xs /\ f x = Raise e.
Proof.
  induction xs as [|a xs IH]; simpl; [discriminate|].
  destruct (f a) as [y|e'] eqn:E; simpl.
  - destruct (comprehension f xs) as [ys|e'']; simpl; [discriminate|].
    intros [= <-]. destruct IH as (x & Hin & Hx); eauto.
  - intros [= <-]. eauto.
Qed.

Lemma int_raises (s : list ascii) (base : Z) (e : exn) :
  int s base = Raise e -> e = ValueError.
Proof.
  unfold int. destruct (rev _) as [|c t]; try destruct (Ascii.eqb c "+");
    try destruct (Ascii.eqb c "-");
    destruct (int_digits _ _ _ _ _); congruence.
Qed.

Lemma bitmap_row_raises (w val : Z) (e : exn) :
  bitmap_row w val = Raise e -> e = ValueError.
Proof.
  intros H. apply comprehension_raise_inv in H as (bit & _ & H).
  unfold lshift in H. destruct (7 - bit <? 0); simpl in H; congruence.
Qed.

Lemma bitmap_rows_raises (w : Z) (block : list ascii) (e : exn) :
  bitmap_rows w block = Raise e -> e = ValueError.
Proof.
  intros H. apply for_each_raise_inv in H as (line & bm & _ & H).
  destruct (strip line) as [|c t]; [discriminate|].
  destruct (int (c :: t) 16) as [val|e'] eqn:Ei; simpl in H.
  - destruct (bitmap_row w val) as [row|e'] eqn:Er; simpl in H;
      [discriminate|].
    injection H as <-. eapply bitmap_row_raises, Er.
  - injection H as <-. eapply int_raises, Ei.
Qed.

(** Decoding the text of a source raises nothing but [ValueError]. *)
Lemma decoder_raises_value_error (content : list ascii) (e : exn) :
  BDFFont_init (Ok content) = Raise e -> e = ValueError.
Proof.
  destruct (parse_steps content) as (w0 & h0 & _ & _ & ->). intros H.
  apply for_each_raise_inv in H as (m & self & Hin & H).
  apply ReFacts.scan_inv in Hin as (s' & rest & Hm).
  destruct (parse_record_match self _ _ _ Hm) as (_ & _ & E).
  rewrite E in H.
  destruct (bitmap_rows _ _) as [bm|e'] eqn:Eb; simpl in H; [discriminate|].
  injection H as <-. eapply bitmap_rows_raises, Eb.
Qed.

(** X8: decoding never fails with anything but the exception of the read
    or [ValueError]: a source that was read decodes to a Font or raises
    [ValueError] (from a bitmap line), never an index or type error. *)
Theorem decoder_failure_kind (content : list ascii) :
  (exists font, BDFFont_init (Ok content) = Ok font)
  \/ BDFFont_init (Ok content) = Raise ValueError.
Proof.
  destruct (BDFFont_init (Ok content)) as [font|e] eqn:E; [eauto|].
  right. f_equal. eapply decoder_raises_value_error, E.
Qed.

Lemma bitmap_loop_rows (w : Z) (lines : list (list ascii)) :
  forall acc bm,
    for_each lines
      (fun bitmap line =>
         match strip line with
         | [] => Ok bitmap
         | _ :: _ =>
             let* val := int (strip line) 16 in
             let* row := bitmap_row w val in
             Ok (bitmap ++ [row])
         end) acc = Ok bm ->
    filter (fun line => line <> []) (map strip lines) = [] \/ w <= 8.
Proof.
  induction lines as [|line lines IH]; intros acc bm; simpl; [auto|].
  destruct (strip line) as [|c t] eqn:E.
  - rewrite filter_cons_False by auto. apply IH.
  - destruct (int (c :: t) 16) as [val|]; simpl; [|discriminate].
    destruct (Z.le_gt_cases w 8) as [Hw|Hw]; [auto|].
    rewrite bitmap_row_wide by lia. discriminate.
Qed.

(** X9: a font with a glyph wider than 8 pixels cannot be loaded.  If any
    matched record declares a width above 8 and has a bitmap line, the
    decoder raises [ValueError] (the shift count [7 - bit] goes
    negative). *)
Theorem decoder_rejects_wide_glyph (content : list ascii) (m : Re.match_object) :
  In m (Re.finditer GLYPH_RE content) ->
  8 < numeral_value (Re.group_of m 2) ->
  bitmap_lines (Re.group_of m 6) <> [] ->
  BDFFont_init (Ok content) = Raise ValueError.
Proof.
  intros Hin Hw Hlines.
  destruct (BDFFont_init (Ok content)) as [font|e] eqn:E.
  - exfalso. revert E.
    destruct (parse_steps content) as (w0 & h0 & _ & _ & ->). intros Hloop.
    destruct (for_each_all_ok _ _ _ _ Hloop m Hin) as (s1 & s2 & Hstep).
    apply ReFacts.scan_inv in Hin as (s' & rest & Hm).
    destruct (parse_record_match s1 _ _ _ Hm) as (_ & _ & Er).
    rewrite Er in Hstep.
    destruct (bitmap_rows _ _) as [bm|] eqn:Eb; [|discriminate].
    apply bitmap_loop_rows in Eb as [Eb|Eb]; [|lia].
    apply Hlines, Eb.
  - f_equal. eapply decoder_raises_value_error, E.
Qed.

Lemma decoder_rejects_wide_glyph_witness :
  BDFFont_init (Ok wide_bdf) = Raise ValueError.
Proof.
  apply (decoder_rejects_wide_glyph wide_bdf
           [ text_of "65"; text_of "9"; text_of "1"; text_of "0";
             text_of "0"; text_of "FF80" ]).
  - vm_compute. left. reflexivity.
  - vm_compute. reflexivity.
  - vm_compute. discriminate.
Defined.

(** ** What the decoder takes from a source *)

Lemma search_inv_suffix (r : Re.regex) (s : list ascii) (m : Re.match_object) :
  Re.search r s = Some m ->
  exists pre s' rest, s = pre ++ s' /\ Re.exec r s' [] [] = Some (m, rest).
Proof.
  induction s as [|c s IH]; simpl.
  - destruct (Re.exec r [] [] []) as [[caps rest]|] eqn:E; [|discriminate].
    intros [= <-]. exists [], [], rest. auto.
  - destruct (Re.exec r (c :: s) [] []) as [[caps rest]|] eqn:E.
    + intros [= <-]. exists [], (c :: s), rest. auto.
    + intros H. destruct (IH H) as (pre & s' & rest & -> & Hm).
      exists (c :: pre), s', rest. auto.
Qed.

Lemma search_hit (r : Re.regex) (s rest : list ascii) (m : Re.match_object) :
  Re.exec r s [] [] = Some (m, rest) -> Re.search r s = Some m.
Proof. intros H. destruct s; simpl; rewrite H; reflexivity. Qed.

Lemma search_pass (r : Re.regex) (j rest : list ascii) :
  (forall pre c v, j = pre ++ c :: v ->
                   Re.exec r (c :: v ++ rest) [] [] = None) ->
  Re.search r (j ++ rest) = Re.search r rest.
Proof.
  induction j as [|c j IH]; intros Hj; [reflexivity|].
  cbn [app Re.search]. rewrite (Hj [] c j eq_refl).
  apply IH. intros pre c' v E. apply (Hj (c :: pre) c' v).
  rewrite E. reflexivity.
Qed.

(** A match of the bounding-box pattern starts with its keyword. *)
Lemma boundingbox_match_start (s : list ascii) (m : Re.match_object)
  (rest : list ascii) :
  Re.exec BOUNDINGBOX_RE s [] [] = Some (m, rest) ->
  exists tail, s = text_of "FONTBOUNDINGBOX" ++ tail.
Proof.
  unfold BOUNDINGBOX_RE, Re.lit. cbn [app]. intros H.
  apply ReFacts.exec_lit_inv in H as (s' & -> & _). eauto.
Qed.

(** The decoder, once the text is read, with the default size named. *)
Lemma parse_steps_box (content : list ascii) :
  BDFFont_init (Ok content)
  = for_each (Re.finditer GLYPH_RE content) parse_record
      (mkFont ∅ (fst (declared_box content)) (snd (declared_box content))).
Proof.
  unfold BDFFont_init, _parse, declared_box. cbn [bind].
  destruct (Re.search BOUNDINGBOX_RE content) as [m|] eqn:E; [|reflexivity].
  apply ReFacts.search_inv in E as (s' & rest & E).
  apply ReFacts.boundingbox_match_inv in E as (g1 & g2 & -> & H1 & H2).
  unfold Re.group_of. simpl nth.
  rewrite (int_numeral g1 H1), (int_numeral g2 H2). reflexivity.
Qed.

(** The default size of a decoded font is the declared one. *)
Lemma decoded_box (content : list ascii) (font : BDFFont) :
  BDFFont_init (Ok content) = Ok font ->
  (width font, height font) = declared_box content.
Proof.
  rewrite parse_steps_box. intros Hloop. pattern font.
  eapply for_each_invariant; [| |exact Hloop].
  - simpl. destruct (declared_box content). reflexivity.
  - intros self m self' Hin Hbox Hstep.
    apply ReFacts.scan_inv in Hin as (s' & rest & Hm).
    destruct (parse_record_match self _ _ _ Hm) as (_ & _ & E).
    rewrite E in Hstep.
    destruct (bitmap_rows _ _) as [bm|]; [|discriminate].
    injection Hstep as <-. exact Hbox.
Qed.



(** X11: a decoded font whose source does not hold the keyword
    [FONTBOUNDINGBOX] has the default size 4 by 8. *)
Theorem decoder_default_box (content : list ascii) (font : BDFFont) :
  BDFFont_init (Ok content) = Ok font ->
  occurs (text_of "FONTBOUNDINGBOX") content = false ->
  width font = 4 /\ height font = 8.
Proof.
  intros Hfont Hno. apply decoded_box in Hfont.
  unfold declared_box in Hfont.
  destruct (Re.search BOUNDINGBOX_RE content) as [m|] eqn:E.
  - exfalso. apply search_inv_suffix in E as (pre & s' & rest & -> & E).
    apply boundingbox_match_start in E as [tail ->].
    rewrite ReRun.occurs_here in Hno. discriminate.
  - injection Hfont as -> ->. auto.
Qed.

Lemma decoder_default_box_witness :
  exists font,
    BDFFont_init (Ok boxless_bdf) = Ok font
    /\ width font = 4 /\ height font = 8.
Proof.
  assert (Hfont : BDFFont_init (Ok boxless_bdf)
                  = Ok (mkFont {[ 65 := mkGlyph 5 1 0 0
                                          [[true; true; true; true; true]] ]}
                          4 8))
    by (vm_compute; reflexivity).
  eexists. split; [exact Hfont|].
  apply (decoder_default_box boxless_bdf _ Hfont).
  vm_compute. reflexivity.
Defined.

Lemma strip_prefix_overlap (p u : list ascii) (k0 : ascii) (t x : list ascii) :
  Re.strip_prefix p (u ++ k0 :: t) = Some x ->
  (exists u', u = p ++ u') \/ (exists p', p = u ++ k0 :: p').
Proof.
  revert u. induction p as [|a p IH]; intros u H; [left; eauto|].
  destruct u as [|b u]; cbn [app Re.strip_prefix] in H.
  - destruct (Ascii.eqb_spec a k0) as [->|]; [|discriminate].
    right. exists p. reflexivity.
  - destruct (Ascii.eqb_spec a b) as [->|]; [|discriminate].
    destruct (IH u H) as [[u' ->] | [p' ->]].
    + left. exists u'. reflexivity.
    + right. exists p'. reflexivity.
Qed.

(** A keyword whose first character does not come back in it starts
    nowhere in a text that does not hold it, even when a copy follows. *)
Lemma keyword_absent (k0 : ascii) (ktail j pre : list ascii) (c : ascii)
  (v tail : list ascii) :
  has_char k0 ktail = false ->
  occurs (k0 :: ktail) j = false -> j = pre ++ c :: v ->
  Re.strip_prefix (k0 :: ktail) (c :: v ++ (k0 :: ktail) ++ tail) = None.
Proof.
  intros Hk Hj ->. apply ReRun.occurs_suffix, ReRun.occurs_start in Hj.
  destruct (Re.strip_prefix _ (c :: v ++ _)) as [x|] eqn:E; [|reflexivity].
  exfalso.
  change (c :: v ++ (k0 :: ktail) ++ tail)
    with ((c :: v) ++ k0 :: (ktail ++ tail)) in E.
  apply strip_prefix_overlap in E as [[u' E] | [p' E]].
  - rewrite E, ReFacts.strip_prefix_app in Hj. discriminate.
  - injection E as _ E. rewrite E in Hk.
    apply ReRun.has_char_app in Hk. rewrite Ascii.eqb_refl in Hk.
    discriminate.
Qed.

(** The bounding-box pattern on a declaration. *)
Lemma exec_boundingbox (w h rest : list ascii) :
  numeral w -> numeral h -> starts_with is_digit rest = false ->
  Re.exec BOUNDINGBOX_RE
    (text_of "FONTBOUNDINGBOX" ++ SP :: w ++ SP :: h ++ rest) [] []
  = Some ([w; h], rest).
Proof.
  intros Hw Hh Hrest.
  assert (Hds : forall c, is_digit c = true -> is_space c = false)
    by (intros c Hc; apply (digit_facts c Hc)).
  unfold BOUNDINGBOX_RE, Re.lit, Re.plus, Re.group. cbn [app].
  apply ReRun.exec_lit_fwd.
  apply ReRun.exec_plus_one_fwd;
    [reflexivity | apply ReRun.numeral_start; assumption|].
  apply ReRun.exec_numeral_fwd; [exact Hw | reflexivity|].
  apply ReRun.exec_plus_one_fwd;
    [reflexivity | apply ReRun.numeral_start; assumption|].
  apply ReRun.exec_numeral_fwd; [exact Hh | exact Hrest|].
  reflexivity.
Qed.

(** X12: the first bounding-box declaration gives the default size.  When
    the text before a declaration [FONTBOUNDINGBOX w h] does not hold the
    keyword and no digit follows [h], a decoded font has width [w] and
    height [h], whatever comes later in the source. *)
Theorem decoder_first_box (pre w h rest : list ascii) (font : BDFFont) :
  numeral w -> numeral h ->
  occurs (text_of "FONTBOUNDINGBOX") pre = false ->
  starts_with is_digit rest = false ->
  BDFFont_init
    (Ok (pre ++ text_of "FONTBOUNDINGBOX" ++ SP :: w ++ SP :: h ++ rest))
  = Ok font ->
  width font = numeral_value w /\ height font = numeral_value h.
Proof.
  intros Hw Hh Hpre Hrest Hfont. apply decoded_box in Hfont.
  unfold declared_box in Hfont.
  rewrite search_pass in Hfont.
  - rewrite (search_hit _ _ _ _ (exec_boundingbox w h rest Hw Hh Hrest))
      in Hfont.
    injection Hfont as -> ->. auto.
  - intros pre' c v E. unfold BOUNDINGBOX_RE, Re.lit. cbn [app Re.exec].
    change (text_of "FONTBOUNDINGBOX")
      with ("F"%char :: text_of "ONTBOUNDINGBOX") in *.
    rewrite (keyword_absent "F" (text_of "ONTBOUNDINGBOX") pre pre' c v _
               eq_refl Hpre E).
    reflexivity.
Qed.

Lemma decoder_first_box_witness :
  width underscore_font = numeral_value (text_of "5")
  /\ height underscore_font = numeral_value (text_of "7").
Proof.
  assert (Hnum : forall s, s <> [] -> forallb is_digit s = true -> numeral s).
  { intros s Hne Hs. split; [exact Hne|].
    apply Forall_forall. intros c Hc. rewrite forallb_forall in Hs.
    apply Hs, list_elem_of_In, Hc. }
  apply (decoder_first_box (text_of "STARTFONT 2.1
") (text_of "5") (text_of "7") (text_of " 0 -2
CHARS 1
STARTCHAR underscore
ENCODING 95
SWIDTH 500 0
DWIDTH 5 0
BBX 5 1 0 -2
BITMAP
F8
ENDCHAR
ENDFONT
")).
  - apply Hnum; [discriminate | reflexivity].
  - apply Hnum; [discriminate | reflexivity].
  - vm_compute. reflexivity.
  - reflexivity.
  - vm_compute. reflexivity.
Defined.

(** X13: what every decoded font satisfies.  Its default width and height
    are not negative; every character code it holds is not negative, as
    are the width and height of every glyph (only the offsets can be
    negative); and a glyph that has any row is at most 8 wide. *)
Theorem decoded_font_ranges (content : list ascii) (font : BDFFont) :
  BDFFont_init (Ok content) = Ok font ->
  0 <= width font /\ 0 <= height font
  /\ forall enc g, glyphs font !! enc = Some g ->
       0 <= enc /\ 0 <= g_w g /\ 0 <= g_h g
       /\ (g_bitmap g <> [] -> g_w g <= 8).
Proof.
  intros Hfont.
  destruct (decoded_font content font Hfont) as (Hw & Hh & Hglyphs).
  split; [exact Hw|]. split; [exact Hh|].
  revert Hfont. destruct (parse_steps content) as (w0 & h0 & _ & _ & ->).
  intros Hloop enc g Hg.
  destruct (Hglyphs enc g Hg) as (_ & _ & _ & _ & _ & Hgw & Hgh & _).
  assert (Hinv : forall enc g, glyphs font !! enc = Some g ->
                   0 <= enc /\ (g_bitmap g <> [] -> g_w g <= 8)).
  { pattern font. eapply for_each_invariant; [| |exact Hloop].
    - intros enc' g' H. simpl in H. rewrite lookup_empty in H. discriminate.
    - intros self m self' Hin IH Hstep.
      apply ReFacts.scan_inv in Hin as (s' & rest & Hm).
      destruct (parse_record_match self _ _ _ Hm) as (_ & _ & E).
      rewrite E in Hstep.
      destruct (bitmap_rows _ _) as [bm|] eqn:Eb; [|discriminate].
      injection Hstep as <-. simpl. intros enc' g' Hl.
      apply lookup_insert_Some in Hl as [[<- <-]|[_ Hl]]; [|apply IH, Hl].
      apply ReFacts.glyph_match_inv in Hm
        as ((g1 & g2 & g3 & g4 & g5 & g6 & -> & H1 & _) & _).
      split; [apply numeral_value_nonneg, H1|].
      simpl. intros Hne.
      pose proof (bitmap_rows_shape _ _ _ Eb) as [_ Hlen].
      apply bitmap_loop_rows in Eb as [Eb|Eb]; [|exact Eb].
      exfalso. apply Hne. unfold bitmap_lines in Hlen. rewrite Eb in Hlen.
      unfold len in Hlen. destruct bm; [reflexivity | simpl in Hlen; lia]. }
  destruct (Hinv enc g Hg) as [Henc Hwide]. auto.
Qed.

Lemma decoded_font_ranges_witness :
  0 <= width underscore_font /\ 0 <= height underscore_font.
Proof.
  destruct (decoded_font_ranges underscore_bdf underscore_font)
    as (Hw & Hh & _); [vm_compute; reflexivity|].
  split; assumption.
Defined.

(** ** Sources of any number of records *)







(** ** Rows of a bitmap block *)

Lemma bitmap_loop_values (w : Z) (lines : list (list ascii)) :
  w <= 8 ->
  forall vals acc,
    Forall2 (fun line val => int line 16 = Ok val)
      (filter (fun line => line <> []) (map strip lines)) vals ->
    for_each lines
      (fun bitmap line =>
         match strip line with
         | [] => Ok bitmap
         | _ :: _ =>
             let* val := int (strip line) 16 in
             let* row := bitmap_row w val in
             Ok (bitmap ++ [row])
         end) acc
    = Ok (acc ++ map (fun val => map (fun bit => Z.testbit val (7 - bit))
                                   (range w)) vals).
Proof.
  intros Hw. induction lines as [|line lines IH]; intros vals acc Hv; simpl.
  - simpl in Hv. apply Forall2_nil_inv_l in Hv as ->.
    simpl. rewrite app_nil_r. reflexivity.
  - simpl in Hv. destruct (strip line) as [|c t] eqn:E.
    + rewrite filter_cons_False in Hv by auto. simpl. apply IH, Hv.
    + rewrite filter_cons_True in Hv by discriminate.
      apply Forall2_cons_inv_l in Hv as (val & vals' & Hval & Hv & ->).
      rewrite Hval. simpl. rewrite bitmap_row_narrow by exact Hw. simpl.
      rewrite (IH vals' _ Hv). simpl. rewrite <- app_assoc. reflexivity.
Qed.

(** X15: in a glyph at most 8 wide the bitmap block decodes row by row.
    Blank lines and blanks around a row are skipped; the rows are kept in
    order; and pixel [i] of a row is bit [7 - i] of the number its line
    denotes, so a one-byte row is read from its most significant bit. *)
Theorem bitmap_rows_values (w : Z) (block : list ascii) (vals : list Z) :
  w <= 8 ->
  Forall2 (fun line val => int line 16 = Ok val) (bitmap_lines block) vals ->
  bitmap_rows w block
  = Ok (map (fun val => map (fun bit => Z.testbit val (7 - bit)) (range w))
          vals).
Proof.
  intros Hw Hv. unfold bitmap_rows.
  rewrite (bitmap_loop_values w _ Hw vals [] Hv). reflexivity.
Qed.

Lemma bitmap_rows_values_witness :
  bitmap_rows 5 (text_of "
  F8

 88  ")
  = Ok (map (fun val => map (fun bit => Z.testbit val (7 - bit)) (range 5))
          [0xF8; 0x88]).
Proof.
  apply bitmap_rows_values; [lia|].
  assert (E : bitmap_lines (text_of "
  F8

 88  ") = [text_of "F8"; text_of "88"]) by (vm_compute; reflexivity).
  rewrite E. repeat constructor.
Defined.

(** ** The outline path beyond the first line *)

(** X16: a size that is not a preset cannot be rendered.  For a pair that
    is not in the table [get_preset] gives a tuple of one element, and
    [text_to_braille] given that tuple and a text that is not empty raises
    [ValueError] when it unpacks it, before any call of the imaging
    library. *)
Theorem unlisted_size_raises (braille_w braille_h : Z) (text font_path : list Z)
  (font_size : option Z) (threshold : Z) (St : Type) (lib : library St)
  (st : St) :
  PRESETS !! (braille_w, braille_h) = None -> text <> [] ->
  run lib st
    (text_to_braille text font_path (get_preset braille_w braille_h)
       font_size threshold)
  = (Raise ValueError, st, []).
Proof.
  intros Hout Hne. rewrite (get_preset_unlisted _ _ Hout).
  destruct text; [congruence | reflexivity].
Qed.

Lemma unlisted_size_raises_witness :
  run no_fonts tt (text_to_braille [72; 105] [102] (get_preset 5 3) None 128)
  = (Raise ValueError, tt, []).
Proof.
  apply unlisted_size_raises; [vm_compute; reflexivity | discriminate].
Defined.

(** X17: how [text_to_braille] opens the font.  With a text that is not
    empty and a pair of numbers as [char_size], the first call is
    [truetype] with the given point size, or with the larger of the two
    character sizes when the point size is [None] or 0.  If that call
    raises [OSError], the built-in font is loaded next; if it raises
    anything else, that exception is the result and no other call is
    made. *)
Theorem font_fallback (St : Type) (lib : library St) (st st' : St)
  (c : Z) (text font_path : list Z) (char_w char_h : Z)
  (font_size : option Z) (threshold : Z) (e : exn) :
  respond lib st (Truetype font_path (requested_size char_w char_h font_size))
  = (Raise e, st') ->
  let opened : call_record :=
    existT _ (Truetype font_path (requested_size char_w char_h font_size)) in
  let outcome :=
    run lib st
      (text_to_braille (c :: text) font_path [VInt char_w; VInt char_h]
         font_size threshold) in
  (e <> OSError -> outcome = (Raise e, st', [opened]))
  /\ (e = OSError ->
      exists r st'' calls,
        outcome = (r, st'', opened :: existT _ LoadDefault :: calls)).
Proof.
  intros Hopen opened outcome. subst opened outcome.
  unfold text_to_braille, requested_size in *.
  assert (Esize :
    match font_size with
    | Some size =>
        if size =? 0
        then let* w := as_int (VInt char_w) in
             let* h := as_int (VInt char_h) in Ok (Z.max w h)
        else Ok size
    | None => let* w := as_int (VInt char_w) in
              let* h := as_int (VInt char_h) in Ok (Z.max w h)
    end
    = Ok match font_size with
         | Some size => if size =? 0 then Z.max char_w char_h else size
         | None => Z.max char_w char_h
         end).
  { destruct font_size as [size|]; [destruct (size =? 0)|]; reflexivity. }
  rewrite Esize. cbn [pbind run]. rewrite Hopen.
  split.
  - intros Hne. destruct e; try congruence; reflexivity.
  - intros ->. cbn [pbind call run].
    destruct (respond lib st' LoadDefault) as [answer st1].
    match goal with
    | |- context [run lib st1 ?p] =>
        destruct (run lib st1 p) as [[r st2] calls]
    end.
    eauto.
Qed.

Lemma font_fallback_witness :
  exists r st calls,
    run no_fonts tt
      (text_to_braille [65] [102] [VInt 16; VInt 8] None 128)
    = (r, st,
       existT _ (Truetype [102] 16) :: existT _ LoadDefault :: calls).
Proof.
  apply (proj2 (font_fallback unit no_fonts tt tt 65 [] [102] 16 8 None 128
                  OSError eq_refl) eq_refl).
Defined.

Lemma run_pbind {St A B} (lib : library St) (m : prog A) (f : A -> prog B) :
  forall st,
    run lib st (pbind m f)
    = let '(r, st', calls) := run lib st m in
      match r with
      | Ok a =>
          let '(r', st'', calls') := run lib st' (f a) in
          (r', st'', calls ++ calls')
      | Raise e => (Raise e, st', calls)
      end.
Proof.
  induction m as [[a|e]|X c k IH]; intros st; cbn [pbind run].
  - destruct (run lib st (f a)) as [[r' st''] calls']. reflexivity.
  - reflexivity.
  - destruct (respond lib st c) as [answer st1]. rewrite IH.
    destruct (run lib st1 (k answer)) as [[r st2] calls].
    destruct r as [a|e]; [|reflexivity].
    destruct (run lib st2 (f a)) as [[r' st3] calls']. reflexivity.
Qed.

Section Raster.

Variable px : Z -> Z -> Z.

Lemma run_draw (img font : nat) (char_w : Z) (chars : list (Z * Z))
  (st : Z * Z) :
  exists calls,
    run (raster_lib px) st
      (pfor_each chars
         (fun _ '(i, char) => call (DrawText img (i * char_w) 0 char font 0))
         tt)
    = (Ok tt, st, calls).
Proof.
  induction chars as [|[i ch] chars [calls IH]]; cbn [pfor_each].
  - eexists. reflexivity.
  - rewrite run_pbind. cbn [call run respond raster_lib]. rewrite IH.
    eexists. reflexivity.
Qed.

Lemma run_pixels (img : nat) (threshold y : Z) (xs : list Z) (st : Z * Z) :
  exists calls,
    run (raster_lib px) st
      (pcomprehension
         (fun x => do* p := call (GetPixel img x y) in
                   Ret (Ok (p <? threshold))) xs)
    = (Ok (map (fun x => px x y <? threshold) xs), st, calls).
Proof.
  induction xs as [|x xs [calls IH]]; cbn [pcomprehension].
  - eexists. reflexivity.
  - rewrite run_pbind. cbn [call run respond raster_lib pbind].
    cbn [call pbind] in IH. rewrite run_pbind, IH. cbn [run].
    eexists. reflexivity.
Qed.

Lemma run_rows (img : nat) (threshold : Z) (ys : list Z) (st : Z * Z) :
  exists calls,
    run (raster_lib px) st
      (pcomprehension
         (fun y =>
            do* img_width := call (ImageWidth img) in
            pcomprehension
              (fun x => do* p := call (GetPixel img x y) in
                        Ret (Ok (p <? threshold)))
              (range img_width)) ys)
    = (Ok (map (fun y => map (fun x => px x y <? threshold) (range (fst st)))
             ys), st, calls).
Proof.
  induction ys as [|y ys [calls IH]]; cbn [pcomprehension].
  - eexists. reflexivity.
  - rewrite run_pbind, run_pbind. cbn [call run respond raster_lib].
    destruct (run_pixels img threshold y (range (fst st)) st) as [calls' ->].
    rewrite run_pbind, IH. cbn [run]. eexists. reflexivity.
Qed.

Lemma run_outline (c : Z) (text font_path : list Z)
  (char_w char_h : Z) (font_size : option Z) (threshold : Z) (st : Z * Z) :
  exists calls,
    run (raster_lib px) st
      (text_to_braille (c :: text) font_path [VInt char_w; VInt char_h]
         font_size threshold)
    = (_bitmap_to_braille
         (map (fun y =>
                 map (fun x => px x y <? threshold)
                   (range (char_w * len (c :: text))))
            (range char_h)),
       (char_w * len (c :: text), char_h), calls).
Proof.
  unfold text_to_braille.
  assert (Esize :
    match font_size with
    | Some size =>
        if size =? 0
        then let* w := as_int (VInt char_w) in
             let* h := as_int (VInt char_h) in Ok (Z.max w h)
        else Ok size
    | None => let* w := as_int (VInt char_w) in
              let* h := as_int (VInt char_h) in Ok (Z.max w h)
    end = Ok (requested_size char_w char_h font_size)).
  { unfold requested_size.
    destruct font_size as [size|]; [destruct (size =? 0)|]; reflexivity. }
  rewrite Esize. cbn [pbind as_int call run respond raster_lib].
  rewrite run_pbind.
  destruct (run_draw 0 0 char_w (enumerate (c :: text))
              (char_w * len (c :: text), char_h)) as [calls1 ->].
  cbn [run respond raster_lib snd]. rewrite run_pbind.
  destruct (run_rows 0 threshold (range char_h)
              (char_w * len (c :: text), char_h)) as [calls2 Erows].
  cbn [call pbind] in Erows. rewrite Erows.
  cbn [run fst]. eexists. reflexivity.
Qed.

(** X18: what the outline path encodes.  Run against a library that holds
    a raster, [text_to_braille] on a text that is not empty makes an image
    [char_w * len(text)] wide and [char_h] high and returns the encoding
    of the canvas of that size in which a pixel is set exactly when the
    raster value there is strictly below the threshold. *)
Theorem outline_path_threshold (c : Z) (text font_path : list Z)
  (char_w char_h : Z) (font_size : option Z) (threshold : Z) (st : Z * Z) :
  exists calls,
    run (raster_lib px) st
      (text_to_braille (c :: text) font_path [VInt char_w; VInt char_h]
         font_size threshold)
    = (_bitmap_to_braille
         (map (fun y =>
                 map (fun x => px x y <? threshold)
                   (range (char_w * len (c :: text))))
            (range char_h)),
       (char_w * len (c :: text), char_h), calls).
Proof.
  apply run_outline.
Qed.

End Raster.

(** ** The command line *)

Lemma map_to_list_PRESETS (k : Z * Z) (entry : list value) :
  PRESETS !! k = Some entry -> In (k, entry) PRESETS_items.
Proof.
  intros Hin. apply elem_of_map_to_list in Hin.
  assert (Hl : (k, entry) ∈ map_to_list PRESETS) by exact Hin.
  vm_compute in Hl. unfold PRESETS_items.
  repeat (apply elem_of_cons in Hl as [-> | Hl]; [simpl; tauto|]).
  inversion Hl.
Qed.

(** X19: the listing mode.  With [--list-presets], [main] prints the
    heading and one line per entry of the preset table and returns,
    whatever the other arguments are: it reads no file and calls the
    imaging library never.  Every entry of the table is listed with its
    description, and the pixel size its line shows, twice the width and
    four times the height, is the size [get_preset] gives for it. *)
Theorem cli_lists_presets (args : cli.Namespace)
  (read_text : list ascii -> result (list ascii))
  (St : Type) (lib : library St) (st : St) :
  cli.list_presets args = true ->
  exists presets,
    list_presets = Ok presets
    /\ run lib st (cli.main args read_text)
       = (Ok (cli.Print
                (cli.codes
                   (text_of "Available presets (braille WxH -> pixel WxH):"))
              :: map (fun entry => cli.Print (cli.preset_line entry)) presets,
              cli.Return), st, [])
    /\ length presets = size PRESETS
    /\ (forall bw bh entry,
          PRESETS !! (bw, bh) = Some entry ->
          exists description,
            In ((bw, bh), description) presets
            /\ getitem entry 2 = Ok description
            /\ get_preset bw bh = [VInt (bw * 2); VInt (bh * 4)]).
Proof.
  intros Hflag. eexists. split; [vm_compute; reflexivity|].
  split; [|split].
  - unfold cli.main. rewrite Hflag. cbn [run]. reflexivity.
  - vm_compute. reflexivity.
  - intros bw bh entry Hin.
    pose proof (get_preset_listed _ _ _ Hin) as Hget. rewrite Hget.
    apply map_to_list_PRESETS in Hin. unfold PRESETS_items in Hin.
    simpl in Hin.
    repeat (destruct Hin as [Hin | Hin];
            [injection Hin as <- <- <-; eexists;
             split; [|split; [vm_compute; reflexivity | reflexivity]];
             simpl; tauto|]).
    destruct Hin.
Qed.

Lemma cli_lists_presets_witness :
  exists presets,
    list_presets = Ok presets
    /\ run no_fonts tt
         (cli.main
            (cli.mkArgs None [] (Some (text_of "no size")) None 128 0 true)
            (fun _ => Raise OSError))
       = (Ok (cli.Print
                (cli.codes
                   (text_of "Available presets (braille WxH -> pixel WxH):"))
              :: map (fun entry => cli.Print (cli.preset_line entry)) presets,
              cli.Return), tt, [])
    /\ length presets = size PRESETS
    /\ (forall bw bh entry,
          PRESETS !! (bw, bh) = Some entry ->
          exists description,
            In ((bw, bh), description) presets
            /\ getitem entry 2 = Ok description
            /\ get_preset bw bh = [VInt (bw * 2); VInt (bh * 4)]).
Proof.
  apply (cli_lists_presets
           (cli.mkArgs None [] (Some (text_of "no size")) None 128 0 true)).
  reflexivity.
Defined.




Lemma main_outline (args : cli.Namespace)
  (read_text : list ascii -> result (list ascii)) (path : list ascii) :
  outline_request args path ->
  cli.main args read_text
  = let render char_size :=
      do* output :=
        text_to_braille (cli.message args) (cli.codes path) char_size
          (cli.font_size args) (cli.threshold args) in
      Ret (Ok ([cli.Print output], cli.Return)) in
    match cli.size args with
    | Some ((_ :: _) as size) =>
        match cli.parse_size size with
        | Ok (braille_w, braille_h) => render (get_preset braille_w braille_h)
        | Raise ValueError =>
            Ret (Ok ([cli.PrintErr (cli.invalid_size size)], cli.Exit 1))
        | Raise e => Ret (Raise e)
        end
    | _ => render [VInt 16; VInt 16]
    end.
Proof.
  intros (Hflag & Hfont & Hne & Hext). unfold cli.main.
  rewrite Hflag, Hfont. destruct path as [|c path]; [congruence|].
  rewrite Hext. reflexivity.
Qed.



Lemma lower_digit (c : ascii) : is_digit c = true -> cli.lower_char c = c.
Proof.
  unfold is_digit, cli.lower_char. intros Hc.
  replace (((65 <=? code c) && (code c <=? 90))
           || ((0xC0 <=? code c) && (code c <=? 0xDE)
               && negb (code c =? 0xD7)))%bool with false by lia.
  reflexivity.
Qed.

Lemma lower_numeral (s : list ascii) :
  Forall (fun c => is_digit c = true) s -> cli.lower s = s.
Proof.
  induction 1 as [|c s Hc Hs IH]; [reflexivity|].
  simpl. rewrite (lower_digit c Hc). f_equal. exact IH.
Qed.

Lemma digit_not_x (c : ascii) : is_digit c = true -> Ascii.eqb c "x" = false.
Proof.
  unfold is_digit. intros Hc. apply not_true_is_false. intros E.
  apply ascii_eqb_code in E. change (code "x") with 120 in E. lia.
Qed.

Lemma split_whole (s : list ascii) :
  Forall (fun c => is_digit c = true) s -> split "x" s = [s].
Proof.
  induction 1 as [|c s Hc Hs IH]; [reflexivity|].
  simpl. rewrite (digit_not_x c Hc), IH. reflexivity.
Qed.

Lemma split_pair (w h : list ascii) :
  Forall (fun c => is_digit c = true) w ->
  Forall (fun c => is_digit c = true) h ->
  split "x" (w ++ "x"%char :: h) = [w; h].
Proof.
  intros Hw Hh. induction Hw as [|c w Hc Hw IH].
  - simpl. rewrite (split_whole h Hh). reflexivity.
  - simpl. rewrite (digit_not_x c Hc), IH. reflexivity.
Qed.

Lemma parse_size_text (w_text h_text size : list ascii) (x : ascii) :
  size_text w_text x h_text size ->
  cli.parse_size size = Ok (numeral_value w_text, numeral_value h_text).
Proof.
  intros (-> & Hx & Hw & _ & Hh & _). unfold cli.parse_size, cli.lower.
  rewrite map_app. simpl map.
  fold (cli.lower w_text). fold (cli.lower h_text).
  rewrite (lower_numeral w_text) by apply Hw.
  rewrite (lower_numeral h_text) by apply Hh.
  replace (cli.lower_char x) with "x"%char by (destruct Hx as [-> | ->]; reflexivity).
  rewrite split_pair by (apply Hw || apply Hh).
  rewrite (int_numeral _ Hw), (int_numeral _ Hh). reflexivity.
Qed.

Lemma size_text_nonempty (w_text h_text size : list ascii) (x : ascii) :
  size_text w_text x h_text size -> size <> [].
Proof. intros (-> & _). destruct w_text; discriminate. Qed.

Lemma main_sized (args : cli.Namespace)
  (read_text : list ascii -> result (list ascii))
  (path w_text h_text size : list ascii) (x : ascii) :
  outline_request args path ->
  cli.size args = Some size -> size_text w_text x h_text size ->
  cli.main args read_text
  = do* output :=
      text_to_braille (cli.message args) (cli.codes path)
        (get_preset (numeral_value w_text) (numeral_value h_text))
        (cli.font_size args) (cli.threshold args) in
    Ret (Ok ([cli.Print output], cli.Return)).
Proof.
  intros Hreq Hsize Htext. rewrite (main_outline _ _ _ Hreq), Hsize.
  pose proof (size_text_nonempty _ _ _ _ Htext) as Hne.
  rewrite (parse_size_text _ _ _ _ Htext).
  destruct size; [congruence | reflexivity].
Qed.

(** X21: a size that parses but is no preset.  On the outline path, with
    a text that is not empty, a size of two numerals whose pair is not in
    the preset table ends [main] with an uncaught [ValueError]: nothing is
    printed, and the imaging library is not called. *)
Theorem cli_unlisted_size_crashes (args : cli.Namespace)
  (read_text : list ascii -> result (list ascii))
  (path w_text h_text size : list ascii) (x : ascii)
  (St : Type) (lib : library St) (st : St) :
  outline_request args path ->
  cli.size args = Some size -> size_text w_text x h_text size ->
  PRESETS !! (numeral_value w_text, numeral_value h_text) = None ->
  cli.message args <> [] ->
  run lib st (cli.main args read_text) = (Raise ValueError, st, []).
Proof.
  intros Hreq Hsize Htext Hout Hmsg.
  rewrite (main_sized _ _ _ _ _ _ _ Hreq Hsize Htext).
  rewrite (get_preset_unlisted _ _ Hout).
  destruct (cli.message args); [congruence | reflexivity].
Qed.

Lemma cli_unlisted_size_crashes_witness :
  run no_fonts tt
    (cli.main
       (cli.mkArgs (Some (text_of "a.ttf")) [[72; 105]] (Some (text_of "5X3"))
          None 128 0 false)
       (fun _ => Raise OSError))
  = (Raise ValueError, tt, []).
Proof.
  apply (cli_unlisted_size_crashes _ _ (text_of "a.ttf") (text_of "5")
           (text_of "3") (text_of "5X3") "X").
  - repeat split; discriminate.
  - reflexivity.
  - unfold size_text, numeral.
    split; [reflexivity|]. split; [right; reflexivity|].
    split; [split; [discriminate | repeat constructor]|].
    split; [vm_compute; discriminate|].
    split; [split; [discriminate | repeat constructor]|].
    vm_compute; discriminate.
  - reflexivity.
  - discriminate.
Defined.

Lemma ceil_div_mul (a b : Z) : 0 < b -> ceil_div (a * b) b = a.
Proof.
  intros Hb. unfold ceil_div.
  replace (a * b + b - 1) with (b - 1 + a * b) by lia.
  rewrite Z.div_add by lia. rewrite Z.div_small by lia. lia.
Qed.

Lemma listed_preset (bw bh : Z) (entry : list value) :
  PRESETS !! (bw, bh) = Some entry ->
  get_preset bw bh = [VInt (bw * 2); VInt (bh * 4)] /\ 0 < bw /\ 0 < bh.
Proof.
  intros Hin. rewrite (get_preset_listed _ _ _ Hin).
  apply map_to_list_PRESETS in Hin. unfold PRESETS_items in Hin.
  simpl in Hin.
  repeat (destruct Hin as [Hin | Hin];
          [injection Hin as <- <- <-; repeat split; reflexivity|]).
  destruct Hin.
Qed.

Lemma thresholded_canvas (px : Z -> Z -> Z) (threshold W H : Z) :
  canvas (thresholded px threshold W H) (Z.max 0 H) (Z.max 0 W).
Proof.
  unfold thresholded. split.
  - unfold len. rewrite length_map. apply range_length.
  - apply Forall_forall. intros row Hin.
    apply list_elem_of_In, in_map_iff in Hin as (y & <- & _).
    unfold len. rewrite length_map. apply range_length.
Qed.

(** The art of the outline path for a character size of [bw] by [bh]
    cells: [bh] lines of [bw] cells for each character. *)
Lemma render_art (px : Z -> Z -> Z) (msg font_path : list Z) (bw bh : Z)
  (font_size : option Z) (threshold : Z) (st : Z * Z) :
  0 < bw -> 0 < bh -> msg <> [] ->
  exists lines calls,
    run (raster_lib px) st
      (do* output :=
         text_to_braille msg font_path [VInt (bw * 2); VInt (bh * 4)]
           font_size threshold in
       Ret (Ok ([cli.Print output], cli.Return)))
    = (Ok ([cli.Print (join [newline] lines)], cli.Return),
       (bw * 2 * len msg, bh * 4), calls)
    /\ lines = braille_lines
                 (thresholded px threshold (bw * 2 * len msg) (bh * 4))
                 (bh * 4) (bw * 2 * len msg)
    /\ len lines = bh
    /\ Forall (fun l => len l = bw * len msg) lines.
Proof.
  intros Hw Hh Hmsg. destruct msg as [|c msg]; [congruence|].
  set (n := len (c :: msg)).
  assert (Hn : 0 < n) by (unfold n, len; simpl; lia).
  destruct (run_outline px c msg font_path (bw * 2) (bh * 4) font_size
              threshold st) as [calls E].
  fold n in E. fold (thresholded px threshold (bw * 2 * n) (bh * 4)) in E.
  pose proof (thresholded_canvas px threshold (bw * 2 * n) (bh * 4)) as Hc.
  rewrite (Z.max_r 0 (bh * 4)), (Z.max_r 0 (bw * 2 * n)) in Hc by nia.
  rewrite (bitmap_to_braille_lines _ _ _ Hc) in E by nia.
  do 2 eexists. split; [|split; [reflexivity|split]].
  - rewrite run_pbind, E. cbn [run]. reflexivity.
  - unfold len. rewrite braille_lines_length, ceil_div_mul by lia. lia.
  - eapply Forall_impl; [apply braille_lines_width|].
    intros l Hl. unfold len. rewrite Hl.
    replace (bw * 2 * n) with (bw * n * 2) by lia.
    rewrite ceil_div_mul by lia. nia.
Qed.

(** X22: the size option counts braille cells.  On the outline path,
    against a library that holds a raster, a size of two numerals whose
    pair is a preset makes [main] print, for a text that is not empty, the
    encoding of the thresholded raster: as many lines as the second numeral
    says, each with as many cells for every character of the text as the
    first numeral says.  It then returns. *)
Theorem cli_listed_size_art (px : Z -> Z -> Z) (args : cli.Namespace)
  (read_text : list ascii -> result (list ascii))
  (path w_text h_text size : list ascii) (x : ascii) (entry : list value)
  (st : Z * Z) :
  outline_request args path ->
  cli.size args = Some size -> size_text w_text x h_text size ->
  PRESETS !! (numeral_value w_text, numeral_value h_text) = Some entry ->
  cli.message args <> [] ->
  let W := numeral_value w_text in
  let H := numeral_value h_text in
  let n := len (cli.message args) in
  exists lines calls,
    run (raster_lib px) st (cli.main args read_text)
    = (Ok ([cli.Print (join [newline] lines)], cli.Return),
       (W * 2 * n, H * 4), calls)
    /\ lines = braille_lines
                 (thresholded px (cli.threshold args) (W * 2 * n) (H * 4))
                 (H * 4) (W * 2 * n)
    /\ len lines = H
    /\ Forall (fun l => len l = W * n) lines.
Proof.
  intros Hreq Hsize Htext Hin Hmsg W H n.
  rewrite (main_sized _ _ _ _ _ _ _ Hreq Hsize Htext).
  destruct (listed_preset _ _ _ Hin) as (-> & HW & HH).
  apply render_art; assumption.
Qed.

Lemma cli_listed_size_art_witness :
  exists lines calls,
    run (raster_lib (fun x y => if x =? y then 0 else 255)) (0, 0)
      (cli.main
         (cli.mkArgs (Some (text_of "a.ttf")) [[72; 105]]
            (Some (text_of "4x2")) None 128 0 false)
         (fun _ => Raise OSError))
    = (Ok ([cli.Print (join [newline] lines)], cli.Return), (16, 8), calls)
    /\ lines = braille_lines
                 (thresholded (fun x y => if x =? y then 0 else 255) 128 16 8)
                 8 16
    /\ len lines = 2
    /\ Forall (fun l => len l = 8) lines.
Proof.
  apply (cli_listed_size_art (fun x y => if x =? y then 0 else 255)
           (cli.mkArgs (Some (text_of "a.ttf")) [[72; 105]]
              (Some (text_of "4x2")) None 128 0 false)
           (fun _ => Raise OSError)
           (text_of "a.ttf") (text_of "4") (text_of "2") (text_of "4x2") "x"
           [VInt 8; VInt 8; VStr "8x8 - tiny"] (0, 0)).
  - repeat split; discriminate.
  - reflexivity.
  - unfold size_text, numeral.
    split; [reflexivity|]. split; [left; reflexivity|].
    split; [split; [discriminate | repeat constructor]|].
    split; [vm_compute; discriminate|].
    split; [split; [discriminate | repeat constructor]|].
    vm_compute; discriminate.
  - reflexivity.
  - discriminate.
Defined.

Lemma main_unsized (args : cli.Namespace)
  (read_text : list ascii -> result (list ascii)) (path : list ascii) :
  outline_request args path ->
  cli.size args = None \/ cli.size args = Some [] ->
  cli.main args read_text
  = do* output :=
      text_to_braille (cli.message args) (cli.codes path) [VInt 16; VInt 16]
        (cli.font_size args) (cli.threshold args) in
    Ret (Ok ([cli.Print output], cli.Return)).
Proof.
  intros Hreq Hsize. rewrite (main_outline _ _ _ Hreq).
  destruct Hsize as [-> | ->]; reflexivity.
Qed.

(** X23: the default size.  On the outline path with no size given, or an
    empty one, the character size is 16 by 16 pixels: against a library
    that holds a raster, [main] prints for a text that is not empty 4 lines
    of 8 cells for every character, and returns. *)
Theorem cli_default_size_art (px : Z -> Z -> Z) (args : cli.Namespace)
  (read_text : list ascii -> result (list ascii)) (path : list ascii)
  (st : Z * Z) :
  outline_request args path ->
  cli.size args = None \/ cli.size args = Some [] ->
  cli.message args <> [] ->
  let n := len (cli.message args) in
  exists lines calls,
    run (raster_lib px) st (cli.main args read_text)
    = (Ok ([cli.Print (join [newline] lines)], cli.Return), (16 * n, 16),
       calls)
    /\ lines = braille_lines
                 (thresholded px (cli.threshold args) (16 * n) 16) 16 (16 * n)
    /\ len lines = 4
    /\ Forall (fun l => len l = 8 * n) lines.
Proof.
  intros Hreq Hsize Hmsg n.
  rewrite (main_unsized _ _ _ Hreq Hsize).
  change [VInt 16; VInt 16] with [VInt (8 * 2); VInt (4 * 4)].
  destruct (render_art px (cli.message args) (cli.codes path) 8 4
              (cli.font_size args) (cli.threshold args) st)
    as (lines & calls & Hrun & Hlines & Hlen & Hwidth); [lia | lia | exact Hmsg|].
  exists lines, calls. fold n in Hrun, Hlines, Hwidth.
  replace (8 * 2 * n) with (16 * n) in * by lia.
  change (4 * 4) with 16 in *.
  repeat split; assumption.
Qed.

Lemma cli_default_size_art_witness :
  exists lines calls,
    run (raster_lib (fun x y => if x =? y then 0 else 255)) (0, 0)
      (cli.main
         (cli.mkArgs (Some (text_of "a.ttf")) [] None None 128 0 false)
         (fun _ => Raise OSError))
    = (Ok ([cli.Print (join [newline] lines)], cli.Return), (80, 16), calls)
    /\ lines = braille_lines
                 (thresholded (fun x y => if x =? y then 0 else 255) 128 80 16)
                 16 80
    /\ len lines = 4
    /\ Forall (fun l => len l = 40) lines.
Proof.
  apply (cli_default_size_art (fun x y => if x =? y then 0 else 255)
           (cli.mkArgs (Some (text_of "a.ttf")) [] None None 128 0 false)
           (fun _ => Raise OSError) (text_of "a.ttf") (0, 0)).
  - repeat split; discriminate.
  - left. reflexivity.
  - discriminate.
Defined.

Lemma startswith_app (p s : list ascii) : cli.startswith (p ++ s) p = true.
Proof.
  induction p as [|c p IH]; [destruct s; reflexivity|].
  simpl. rewrite Ascii.eqb_refl. exact IH.
Qed.

Lemma endswith_app (s suffix : list ascii) :
  cli.endswith (s ++ suffix) suffix = true.
Proof. unfold cli.endswith. rewrite rev_app_distr. apply startswith_app. Qed.

(** X24: the route of a [.bdf] font.  Without [--list-presets], a font
    path that ends in [.bdf] in any mix of capital and small letters goes
    to the bitmap-font path: [main] prints what [bdf_text_to_braille] makes
    of the text, of the content of that file and of the spacing, and
    returns, or ends with the exception that call raised.  The size, the
    point size and the threshold have no part in it, also a size that
    would not parse, and the imaging library is not called. *)
Theorem cli_bdf_route (args : cli.Namespace)
  (read_text : list ascii -> result (list ascii)) (stem ext : list ascii)
  (St : Type) (lib : library St) (st : St) :
  cli.list_presets args = false ->
  cli.font args = Some (stem ++ ext) ->
  cli.lower ext = text_of ".bdf" ->
  run lib st (cli.main args read_text)
  = (let* output :=
       bdf_text_to_braille (cli.message args) (read_text (stem ++ ext))
         (cli.spacing args) in
     Ok ([cli.Print output], cli.Return), st, []).
Proof.
  intros Hflag Hfont Hext. unfold cli.main. rewrite Hflag, Hfont.
  assert (Hends :
    cli.endswith (cli.lower (stem ++ ext)) (text_of ".bdf") = true).
  { unfold cli.lower. rewrite map_app. fold (cli.lower ext). rewrite Hext.
    apply endswith_app. }
  destruct (stem ++ ext) as [|c path] eqn:Hpath.
  - apply app_eq_nil in Hpath as [_ ->]. discriminate Hext.
  - rewrite Hends. reflexivity.
Qed.

Lemma cli_bdf_route_witness :
  run no_fonts tt
    (cli.main
       (cli.mkArgs (Some (text_of "fonts/Tiny.BdF")) [[95]]
          (Some (text_of "wide")) (Some 40) 7 1 false)
       (fun _ => Ok underscore_bdf))
  = (let* output := bdf_text_to_braille [95] (Ok underscore_bdf) 1 in
     Ok ([cli.Print output], cli.Return), tt, []).
Proof.
  apply (cli_bdf_route
           (cli.mkArgs (Some (text_of "fonts/Tiny.BdF")) [[95]]
              (Some (text_of "wide")) (Some 40) 7 1 false)
           (fun _ => Ok underscore_bdf)
           (text_of "fonts/Tiny") (text_of ".BdF")); reflexivity.
Defined.

(** ** The encoder on rows of unequal length *)

Lemma for_each_ext {A S} (xs : list A) (f g : S -> A -> result S) (s : S) :
  (forall s x, In x xs -> f s x = g s x) ->
  for_each xs f s = for_each xs g s.
Proof.
  revert s. induction xs as [|x xs IH]; intros s Hfg; simpl; [reflexivity|].
  rewrite (Hfg s x) by (left; reflexivity).
  destruct (g s x) as [s1|e]; simpl; [|reflexivity].
  apply IH. intros s0 x0 Hin. apply Hfg. right. exact Hin.
Qed.

Lemma comprehension_ext {A B} (f g : A -> result B) (xs : list A) :
  (forall x, In x xs -> f x = g x) ->
  comprehension f xs = comprehension g xs.
Proof.
  induction xs as [|x xs IH]; intros Hfg; simpl; [reflexivity|].
  rewrite (Hfg x) by (left; reflexivity).
  rewrite IH by (intros; apply Hfg; right; assumption). reflexivity.
Qed.

(** A loop whose passes either succeed, keeping [P], or raise [e]. *)
Lemma for_each_outcome {A S} (P : S -> Prop) (e : exn) (xs : list A)
  (body : S -> A -> result S) (s : S) :
  P s ->
  (forall s x, In x xs -> P s ->
     body s x = Raise e \/ exists s', body s x = Ok s' /\ P s') ->
  for_each xs body s = Raise e
  \/ exists s', for_each xs body s = Ok s' /\ P s'.
Proof.
  revert s. induction xs as [|x xs IH]; intros s Hs Hstep; simpl.
  - right. eauto.
  - destruct (Hstep s x (or_introl eq_refl) Hs) as [-> | (s1 & -> & Hs1)];
      simpl; [left; reflexivity|].
    apply IH; [exact Hs1|].
    intros s0 x0 Hin. apply Hstep. right. exact Hin.
Qed.

(** Such a loop raises [e] when one pass raises it from every state. *)
Lemma for_each_raise {A S} (P : S -> Prop) (e : exn) (xs : list A)
  (body : S -> A -> result S) (s : S) :
  P s ->
  (forall s x, In x xs -> P s ->
     body s x = Raise e \/ exists s', body s x = Ok s' /\ P s') ->
  (exists x, In x xs /\ forall s, body s x = Raise e) ->
  for_each xs body s = Raise e.
Proof.
  revert s. induction xs as [|x xs IH]; intros s Hs Hstep (x0 & Hin & Hx0);
    [destruct Hin|].
  simpl.
  destruct (Hstep s x (or_introl eq_refl) Hs) as [-> | (s1 & E & Hs1)];
    [reflexivity|].
  rewrite E. simpl. destruct Hin as [-> | Hin].
  - rewrite Hx0 in E. discriminate.
  - apply IH; [exact Hs1 | | eauto].
    intros s0 x1 Hin1. apply Hstep. right. exact Hin1.
Qed.

Lemma comprehension_outcome {A B} (e : exn) (f : A -> result B) (xs : list A) :
  (forall x, In x xs -> f x = Raise e \/ exists v, f x = Ok v) ->
  comprehension f xs = Raise e \/ exists vs, comprehension f xs = Ok vs.
Proof.
  induction xs as [|x xs IH]; intros Hf; simpl; [right; eauto|].
  destruct (Hf x (or_introl eq_refl)) as [-> | (v & ->)]; simpl;
    [left; reflexivity|].
  destruct IH as [-> | (vs & ->)]; simpl; eauto.
  intros x0 Hin. apply Hf. right. exact Hin.
Qed.

Lemma comprehension_raise_some {A B} (e : exn) (f : A -> result B)
  (xs : list A) :
  (forall x, In x xs -> f x = Raise e \/ exists v, f x = Ok v) ->
  (exists x, In x xs /\ f x = Raise e) ->
  comprehension f xs = Raise e.
Proof.
  induction xs as [|x xs IH]; intros Hf (x0 & Hin & Hx0); [destruct Hin|].
  simpl.
  destruct (Hf x (or_introl eq_refl)) as [-> | (v & E)]; [reflexivity|].
  rewrite E. simpl. destruct Hin as [-> | Hin]; [congruence|].
  rewrite IH; [reflexivity | | eauto].
  intros x1 Hin1. apply Hf. right. exact Hin1.
Qed.

Lemma getitem_outcome {A} (l : list A) (i : Z) :
  getitem l i = Raise IndexError \/ exists a, getitem l i = Ok a.
Proof.
  unfold getitem. destruct (_ && _)%bool; [|left; reflexivity].
  destruct (l !! _); eauto.
Qed.

Lemma getitem_end {A} (l : list A) : getitem l (len l) = Raise IndexError.
Proof.
  unfold getitem, len. generalize (Z.of_nat (length l)). intros n.
  destruct (Z.ltb_spec n 0) as [Hn|Hn].
  - replace (0 <=? n + n) with false by lia. reflexivity.
  - rewrite Z.ltb_irrefl, andb_false_r. reflexivity.
Qed.

Lemma in_range3 (stop step v : Z) :
  0 < step ->
  In v (range3 0 stop step) <-> exists k, v = step * k /\ 0 <= k /\ v < stop.
Proof.
  intros Hstep. rewrite range3_spec by exact Hstep. rewrite in_map_iff.
  pose proof (ceil_div_spec stop step Hstep) as Hc.
  split.
  - intros (k & <- & Hk). apply in_seq in Hk.
    exists (Z.of_nat k). split; [reflexivity|]. split; [lia|]. nia.
  - intros (k & -> & Hk & Hlt). exists (Z.to_nat k).
    split; [lia|]. apply in_seq. split; [lia|]. simpl.
    assert (k < ceil_div stop step) by nia. lia.
Qed.

Lemma in_block_lor (code dx dy bit : Z) :
  in_block code -> In (dx, dy, bit) BRAILLE_DOTS -> in_block (Z.lor code bit).
Proof.
  unfold in_block. intros Hcode Hin. rewrite Z.shiftr_lor, Hcode.
  unfold BRAILLE_DOTS in Hin. simpl in Hin.
  repeat (destruct Hin as [[= <- <- <-] | Hin]; [reflexivity|]).
  destruct Hin.
Qed.

Lemma in_block_chr (code : Z) : in_block code -> chr code = Ok code.
Proof.
  unfold in_block, chr. rewrite Z.shiftr_div_pow2 by lia.
  change (2 ^ 8) with 256. intros Hcode.
  pose proof (Z.div_mod code 256 ltac:(lia)) as Hdm.
  pose proof (Z.mod_pos_bound code 256 ltac:(lia)) as Hm.
  replace ((0 <=? code) && (code <=? 1114111))%bool with true by lia.
  reflexivity.
Qed.

Section Ragged.

Variables (bitmap : list (list bool)) (H W : Z).

Lemma dot_outcome (y x code dx dy bit : Z) :
  In (dx, dy, bit) BRAILLE_DOTS -> in_block code ->
  let pass :=
    if (y + dy <? H) && (x + dx <? W)
    then let* row := getitem bitmap (y + dy) in
         let* pixel := getitem row (x + dx) in
         Ok (if pixel : bool then Z.lor code bit else code)
    else Ok code in
  pass = Raise IndexError \/ exists code', pass = Ok code' /\ in_block code'.
Proof.
  intros Hin Hcode pass. unfold pass.
  destruct (_ && _)%bool; [|right; eauto].
  destruct (getitem_outcome bitmap (y + dy)) as [-> | (row & ->)];
    [left; reflexivity|].
  simpl.
  destruct (getitem_outcome row (x + dx)) as [-> | (pixel & ->)];
    [left; reflexivity|].
  simpl. right. eexists. split; [reflexivity|].
  destruct pixel; [eapply in_block_lor; eassumption | exact Hcode].
Qed.

Lemma cell_code_outcome (y x : Z) :
  cell_code bitmap H W y x = Raise IndexError
  \/ exists code, cell_code bitmap H W y x = Ok code /\ in_block code.
Proof.
  unfold cell_code. apply for_each_outcome; [reflexivity|].
  intros code [[dx dy] bit] Hin Hcode. apply dot_outcome; assumption.
Qed.

Lemma braille_line_outcome (y : Z) :
  braille_line bitmap H W y = Raise IndexError
  \/ exists line, braille_line bitmap H W y = Ok line.
Proof.
  unfold braille_line. apply comprehension_outcome. intros x _.
  destruct (cell_code_outcome y x) as [-> | (code & -> & Hcode)];
    [left; reflexivity|].
  simpl. right. rewrite (in_block_chr _ Hcode). eauto.
Qed.

(** A row that ends before column [W] makes its band fail. *)
Lemma short_row_band (j : nat) (row : list bool) :
  bitmap !! j = Some row -> Z.of_nat j < H -> len row < W ->
  braille_line bitmap H W (4 * (Z.of_nat j / 4)) = Raise IndexError.
Proof.
  intros Hrow Hj Hshort.
  set (y := Z.of_nat j). set (y0 := 4 * (y / 4)). set (L := len row).
  set (x0 := 2 * (L / 2)).
  assert (HL : 0 <= L) by (unfold L, len; lia).
  pose proof (Z.div_mod y 4 ltac:(lia)) as Hy.
  pose proof (Z.mod_pos_bound y 4 ltac:(lia)) as Hym.
  pose proof (Z.div_mod L 2 ltac:(lia)) as HLd.
  pose proof (Z.mod_pos_bound L 2 ltac:(lia)) as HLm.
  unfold braille_line. apply comprehension_raise_some.
  - intros x _.
    destruct (cell_code_outcome y0 x) as [-> | (code & -> & Hcode)];
      [left; reflexivity|].
    simpl. right. rewrite (in_block_chr _ Hcode). eauto.
  - exists x0. split.
    + apply in_range3; [lia|]. exists (L / 2).
      split; [reflexivity|]. split; [apply Z.div_pos; lia | unfold x0; lia].
    + assert (Hcell : cell_code bitmap H W y0 x0 = Raise IndexError).
      { unfold cell_code. apply (for_each_raise in_block); [reflexivity| |].
        - intros code [[dx dy] bit] Hin Hcode. apply dot_outcome; assumption.
        - assert (Hdot : exists bit, In (L - x0, y - y0, bit) BRAILLE_DOTS).
          { assert (Hdx : L - x0 = 0 \/ L - x0 = 1) by (unfold x0; lia).
            assert (Hdy : y - y0 = 0 \/ y - y0 = 1 \/ y - y0 = 2 \/ y - y0 = 3)
              by (unfold y0; lia).
            unfold BRAILLE_DOTS.
            destruct Hdx as [-> | ->], Hdy as [-> | [-> | [-> | ->]]];
              eexists; simpl; eauto 10. }
          destruct Hdot as (bit & Hin). exists (L - x0, y - y0, bit).
          split; [exact Hin|]. intros code.
          replace (y0 + (y - y0)) with y by lia.
          replace (x0 + (L - x0)) with L by lia.
          replace ((y <? H) && (L <? W))%bool with true by (unfold y, L; lia).
          rewrite (getitem_lookup bitmap y row) by
            (unfold y; first [lia | rewrite Nat2Z.id; exact Hrow]).
          simpl. unfold L. rewrite getitem_end. reflexivity. }
      rewrite Hcell. reflexivity.
Qed.

End Ragged.

Lemma dots_nonneg (dx dy bit : Z) :
  In (dx, dy, bit) BRAILLE_DOTS -> 0 <= dx /\ 0 <= dy.
Proof.
  unfold BRAILLE_DOTS. simpl. intros Hin.
  repeat (destruct Hin as [[= <- <- <-] | Hin]; [lia|]).
  destruct Hin.
Qed.

Section Truncated.

Variables (bitmap : list (list bool)) (H W : Z).
Hypothesis Hheight : len bitmap = H.
Hypothesis Hrows : Forall (fun row => W <= len row) bitmap.

Lemma read_truncated (y x : Z) :
  0 <= y < H -> 0 <= x < W ->
  (let* row := getitem bitmap y in getitem row x)
  = (let* row := getitem (map (take (Z.to_nat W)) bitmap) y in getitem row x).
Proof.
  intros Hy Hx. unfold len in Hheight.
  destruct (lookup_lt_is_Some_2 bitmap (Z.to_nat y) ltac:(lia)) as [row Hrow].
  rewrite (getitem_lookup bitmap y row) by (lia || exact Hrow).
  rewrite (getitem_lookup (map (take (Z.to_nat W)) bitmap) y
             (take (Z.to_nat W) row))
    by (lia || (rewrite list_lookup_fmap, Hrow; reflexivity)).
  simpl.
  assert (Hlen : W <= len row).
  { rewrite Forall_forall in Hrows. apply Hrows.
    apply list_elem_of_lookup. eauto. }
  unfold len in Hlen.
  destruct (lookup_lt_is_Some_2 row (Z.to_nat x) ltac:(lia)) as [p Hp].
  rewrite (getitem_lookup row x p) by (lia || exact Hp).
  rewrite (getitem_lookup (take (Z.to_nat W) row) x p);
    [reflexivity | lia |].
  rewrite lookup_take_lt by lia. exact Hp.
Qed.

Lemma cell_code_truncated (y x : Z) :
  0 <= y -> 0 <= x ->
  cell_code bitmap H W y x
  = cell_code (map (take (Z.to_nat W)) bitmap) H W y x.
Proof.
  intros Hy Hx. unfold cell_code. apply for_each_ext.
  intros code [[dx dy] bit] Hin.
  destruct (dots_nonneg _ _ _ Hin) as [Hdx Hdy].
  destruct ((y + dy <? H) && (x + dx <? W))%bool eqn:Hin_canvas;
    [|reflexivity].
  pose proof (read_truncated (y + dy) (x + dx) ltac:(lia) ltac:(lia)) as E.
  destruct (getitem bitmap (y + dy)) as [row|e];
    destruct (getitem (map (take (Z.to_nat W)) bitmap) (y + dy)) as [row'|e'];
    simpl in E |- *; try congruence;
    first [rewrite E | rewrite <- E]; reflexivity.
Qed.

Lemma bands_truncated :
  comprehension (braille_line bitmap H W) (range3 0 H 4)
  = comprehension (braille_line (map (take (Z.to_nat W)) bitmap) H W)
      (range3 0 H 4).
Proof.
  apply comprehension_ext. intros y Hy.
  apply in_range3 in Hy as (k & -> & Hk & _); [|lia].
  unfold braille_line. apply comprehension_ext. intros x Hx.
  apply in_range3 in Hx as (i & -> & Hi & _); [|lia].
  rewrite cell_code_truncated by lia. reflexivity.
Qed.

Lemma truncated_canvas : 0 <= W ->
  canvas (map (take (Z.to_nat W)) bitmap) H W.
Proof.
  intros HW. split.
  - unfold len. rewrite length_map. exact Hheight.
  - apply Forall_forall. intros row Hin.
    apply list_elem_of_In, in_map_iff in Hin as (row' & <- & Hin).
    rewrite Forall_forall in Hrows.
    pose proof (Hrows row' (proj2 (list_elem_of_In _ _) Hin)) as Hlen.
    unfold len in *. rewrite length_take. lia.
Qed.

End Truncated.

(** X25: the encoder on rows of unequal length.  The first row sets the
    width.  When no row is shorter than the first, what rows hold beyond
    that width is not read: the output is that of the canvas cut to the
    width.  When some row is shorter than the first, the encoder raises
    [IndexError]. *)
Theorem encoder_ragged (row0 : list bool) (rest : list (list bool)) :
  row0 <> [] ->
  let bitmap := row0 :: rest in
  let W := len row0 in
  (Forall (fun row => W <= len row) rest ->
   _bitmap_to_braille bitmap
   = _bitmap_to_braille (map (take (Z.to_nat W)) bitmap)
   /\ canvas (map (take (Z.to_nat W)) bitmap) (len bitmap) W)
  /\ (Exists (fun row => len row < W) rest ->
      _bitmap_to_braille bitmap = Raise IndexError).
Proof.
  intros Hne bitmap W.
  assert (HW : 0 < W) by (unfold W, len; destruct row0; simpl; [congruence | lia]).
  split.
  - intros Hrest.
    assert (Hrows : Forall (fun row => W <= len row) bitmap).
    { apply Forall_cons. split; [unfold W; lia | exact Hrest]. }
    split; [|apply truncated_canvas; [reflexivity | exact Hrows | lia]].
    assert (Hrow0 : take (Z.to_nat W) row0 = row0).
    { apply take_ge. unfold W, len. lia. }
    unfold bitmap. simpl map. rewrite Hrow0.
    destruct row0 as [|p row0]; [congruence|].
    unfold _bitmap_to_braille.
    pose proof (bands_truncated bitmap (len bitmap) W eq_refl Hrows) as E.
    unfold bitmap in E. simpl map in E. rewrite Hrow0 in E.
    replace (len (_ :: map (take (Z.to_nat W)) rest))
      with (len ((p :: row0) :: rest))
      by (unfold len; simpl; rewrite length_map; reflexivity).
    fold W. rewrite E. reflexivity.
  - intros Hshort. apply Exists_exists in Hshort as (row & Hin & Hlen).
    apply list_elem_of_lookup in Hin as (i & Hi).
    assert (Hrow : bitmap !! S i = Some row) by exact Hi.
    apply lookup_lt_Some in Hrow as Hlt.
    assert (Hband :
      comprehension (braille_line bitmap (len bitmap) W)
        (range3 0 (len bitmap) 4) = Raise IndexError).
    { apply comprehension_raise_some.
      - intros y _. apply braille_line_outcome.
      - exists (4 * (Z.of_nat (S i) / 4)). split.
        + apply in_range3; [lia|]. eexists. split; [reflexivity|].
          pose proof (Z.div_mod (Z.of_nat (S i)) 4 ltac:(lia)).
          pose proof (Z.mod_pos_bound (Z.of_nat (S i)) 4 ltac:(lia)).
          unfold len. split; [apply Z.div_pos; lia | lia].
        + apply (short_row_band bitmap _ _ (S i) row Hrow);
            [unfold len; lia | exact Hlen]. }
    unfold bitmap in *. destruct row0 as [|p row0]; [congruence|].
    unfold _bitmap_to_braille. fold W. rewrite Hband. reflexivity.
Qed.

Lemma encoder_ragged_witness :
  (_bitmap_to_braille [[true; false]; [false; true; true]]
   = _bitmap_to_braille [[true; false]; [false; true]])
  /\ _bitmap_to_braille [[true; false]; [true]] = Raise IndexError.
Proof.
  split.
  - apply (proj1 (encoder_ragged [true; false] [[false; true; true]]
                    ltac:(discriminate))).
    repeat constructor. vm_compute. discriminate.
  - apply (proj2 (encoder_ragged [true; false] [[true]]
                    ltac:(discriminate))).
    constructor. reflexivity.
Defined.
